(** * Quantum_Simulator: the state-vector engine and its analysis functions

    A shallow embedding of the numerical core of the simulator:
    [createInitialState], [applySingleQubitGate] and [simulateCircuit]
    (App.js), and [calculateDensityMatrix], [calculatePartialTrace] and
    [calculateExpectationValues] (DensityMatrixVisualizer.js).

    Conventions of the embedding.
    - A JavaScript number that holds an amplitude is a real number ([R]):
      IEEE-754 rounding is idealised away, every statement about amplitudes
      below is a statement of exact real arithmetic.
    - A JavaScript number used as an index or a qubit number is an integer
      ([Z], or [nat] for a loop counter); the 32-bit operators [<<], [>>],
      [&], [|] and [^] are written with their conversion to int32.
    - An array is a [list]; reading a missing element gives [undefined], and
      the property access that follows throws, which is [Err TypeError].
    - A function that mutates its argument returns the argument's new
      contents. *)

From Stdlib Require Import String.
From Stdlib Require Import ZArith List Reals Lra Lia Bool Permutation.
From Stdlib Require DecimalString.
Import ListNotations.

Local Open Scope Z_scope.

(** ** JavaScript values *)

Module JS.

Inductive exn : Type :=
| TypeError
| RangeError.

Inductive result (A : Type) : Type :=
| Ok (a : A)
| Err (e : exn).
Arguments Ok {A} a.
Arguments Err {A} e.

Definition bind {A B : Type} (r : result A) (k : A -> result B) : result B :=
  match r with
  | Ok a => k a
  | Err e => Err e
  end.

(** [for (let i = 0; i < n; i++) acc = body i acc], stopping at the first
    exception. *)
Fixpoint for_from {A : Type} (start n : nat) (body : nat -> A -> result A)
         (acc : A) : result A :=
  match n with
  | O => Ok acc
  | S n' => bind (body start acc) (for_from (S start) n' body)
  end.

Definition for_loop {A : Type} (n : nat) (body : nat -> A -> result A)
           (acc : A) : result A :=
  for_from 0 n body acc.

(** ToInt32 on an integral number. *)
Definition to_int32 (z : Z) : Z := (z + 2 ^ 31) mod 2 ^ 32 - 2 ^ 31.

(** [a << b], [a >> b], [a & b], [a | b], [a ^ b]. *)
Definition shl (a b : Z) : Z := to_int32 (Z.shiftl (to_int32 a) (b mod 32)).
Definition sar (a b : Z) : Z := Z.shiftr (to_int32 a) (b mod 32).
Definition and (a b : Z) : Z := Z.land (to_int32 a) (to_int32 b).
Definition or (a b : Z) : Z := Z.lor (to_int32 a) (to_int32 b).
Definition xor (a b : Z) : Z := Z.lxor (to_int32 a) (to_int32 b).

(** [Array(len).fill().map(() => v)]: the constructor throws a RangeError
    unless [len] is an integer in [0, 2^32 - 1]. *)
Definition new_array {A : Type} (len : Z) (v : A) : result (list A) :=
  if (0 <=? len) && (len <=? 2 ^ 32 - 1)
  then Ok (repeat v (Z.to_nat len))
  else Err RangeError.

(** [a[i].field]: [a[i]] is [undefined] outside the array, and reading a
    property of [undefined] throws a TypeError. *)
Definition get {A : Type} (a : list A) (i : Z) : result A :=
  if i <? 0 then Err TypeError
  else match nth_error a (Z.to_nat i) with
       | Some x => Ok x
       | None => Err TypeError
       end.

Fixpoint update {A : Type} (a : list A) (i : nat) (v : A) : list A :=
  match a, i with
  | [], _ => []
  | _ :: t, O => v :: t
  | h :: t, S i' => h :: update t i' v
  end.

(** [a[i] = v] for an index inside the array.  (An index outside it would
    grow the array or add a property; every store of the functions below is
    to an index that is inside, see [createInitialState_index_bound] and the
    reads that precede the stores of [applySingleQubitGate].) *)
Definition set {A : Type} (a : list A) (i : Z) (v : A) : list A :=
  if i <? 0 then a else update a (Z.to_nat i) v.

End JS.

Import JS.

Notation "x <- c1 ;; c2" := (JS.bind c1 (fun x => c2))
  (at level 61, c1 at next level, right associativity).

(** ** Complex arithmetic *)

Record Complex : Type := mkComplex { re : R; im : R }.

Definition complexAdd (a b : Complex) : Complex :=
  mkComplex (re a + re b) (im a + im b).

Definition complexMultiply (a b : Complex) : Complex :=
  mkComplex (re a * re b - im a * im b) (re a * im b + im a * re b).

Definition czero : Complex := mkComplex 0 0.
Definition cone : Complex := mkComplex 1 0.

Definition StateVector : Type := list Complex.

(** ** The state vector engine *)

(** An entry of [initialStates]: [{ value: '0' | '1', phase }]. *)
Record QubitInit : Type := mkQubitInit { value : string; phase : R }.

(** One iteration of the loop of [createInitialState] on
    [basisStateIndex]. *)
Definition basis_iteration (initialStates : list QubitInit) (i : nat)
           (basisStateIndex : Z) : result Z :=
  q <- get initialStates (Z.of_nat i) ;;
  Ok (if String.eqb (value q) "1"
      then JS.or basisStateIndex (shl 1 (Z.of_nat i))
      else basisStateIndex).

Definition createInitialState (numQubits : nat) (initialStates : list QubitInit)
  : result StateVector :=
  state <- new_array (2 ^ Z.of_nat numQubits) czero ;;
  basisStateIndex <-
    for_loop numQubits (basis_iteration initialStates) 0 ;;
  Ok (set state basisStateIndex cone).

(** A 2x2 gate matrix [[m00, m01], [m10, m11]]. *)
Record Matrix2 : Type :=
  mkMatrix2 { m00 : Complex; m01 : Complex; m10 : Complex; m11 : Complex }.

Definition hadamardMatrix : Matrix2 :=
  mkMatrix2 (mkComplex (1 / sqrt 2) 0) (mkComplex (1 / sqrt 2) 0)
            (mkComplex (1 / sqrt 2) 0) (mkComplex (- 1 / sqrt 2) 0).

Definition xMatrix : Matrix2 :=
  mkMatrix2 (mkComplex 0 0) (mkComplex 1 0)
            (mkComplex 1 0) (mkComplex 0 0).

Definition yMatrix : Matrix2 :=
  mkMatrix2 (mkComplex 0 0) (mkComplex 0 (-1))
            (mkComplex 0 1) (mkComplex 0 0).

Definition zMatrix : Matrix2 :=
  mkMatrix2 (mkComplex 1 0) (mkComplex 0 0)
            (mkComplex 0 0) (mkComplex (-1) 0).

Definition sMatrix : Matrix2 :=
  mkMatrix2 (mkComplex 1 0) (mkComplex 0 0)
            (mkComplex 0 0) (mkComplex 0 1).

Definition tMatrix : Matrix2 :=
  mkMatrix2 (mkComplex 1 0) (mkComplex 0 0)
            (mkComplex 0 0) (mkComplex (cos (PI / 4)) (sin (PI / 4))).

(** One iteration of the main loop of [applySingleQubitGate]. *)
Definition gate_iteration (state : StateVector) (gateMatrix : Matrix2)
           (qubit : nat) (i : nat) (newState : StateVector)
  : result StateVector :=
  let qubitValue := JS.and (sar (Z.of_nat i) (Z.of_nat qubit)) 1 in
  let flippedIndex := JS.xor (Z.of_nat i) (shl 1 (Z.of_nat qubit)) in
  if qubitValue =? 0 then
    n_i <- get newState (Z.of_nat i) ;;
    s_i <- get state (Z.of_nat i) ;;
    let newState :=
      set newState (Z.of_nat i)
          (complexAdd n_i (complexMultiply (m00 gateMatrix) s_i)) in
    n_f <- get newState flippedIndex ;;
    s_i <- get state (Z.of_nat i) ;;
    Ok (set newState flippedIndex
            (complexAdd n_f (complexMultiply (m01 gateMatrix) s_i)))
  else
    n_f <- get newState flippedIndex ;;
    s_i <- get state (Z.of_nat i) ;;
    let newState :=
      set newState flippedIndex
          (complexAdd n_f (complexMultiply (m10 gateMatrix) s_i)) in
    n_i <- get newState (Z.of_nat i) ;;
    s_i <- get state (Z.of_nat i) ;;
    Ok (set newState (Z.of_nat i)
            (complexAdd n_i (complexMultiply (m11 gateMatrix) s_i))).

(** [applySingleQubitGate(state, gateMatrix, qubit, numQubits)]; the result
    is the contents of [state] after the call. *)
Definition applySingleQubitGate (state : StateVector) (gateMatrix : Matrix2)
           (qubit : nat) (numQubits : nat) : result StateVector :=
  let size := 2 ^ Z.of_nat numQubits in
  newState <- new_array size czero ;;
  newState <- for_loop (Z.to_nat size)
                       (gate_iteration state gateMatrix qubit) newState ;;
  for_loop (Z.to_nat size)
           (fun i state => v <- get newState (Z.of_nat i) ;;
                           Ok (set state (Z.of_nat i) v))
           state.

(** ** The circuit model and the evaluator *)

(** A gate of the palette: [{ id, name, description, control, target }]
    (the colour is left out); a missing [control] or [target] is [false]. *)
Record Gate : Type :=
  mkGate { gate_id : string; gate_name : string; gate_description : string;
           gate_control : bool; gate_target : bool }.

(** A cell of the circuit: [{ gate: Gate | null }]. *)
Record Cell : Type := mkCell { gate : option Gate }.

Definition Circuit : Type := list (list Cell).

Record SimulationStep : Type :=
  mkStep { step : nat; state : StateVector; description : string }.

(** The entries of [gatesApplied]: [{ qubit, gate }]. *)
Record Placement : Type := mkPlacement { p_qubit : nat; p_gate : Gate }.

Definition string_of_nat (n : nat) : string :=
  DecimalString.NilEmpty.string_of_uint (Nat.to_uint n).

(** [circuit[row][col]]. *)
Definition cell_at (circuit : Circuit) (row col : nat) : result Cell :=
  r <- get circuit (Z.of_nat row) ;;
  get r (Z.of_nat col).

(** The inner loop of the [hasAnyGates] scan: rows [row .. row + n) of a
    column, leaving at the first gate. *)
Fixpoint scan_rows (circuit : Circuit) (col row n : nat) : result bool :=
  match n with
  | O => Ok false
  | S n' =>
      c <- cell_at circuit row col ;;
      match gate c with
      | Some _ => Ok true
      | None => scan_rows circuit col (S row) n'
      end
  end.

(** The outer loop of the [hasAnyGates] scan: columns [col .. col + n). *)
Fixpoint scan_cols (circuit : Circuit) (numQubits col n : nat) : result bool :=
  match n with
  | O => Ok false
  | S n' =>
      found <- scan_rows circuit col 0 numQubits ;;
      if found : bool then Ok true
      else scan_cols circuit numQubits (S col) n'
  end.

(** The collection loop of a column: [(hasGatesInColumn, gatesApplied)]. *)
Definition collect_column (circuit : Circuit) (numQubits col : nat)
  : result (bool * list Placement) :=
  for_loop numQubits
    (fun row acc =>
       c <- cell_at circuit row col ;;
       match gate c with
       | Some g => Ok (true, snd acc ++ [mkPlacement row g])
       | None => Ok acc
       end)
    (false, []).

(** The [switch (gate.id)] of the evaluator, on one collected placement:
    the new state and the description pushed. *)
Definition apply_placement (numQubits : nat) (newState : StateVector)
           (p : Placement) : result (StateVector * string) :=
  let qubit := p_qubit p in
  let g := p_gate p in
  let q := string_of_nat qubit in
  if String.eqb (gate_id g) "h" then
    s <- applySingleQubitGate newState hadamardMatrix qubit numQubits ;;
    Ok (s, "Hadamard (H) to qubit " ++ q)%string
  else if String.eqb (gate_id g) "x" then
    s <- applySingleQubitGate newState xMatrix qubit numQubits ;;
    Ok (s, "X gate to qubit " ++ q)%string
  else if String.eqb (gate_id g) "y" then
    s <- applySingleQubitGate newState yMatrix qubit numQubits ;;
    Ok (s, "Y gate to qubit " ++ q)%string
  else if String.eqb (gate_id g) "z" then
    s <- applySingleQubitGate newState zMatrix qubit numQubits ;;
    Ok (s, "Z gate to qubit " ++ q)%string
  else if String.eqb (gate_id g) "s" then
    s <- applySingleQubitGate newState sMatrix qubit numQubits ;;
    Ok (s, "S gate to qubit " ++ q)%string
  else if String.eqb (gate_id g) "t" then
    s <- applySingleQubitGate newState tMatrix qubit numQubits ;;
    Ok (s, "T gate to qubit " ++ q)%string
  else if String.eqb (gate_id g) "measure" then
    Ok (newState, "Measurement on qubit " ++ q)%string
  else
    Ok (newState, gate_name g ++ " gate to qubit " ++ q)%string.

(** [for (const { qubit, gate } of gatesApplied)]: the state and the list
    [gateDescriptions]. *)
Fixpoint apply_placements (numQubits : nat) (ps : list Placement)
         (acc : StateVector * list string)
  : result (StateVector * list string) :=
  match ps with
  | [] => Ok acc
  | p :: ps' =>
      r <- apply_placement numQubits (fst acc) p ;;
      apply_placements numQubits ps' (fst r, snd acc ++ [snd r])
  end.

(** The body of the column loop of [simulateCircuit].  [prevState] and
    [newState] are deep copies (a JSON round trip) of the state of the last
    step; arrays are values here, so a copy is the value itself and no step
    shares its state with another. *)
Definition column_step (numQubits : nat) (circuit : Circuit) (col : nat)
           (steps : list SimulationStep) : result (list SimulationStep) :=
  collected <- collect_column circuit numQubits col ;;
  if fst collected then
    prev <- get steps (Z.of_nat (length steps) - 1) ;;
    let prevState := state prev in
    r <- apply_placements numQubits (snd collected) (prevState, []) ;;
    Ok (steps ++ [mkStep (length steps) (fst r)
                         ("Applied " ++ String.concat ", " (snd r))])
  else Ok steps.

(** [simulateCircuit(circuit, initialStates)]; [numQubits] and [maxDepth]
    are the component's state variables the function closes over. *)
Definition simulateCircuit (numQubits maxDepth : nat) (circuit : Circuit)
           (initialStates : list QubitInit) : result (list SimulationStep) :=
  initialState <- createInitialState numQubits initialStates ;;
  let steps := [mkStep 0 initialState "Initial state"] in
  hasAnyGates <- scan_cols circuit numQubits 0 maxDepth ;;
  if hasAnyGates : bool then
    for_loop maxDepth (column_step numQubits circuit) steps
  else Ok steps.

(** ** Density matrix, partial trace and expectation values *)

Definition Matrix : Type := list (list Complex).

(** The body of the double loop of [calculateDensityMatrix]:
    [densityMatrix[i][j] = { re: ..., im: ... }]. *)
Definition density_iteration (stateVector : StateVector) (i j : nat)
           (densityMatrix : Matrix) : result Matrix :=
  a <- get stateVector (Z.of_nat i) ;;
  b <- get stateVector (Z.of_nat j) ;;
  row <- get densityMatrix (Z.of_nat i) ;;
  Ok (set densityMatrix (Z.of_nat i)
          (set row (Z.of_nat j)
               (mkComplex (re a * re b + im a * im b)
                          (im a * re b - re a * im b)))).

(** [calculateDensityMatrix(stateVector)].  The allocation cannot fail: its
    length is the length of an existing array. *)
Definition calculateDensityMatrix (stateVector : StateVector) : result Matrix :=
  let size := length stateVector in
  let densityMatrix := repeat (repeat czero size) size in
  for_loop size
    (fun i densityMatrix =>
       for_loop size (density_iteration stateVector i) densityMatrix)
    densityMatrix.

(** One iteration of the loop of [mapToReducedIndex], on the pair
    [(reducedIndex, bitPosition)]. *)
Definition reduce_bit (traceOutQubits : list nat) (fullIndex : Z)
           (acc : Z * Z) (qubit : nat) : Z * Z :=
  let (reducedIndex, bitPosition) := acc in
  if existsb (Nat.eqb qubit) traceOutQubits then acc
  else
    (if negb (JS.and fullIndex (shl 1 (Z.of_nat qubit)) =? 0)
     then JS.or reducedIndex (shl 1 bitPosition)
     else reducedIndex,
     bitPosition + 1).

(** The closure [mapToReducedIndex] of [calculatePartialTrace]. *)
Definition mapToReducedIndex (numQubits : nat) (traceOutQubits : list nat)
           (fullIndex : Z) : Z :=
  fst (fold_left (reduce_bit traceOutQubits fullIndex) (seq 0 numQubits) (0, 0)).

(** The [shouldInclude] flag of a pair of full indices. *)
Definition shouldInclude (traceOutQubits : list nat) (i j : Z) : bool :=
  forallb (fun qubit =>
             JS.and (sar i (Z.of_nat qubit)) 1
             =? JS.and (sar j (Z.of_nat qubit)) 1)
          traceOutQubits.

(** The body of the double loop of [calculatePartialTrace]. *)
Definition trace_iteration (densityMatrix : Matrix) (numQubits : nat)
           (traceOutQubits : list nat) (i j : nat) (reducedMatrix : Matrix)
  : result Matrix :=
  if shouldInclude traceOutQubits (Z.of_nat i) (Z.of_nat j) then
    let reducedI := mapToReducedIndex numQubits traceOutQubits (Z.of_nat i) in
    let reducedJ := mapToReducedIndex numQubits traceOutQubits (Z.of_nat j) in
    row <- get reducedMatrix reducedI ;;
    cell <- get row reducedJ ;;
    drow <- get densityMatrix (Z.of_nat i) ;;
    d <- get drow (Z.of_nat j) ;;
    Ok (set reducedMatrix reducedI (set row reducedJ (complexAdd cell d)))
  else Ok reducedMatrix.

(** [calculatePartialTrace(densityMatrix, numQubits, traceOutQubits)].
    [Math.pow(2, k)] is a fraction for a negative [k], which [Array] refuses
    with a RangeError. *)
Definition calculatePartialTrace (densityMatrix : Matrix) (numQubits : nat)
           (traceOutQubits : list nat) : result Matrix :=
  let totalDim := length densityMatrix in
  let remainingQubits :=
    Z.of_nat numQubits - Z.of_nat (length traceOutQubits) in
  if remainingQubits <? 0 then Err RangeError
  else
    let reducedDim := 2 ^ remainingQubits in
    row <- new_array reducedDim czero ;;
    reducedMatrix <- new_array reducedDim row ;;
    for_loop totalDim
      (fun i reducedMatrix =>
         for_loop totalDim
           (trace_iteration densityMatrix numQubits traceOutQubits i)
           reducedMatrix)
      reducedMatrix.




(** ** Initialisation of the editor *)

(** [initializeCircuit()]: the values it hands to [setCircuit] and
    [setInitialStates], for the component's [numQubits] and [maxDepth].  The
    inner [Array(maxDepth)] is only built when there is a row to fill. *)
Definition initializeCircuit (numQubits maxDepth : nat)
  : result (Circuit * list QubitInit) :=
  rows <- new_array (Z.of_nat numQubits) tt ;;
  row <- match rows with
         | [] => Ok []
         | _ :: _ => new_array (Z.of_nat maxDepth) (mkCell None)
         end ;;
  let newCircuit := map (fun _ => row) rows in
  newInitialStates <- new_array (Z.of_nat numQubits) (mkQubitInit "0" 0) ;;
  Ok (newCircuit, newInitialStates).

(** ** The mock Qiskit circuit and its simulator *)

(** [{ name, qubits }], [{ qubit, classicalBit }] and
    [{ numQubits, gates, measurements }]. *)
Record QGate : Type := mkQGate { q_name : string; q_qubits : list nat }.
Record QMeasurement : Type :=
  mkQMeasurement { m_qubit : nat; m_classicalBit : nat }.
Record QiskitCircuit : Type :=
  mkQiskitCircuit { qc_numQubits : nat; qc_gates : list QGate;
                    qc_measurements : list QMeasurement }.

Definition createQiskitCircuit (numQubits : nat) : QiskitCircuit :=
  mkQiskitCircuit numQubits [] [].

(** [addGate(circuit, gateName, qubit, controlQubit = null)]; the result is
    the circuit after the push. *)
Definition addGate (circuit : QiskitCircuit) (gateName : string) (qubit : nat)
           (controlQubit : option nat) : QiskitCircuit :=
  mkQiskitCircuit
    (qc_numQubits circuit)
    (qc_gates circuit
     ++ [mkQGate gateName
                 match controlQubit with
                 | Some c => [c; qubit]
                 | None => [qubit]
                 end])
    (qc_measurements circuit).

Definition addMeasurement (circuit : QiskitCircuit) (qubit classicalBit : nat)
  : QiskitCircuit :=
  mkQiskitCircuit (qc_numQubits circuit) (qc_gates circuit)
                  (qc_measurements circuit
                   ++ [mkQMeasurement qubit classicalBit]).

(** The state array of the mock simulator: [applyMockX] stores what it
    reads, which is [undefined] for an index outside the array, so an entry
    may be missing ([None]: [undefined], or the [null] a JSON copy makes of
    it). *)
Definition MockVector : Type := list (option Complex).

(** [v[i]]. *)
Definition mock_read (v : MockVector) (i : Z) : option Complex :=
  if i <? 0 then None
  else match nth_error v (Z.to_nat i) with
       | Some x => x
       | None => None
       end.

(** [x.re], [x.im]: a TypeError on a missing entry. *)
Definition mock_field (x : option Complex) : result Complex :=
  match x with
  | Some c => Ok c
  | None => Err TypeError
  end.

(** [v[i] = x]: inside the array, at its end, or beyond it (the entries in
    between read as [undefined]); a negative [i] names a property and
    leaves the entries alone. *)
Definition mock_store (v : MockVector) (i : Z) (x : option Complex)
  : MockVector :=
  if i <? 0 then v
  else if (Z.to_nat i <? length v)%nat then update v (Z.to_nat i) x
       else v ++ repeat None (Z.to_nat i - length v) ++ [x].

(** One iteration of the loop of [applyMockHadamard]; [newVector] is the
    copy of the state made before the loop. *)
Definition mock_hadamard_iteration (newVector : MockVector) (qubit i : nat)
           (stateVector : MockVector) : result MockVector :=
  let factor := (1 / sqrt 2)%R in
  let bit := JS.and (sar (Z.of_nat i) (Z.of_nat qubit)) 1 in
  let flippedIdx := JS.xor (Z.of_nat i) (shl 1 (Z.of_nat qubit)) in
  if bit =? 0 then
    a <- mock_field (mock_read newVector (Z.of_nat i)) ;;
    b <- mock_field (mock_read newVector flippedIdx) ;;
    let stateVector :=
      mock_store stateVector (Z.of_nat i)
                 (Some (mkComplex (factor * (re a + re b))
                                  (factor * (im a + im b)))) in
    Ok (mock_store stateVector flippedIdx
                   (Some (mkComplex (factor * (re a - re b))
                                    (factor * (im a - im b)))))
  else Ok stateVector.

(** [applyMockHadamard(stateVector, qubit, numQubits)]; the result is the
    array after the call. *)
Definition applyMockHadamard (stateVector : MockVector) (qubit numQubits : nat)
  : result MockVector :=
  let size := 2 ^ Z.of_nat numQubits in
  let newVector := stateVector in
  for_loop (Z.to_nat size) (mock_hadamard_iteration newVector qubit)
           stateVector.

(** [applyMockX(stateVector, qubit, numQubits)]: no property of an entry is
    read, so the call cannot throw. *)
Definition applyMockX (stateVector : MockVector) (qubit numQubits : nat)
  : result MockVector :=
  let size := 2 ^ Z.of_nat numQubits in
  let newVector := stateVector in
  for_loop (Z.to_nat size)
           (fun i stateVector =>
              let flippedIdx := JS.xor (Z.of_nat i) (shl 1 (Z.of_nat qubit)) in
              Ok (mock_store stateVector (Z.of_nat i)
                             (mock_read newVector flippedIdx)))
           stateVector.

(** [gate.qubits[0]] as a shift count: [undefined] counts as 0. *)
Definition first_qubit (g : QGate) : nat := hd 0%nat (q_qubits g).

(** The callback of [circuit.gates.forEach] in [generateMockStateVector]. *)
Definition mock_gate (numQubits : nat) (stateVector : MockVector) (g : QGate)
  : result MockVector :=
  if String.eqb (q_name g) "h" then
    applyMockHadamard stateVector (first_qubit g) numQubits
  else if String.eqb (q_name g) "x" then
    applyMockX stateVector (first_qubit g) numQubits
  else Ok stateVector.

Fixpoint mock_gates (numQubits : nat) (gates : list QGate)
         (stateVector : MockVector) : result MockVector :=
  match gates with
  | [] => Ok stateVector
  | g :: rest =>
      stateVector' <- mock_gate numQubits stateVector g ;;
      mock_gates numQubits rest stateVector'
  end.

(** [generateMockStateVector(circuit)]. *)
Definition generateMockStateVector (circuit : QiskitCircuit)
  : result MockVector :=
  let numQubits := qc_numQubits circuit in
  let size := 2 ^ Z.of_nat numQubits in
  stateVector <- new_array size (Some czero) ;;
  let stateVector := mock_store stateVector 0 (Some cone) in
  mock_gates numQubits (qc_gates circuit) stateVector.

(** ** Entropy *)

(** A number that may be NaN: [Math.sqrt] of a negative number is NaN, NaN
    goes through the arithmetic that follows, and every comparison with
    NaN is false. *)
Inductive JSNumber : Type :=
| Num (x : R)
| NaN.

Definition js_sqrt (x : R) : JSNumber :=
  if Rlt_dec x 0 then NaN else Num (sqrt x).

(** [Math.log2] on a positive number. *)
Definition Rlog2 (x : R) : R := (ln x / ln 2)%R.

(** What [calculateVonNeumannEntropy] returns: a number or the message. *)
Inductive EntropyResult : Type :=
| Entropy (v : JSNumber)
| Message (s : string).

Definition calculateVonNeumannEntropy (densityMatrix : Matrix)
  : result EntropyResult :=
  if (length densityMatrix =? 2)%nat then
    row0 <- get densityMatrix 0 ;;
    d00 <- get row0 0 ;;
    row1 <- get densityMatrix 1 ;;
    d11 <- get row1 1 ;;
    d01 <- get row0 1 ;;
    d10 <- get row1 0 ;;
    let purity :=
      (re d00 * re d11 - re d01 * re d10 - im d01 * im d10)%R in
    match js_sqrt (2 * purity - 1) with
    | NaN => Ok (Entropy NaN)
    | Num root =>
        let lambda := (1 / 2 * (1 + root))%R in
        if Rle_dec lambda 0 then Ok (Entropy (Num 0))
        else if Rle_dec 1 lambda then Ok (Entropy (Num 0))
        else Ok (Entropy
                   (Num (- lambda * Rlog2 lambda
                         - (1 - lambda) * Rlog2 (1 - lambda))%R))
    end
  else Ok (Message "Calculation requires eigenvalue decomposition").

(** [calculateEntanglementEntropy(stateVector, numQubits, qubitsA)]. *)
Definition calculateEntanglementEntropy (stateVector : StateVector)
           (numQubits : nat) (qubitsA : list nat) : result EntropyResult :=
  densityMatrix <- calculateDensityMatrix stateVector ;;
  let qubitsB :=
    filter (fun i => negb (existsb (Nat.eqb i) qubitsA)) (seq 0 numQubits) in
  reducedDensityMatrix <-
    calculatePartialTrace densityMatrix numQubits qubitsB ;;
  calculateVonNeumannEntropy reducedDensityMatrix.

(** ** The per-qubit probabilities of the state view *)




(** ** The conversion to a mock Qiskit circuit *)

(** The search for the target of a control cell: rows
    [targetRow .. targetRow + k) of the column, leaving at the first cell
    tagged target with the gate id [id]. *)
Fixpoint find_target (circuit : Circuit) (col : nat) (id : string)
         (targetRow k : nat) : result (option nat) :=
  match k with
  | O => Ok None
  | S k' =>
      targetCell <- cell_at circuit targetRow col ;;
      match gate targetCell with
      | Some g =>
          if (gate_target g && String.eqb (gate_id g) id)%bool
          then Ok (Some targetRow)
          else find_target circuit col id (S targetRow) k'
      | None => find_target circuit col id (S targetRow) k'
      end
  end.

(** The three loops over the rows of a column in [convertToQiskitCircuit]:
    single-qubit gates, multi-qubit gates, measurements. *)
Definition convert_single (circuit : Circuit) (col row : nat)
           (qiskitCircuit : QiskitCircuit) : result QiskitCircuit :=
  cell <- cell_at circuit row col ;;
  match gate cell with
  | Some g =>
      if (negb (gate_control g) && negb (gate_target g))%bool
      then Ok (addGate qiskitCircuit (gate_id g) row None)
      else Ok qiskitCircuit
  | None => Ok qiskitCircuit
  end.

Definition convert_control (circuit : Circuit) (numQubits col row : nat)
           (qiskitCircuit : QiskitCircuit) : result QiskitCircuit :=
  cell <- cell_at circuit row col ;;
  match gate cell with
  | Some g =>
      if gate_control g then
        found <- find_target circuit col (gate_id g) 0 numQubits ;;
        match found with
        | Some targetRow =>
            Ok (addGate qiskitCircuit (gate_id g) targetRow (Some row))
        | None => Ok qiskitCircuit
        end
      else Ok qiskitCircuit
  | None => Ok qiskitCircuit
  end.

Definition convert_measurement (circuit : Circuit) (col row : nat)
           (qiskitCircuit : QiskitCircuit) : result QiskitCircuit :=
  cell <- cell_at circuit row col ;;
  match gate cell with
  | Some g =>
      if String.eqb (gate_id g) "measure"
      then Ok (addMeasurement qiskitCircuit row row)
      else Ok qiskitCircuit
  | None => Ok qiskitCircuit
  end.

Definition convert_column (circuit : Circuit) (numQubits col : nat)
           (qiskitCircuit : QiskitCircuit) : result QiskitCircuit :=
  qiskitCircuit <-
    for_loop numQubits (convert_single circuit col) qiskitCircuit ;;
  qiskitCircuit <-
    for_loop numQubits (convert_control circuit numQubits col) qiskitCircuit ;;
  for_loop numQubits (convert_measurement circuit col) qiskitCircuit.

(** [convertToQiskitCircuit(circuit, numQubits)] of the mock integration;
    the bound of the column loop is [circuit[0].length], which throws for a
    circuit without rows. *)
Definition convertToQiskitCircuit (circuit : Circuit) (numQubits : nat)
  : result QiskitCircuit :=
  let qiskitCircuit := createQiskitCircuit numQubits in
  row0 <- get circuit 0 ;;
  for_loop (length row0) (convert_column circuit numQubits) qiskitCircuit.

(** ** Vocabulary of the statements *)

Definition conjugate (a : Complex) : Complex := mkComplex (re a) (- im a).

(** |a|^2 *)
Definition abs2 (a : Complex) : R := (re a * re a + im a * im a)%R.

Fixpoint Rsum (l : list R) : R :=
  match l with
  | [] => 0%R
  | x :: t => (x + Rsum t)%R
  end.

(** The sum of |amplitude|^2 over a state vector. *)
Definition norm2 (psi : StateVector) : R := Rsum (map abs2 psi).

(** [psi[i]] and [rho[i][j]] inside the array. *)
Definition amp (psi : StateVector) (i : nat) : Complex := nth i psi czero.
Definition entry (rho : Matrix) (i j : nat) : Complex :=
  nth j (nth i rho []) czero.

(** A [d] x [d] matrix. *)
Definition square (d : nat) (rho : Matrix) : Prop :=
  length rho = d /\ Forall (fun row => length row = d) rho.

(** The trace of a matrix, real and imaginary part. *)
Definition trace (rho : Matrix) : Complex :=
  mkComplex (Rsum (map (fun i => re (entry rho i i)) (seq 0 (length rho))))
            (Rsum (map (fun i => im (entry rho i i)) (seq 0 (length rho)))).

(** Bit [q] of the index [i]. *)
Definition bit (i q : nat) : bool := Z.testbit (Z.of_nat i) (Z.of_nat q).

(** The index [i] with bit [q] flipped. *)
Definition flip (i q : nat) : nat := Z.to_nat (Z.lxor (Z.of_nat i) (2 ^ Z.of_nat q)).

(** The coefficient with which [old[i]] enters [new[i]], and the one with
    which it enters [new[flip i]], by the value of bit [q] of [i]: the two
    branches of the loop of [applySingleQubitGate]. *)
Definition self_coeff (M : Matrix2) (b : bool) : Complex :=
  if b then m11 M else m00 M.
Definition cross_coeff (M : Matrix2) (b : bool) : Complex :=
  if b then m10 M else m01 M.

(** The amplitude accumulated at index [k] by the first [m] iterations. *)
Definition partial_out (M : Matrix2) (old : StateVector) (q m k : nat)
  : Complex :=
  complexAdd
    (if (k <? m)%nat
     then complexMultiply (self_coeff M (bit k q)) (amp old k) else czero)
    (if (flip k q <? m)%nat
     then complexMultiply (cross_coeff M (bit (flip k q) q))
                          (amp old (flip k q))
     else czero).

(** The amplitude [applySingleQubitGate] leaves at index [k]. *)
Definition gate_out (M : Matrix2) (old : StateVector) (q k : nat) : Complex :=
  if bit k q
  then complexAdd (complexMultiply (m01 M) (amp old (flip k q)))
                  (complexMultiply (m11 M) (amp old k))
  else complexAdd (complexMultiply (m00 M) (amp old k))
                  (complexMultiply (m10 M) (amp old (flip k q))).

(** The amplitude the specification asks for at index [k]: row 0 of the
    matrix for the member of the pair with bit [q] = 0, row 1 for the member
    with bit [q] = 1, each on the pre-gate pair. *)
Definition spec_out (M : Matrix2) (old : StateVector) (q k : nat) : Complex :=
  if bit k q
  then complexAdd (complexMultiply (m10 M) (amp old (flip k q)))
                  (complexMultiply (m11 M) (amp old k))
  else complexAdd (complexMultiply (m00 M) (amp old k))
                  (complexMultiply (m01 M) (amp old (flip k q))).

(** The six matrices the evaluator passes to [applySingleQubitGate]. *)
Definition supported (M : Matrix2) : Prop :=
  M = hadamardMatrix \/ M = xMatrix \/ M = yMatrix
  \/ M = zMatrix \/ M = sMatrix \/ M = tMatrix.

(** A sequence of calls [applySingleQubitGate(state, M, q, numQubits)] on
    the same array. *)
Fixpoint apply_gates (numQubits : nat) (gates : list (Matrix2 * nat))
         (state : StateVector) : result StateVector :=
  match gates with
  | [] => Ok state
  | (M, q) :: rest =>
      state' <- applySingleQubitGate state M q numQubits ;;
      apply_gates numQubits rest state'
  end.


(** The circuit invariant: [n] rows of [d] cells. *)
Definition well_formed (n d : nat) (circuit : Circuit) : Prop :=
  length circuit = n /\ Forall (fun row => length row = d) circuit.

(** The gate of the cell at [row], [col], if any. *)
Definition gate_at (circuit : Circuit) (row col : nat) : option Gate :=
  gate (nth col (nth row circuit []) (mkCell None)).

Definition has_gate (circuit : Circuit) (col row : nat) : bool :=
  match gate_at circuit row col with
  | Some _ => true
  | None => false
  end.

(** The cells of a column that hold a gate, by ascending row. *)
Definition column_placements (circuit : Circuit) (n col : nat)
  : list Placement :=
  flat_map (fun row => match gate_at circuit row col with
                       | Some g => [mkPlacement row g]
                       | None => []
                       end)
           (seq 0 n).

Definition column_has_gate (circuit : Circuit) (n col : nat) : bool :=
  existsb (has_gate circuit col) (seq 0 n).

(** The columns below [d] that hold at least one gate, left to right. *)
Definition nonempty_columns (circuit : Circuit) (n d : nat) : list nat :=
  filter (column_has_gate circuit n) (seq 0 d).

(** [next] is the step with index [S k] the evaluator makes of column [col]
    on top of the step [prev]. *)
Definition step_of_column (n : nat) (circuit : Circuit) (col k : nat)
           (prev next : SimulationStep) : Prop :=
  exists r,
    apply_placements n (column_placements circuit n col) (state prev, [])
    = Ok r
    /\ next = mkStep (S k) (fst r)
                     ("Applied " ++ String.concat ", " (snd r)).

(** The description the evaluator pushes for a gate it does not execute. *)
Definition inert_description (p : Placement) : string :=
  if String.eqb (gate_id (p_gate p)) "measure"
  then ("Measurement on qubit " ++ string_of_nat (p_qubit p))%string
  else (gate_name (p_gate p) ++ " gate to qubit "
        ++ string_of_nat (p_qubit p))%string.

(** The invariant of the column loop after the columns below [m]. *)
Definition history_upto (n : nat) (circuit : Circuit) (first : SimulationStep)
           (m : nat) (steps : list SimulationStep) : Prop :=
  let cols := nonempty_columns circuit n m in
  length steps = S (length cols)
  /\ nth_error steps 0 = Some first
  /\ Forall (fun s => length (state s) = (2 ^ n)%nat) steps
  /\ forall k, (k < length cols)%nat ->
       exists prev next,
         nth_error steps k = Some prev
         /\ nth_error steps (S k) = Some next
         /\ step_of_column n circuit (nth k cols 0%nat) k prev next.



(** Which entries the loop nest has written when it is at [(i, j)]. *)
Definition written (i j i' j' : nat) : bool :=
  ((i' <? i)%nat || ((i' =? i)%nat && (j' <? j)%nat))%bool.

(** Whether qubit [q] is traced out. *)
Definition traced (S : list nat) (q : nat) : bool := existsb (Nat.eqb q) S.

(** The number of retained qubits below [m]. *)
Definition kept_below (S : list nat) (m : nat) : nat :=
  length (filter (fun q => negb (traced S q)) (seq 0 m)).

(** The retained bits of [i] below qubit [m], packed from bit 0 upwards. *)
Fixpoint compress (S : list nat) (i : Z) (m : nat) : Z :=
  match m with
  | O => 0
  | Datatypes.S m' =>
      if traced S m' then compress S i m'
      else compress S i m'
           + (if Z.testbit i (Z.of_nat m')
              then 2 ^ Z.of_nat (kept_below S m') else 0)
  end.

(** The reduced index of the full index [i], as a natural number. *)
Definition reduced (n : nat) (S : list nat) (i : nat) : nat :=
  Z.to_nat (mapToReducedIndex n S (Z.of_nat i)).

(** A subset of the qubits of an [n]-qubit register, as an array. *)
Definition qubit_subset (n : nat) (S : list nat) : Prop :=
  NoDup S /\ forall q, In q S -> (q < n)%nat.

(** The sum of a list of complex numbers, by components. *)
Definition Csum (l : list Complex) : Complex :=
  mkComplex (Rsum (map re l)) (Rsum (map im l)).

(** What the pair [p = (i, j)] of full indices adds to the entry [(a, b)]
    of the reduced matrix. *)
Definition contribution (rho : Matrix) (n : nat) (S : list nat) (a b : nat)
           (p : nat * nat) : Complex :=
  if (shouldInclude S (Z.of_nat (fst p)) (Z.of_nat (snd p))
      && (reduced n S (fst p) =? a)%nat
      && (reduced n S (snd p) =? b)%nat)%bool
  then entry rho (fst p) (snd p)
  else czero.

(** The pairs the loop nest over [d] x [d] has visited when it is at
    [(i, j)]. *)
Definition pairs_before (d i j : nat) : list (nat * nat) :=
  flat_map (fun i' => map (pair i') (seq 0 d)) (seq 0 i)
  ++ map (pair i) (seq 0 j).


(** The gates of a mock circuit the mock simulator acts on, as calls of
    the engine: H and X on the first qubit of the gate; every other gate is
    passed over. *)
Definition engine_gates (gates : list QGate) : list (Matrix2 * nat) :=
  flat_map (fun g =>
              if String.eqb (q_name g) "h" then [(hadamardMatrix, first_qubit g)]
              else if String.eqb (q_name g) "x" then [(xMatrix, first_qubit g)]
              else [])
           gates.

(** The gates of a column the evaluator executes, as calls of the engine,
    for a circuit without Y, Z, S and T: H and X on their row. *)
Definition placement_gates (ps : list Placement) : list (Matrix2 * nat) :=
  flat_map (fun p =>
              if String.eqb (gate_id (p_gate p)) "h"
              then [(hadamardMatrix, p_qubit p)]
              else if String.eqb (gate_id (p_gate p)) "x"
                   then [(xMatrix, p_qubit p)]
                   else [])
           ps.

(** The circuits on which the mock simulator and the evaluator agree: no
    Y, Z, S or T gate, and no control or target tag on an H or X gate. *)
Definition mock_compatible (circuit : Circuit) : Prop :=
  forall row col g,
    gate_at circuit row col = Some g ->
    ~ In (gate_id g) ["y"; "z"; "s"; "t"]%string
    /\ (In (gate_id g) ["h"; "x"]%string ->
        gate_control g = false /\ gate_target g = false).

(** The engine calls of the columns below [m], column by column. *)
Definition circuit_gates (circuit : Circuit) (n m : nat)
  : list (Matrix2 * nat) :=
  flat_map (fun col => placement_gates (column_placements circuit n col))
           (seq 0 m).

(** A gate of a mock circuit that the mock simulator acts on names a qubit
    of the register. *)
Definition mock_valid (n : nat) (gates : list QGate) : Prop :=
  Forall (fun g => (String.eqb (q_name g) "h" || String.eqb (q_name g) "x")%bool
                   = true -> (first_qubit g < n)%nat) gates.

(** What the conversion keeps while it appends gates: the qubit count, the
    engine calls [calls] of the gates so far, and their validity. *)
Definition converted (n : nat) (calls : list (Matrix2 * nat))
           (qc : QiskitCircuit) : Prop :=
  qc_numQubits qc = n
  /\ engine_gates (qc_gates qc) = calls
  /\ mock_valid n (qc_gates qc).

(** The cell holds a gate tagged target with the id [id]. *)
Definition is_target (circuit : Circuit) (id : string) (col row : nat)
  : Prop :=
  exists g, gate_at circuit row col = Some g
            /\ gate_target g = true /\ gate_id g = id.

(** The measurements of a column, top row first; a measured qubit is
    stored in the classical bit of its own number. *)
Definition column_measurements (circuit : Circuit) (n col : nat)
  : list QMeasurement :=
  flat_map (fun row =>
              match gate_at circuit row col with
              | Some g => if String.eqb (gate_id g) "measure"
                          then [mkQMeasurement row row] else []
              | None => []
              end)
           (seq 0 n).


(** * Properties *)

(** ** Loops and arrays *)

Section Loops.
Context {A : Type}.
Implicit Types (body : nat -> A -> result A) (acc : A).

Lemma for_from_split body k m : forall start acc,
  for_from start (k + m) body acc
  = JS.bind (for_from start k body acc) (for_from (start + k) m body).
Proof.
  induction k as [|k IH]; intros start acc; simpl.
  - now rewrite Nat.add_0_r.
  - destruct (body start acc) as [a|e]; simpl; [|reflexivity].
    rewrite IH. now rewrite Nat.add_succ_r.
Qed.

(** The loop rule: an invariant kept by every iteration holds at the end,
    and the loop does not throw. *)
Lemma for_from_inv (P : nat -> A -> Prop) body n : forall start acc,
  P start acc ->
  (forall i a, (start <= i < start + n)%nat -> P i a ->
               exists a', body i a = Ok a' /\ P (S i) a') ->
  exists a', for_from start n body acc = Ok a' /\ P (start + n)%nat a'.
Proof.
  induction n as [|n IH]; intros start acc H0 Hstep; simpl.
  - exists acc. now rewrite Nat.add_0_r.
  - destruct (Hstep start acc) as (a' & Hb & Ha'); [lia|assumption|].
    rewrite Hb; simpl.
    destruct (IH (S start) a') as (a'' & Hl & Ha''); [assumption| |].
    + intros i a Hi. apply Hstep. lia.
    + exists a''. split; [assumption|]. now rewrite Nat.add_succ_r.
Qed.

Lemma for_loop_inv (P : nat -> A -> Prop) body n acc :
  P 0%nat acc ->
  (forall i a, (i < n)%nat -> P i a ->
               exists a', body i a = Ok a' /\ P (S i) a') ->
  exists a', for_loop n body acc = Ok a' /\ P n a'.
Proof.
  intros H0 Hstep.
  destruct (for_from_inv P body n 0%nat acc H0) as (a' & Hl & Ha').
  - intros i a Hi. apply Hstep. lia.
  - exists a'. split; assumption.
Qed.

(** The same rule when the invariant decides the final value. *)
Lemma for_loop_eq (P : nat -> A -> Prop) body n acc v :
  P 0%nat acc ->
  (forall i a, (i < n)%nat -> P i a ->
               exists a', body i a = Ok a' /\ P (S i) a') ->
  (forall a, P n a -> a = v) ->
  for_loop n body acc = Ok v.
Proof.
  intros H0 Hstep Hend.
  destruct (for_loop_inv P body n acc H0 Hstep) as (a' & Hl & Ha').
  rewrite Hl. f_equal. now apply Hend.
Qed.

(** An iteration that throws after [k] good ones makes the loop throw. *)
Lemma for_loop_throws (P : nat -> A -> Prop) body n k e acc :
  (k < n)%nat ->
  P 0%nat acc ->
  (forall i a, (i < k)%nat -> P i a ->
               exists a', body i a = Ok a' /\ P (S i) a') ->
  (forall a, P k a -> body k a = Err e) ->
  for_loop n body acc = Err e.
Proof.
  intros Hk H0 Hstep Hthrow. unfold for_loop.
  replace n with (k + S (n - S k))%nat by lia.
  rewrite for_from_split.
  destruct (for_loop_inv P body k acc H0 Hstep) as (a' & Hl & Ha').
  unfold for_loop in Hl. rewrite Hl. simpl.
  now rewrite (Hthrow a' Ha').
Qed.

(** The rule for a loop nest, on an invariant of the position [(i, j)]. *)
Lemma for_loop2_inv (Inv : nat -> nat -> A -> Prop)
      (body2 : nat -> nat -> A -> result A) (N M : nat) acc :
  Inv 0%nat 0%nat acc ->
  (forall i j a, (i < N)%nat -> (j < M)%nat -> Inv i j a ->
                 exists a', body2 i j a = Ok a' /\ Inv i (S j) a') ->
  (forall i a, (i < N)%nat -> Inv i M a -> Inv (S i) 0%nat a) ->
  exists a',
    for_loop N (fun i a => for_loop M (body2 i) a) acc = Ok a'
    /\ Inv N 0%nat a'.
Proof.
  intros H0 Hstep Hrow.
  apply (for_loop_inv (fun i a => Inv i 0%nat a)); [assumption|].
  intros i a Hi Ha.
  destruct (for_loop_inv (fun j a => Inv i j a) (body2 i) M a Ha)
    as (a' & Hl & Ha').
  - intros j a0 Hj Ha0. now apply Hstep.
  - exists a'. split; [assumption|]. now apply Hrow.
Qed.

Lemma for_from_ext body body' n : forall start acc,
  (forall i a, (start <= i < start + n)%nat -> body i a = body' i a) ->
  for_from start n body acc = for_from start n body' acc.
Proof.
  induction n as [|n IH]; intros start acc Hext; simpl; [reflexivity|].
  rewrite <- Hext by lia.
  destruct (body start acc) as [a|e]; simpl; [|reflexivity].
  apply IH. intros i a' Hi. apply Hext. lia.
Qed.
End Loops.

Section Arrays.
Context {A : Type}.
Implicit Types (a : list A) (v : A).

Lemma length_update a : forall i v, length (update a i v) = length a.
Proof.
  induction a as [|h t IH]; intros [|i] v; simpl; auto.
Qed.

Lemma nth_error_update_eq a : forall i v,
  (i < length a)%nat -> nth_error (update a i v) i = Some v.
Proof.
  induction a as [|h t IH]; intros [|i] v Hi; simpl in *; try lia; auto.
  apply IH. lia.
Qed.

Lemma nth_error_update_neq a : forall i j v,
  i <> j -> nth_error (update a i v) j = nth_error a j.
Proof.
  induction a as [|h t IH]; intros [|i] [|j] v Hij; simpl; auto;
    congruence.
Qed.

Lemma nth_error_update a i j v :
  nth_error (update a i v) j
  = if Nat.eqb i j && Nat.ltb i (length a) then Some v else nth_error a j.
Proof.
  destruct (Nat.eqb_spec i j) as [->|Hne]; simpl.
  - destruct (Nat.ltb_spec j (length a)) as [Hlt|Hge].
    + now apply nth_error_update_eq.
    + assert (H : nth_error a j = None) by (apply nth_error_None; lia).
      rewrite H. apply nth_error_None. rewrite length_update. lia.
  - now apply nth_error_update_neq.
Qed.

Lemma length_set a i v : length (set a i v) = length a.
Proof.
  unfold set. destruct (i <? 0); [reflexivity|apply length_update].
Qed.

Lemma set_of_nat a (i : nat) v : set a (Z.of_nat i) v = update a i v.
Proof.
  unfold set. destruct (Z.ltb_spec (Z.of_nat i) 0); [lia|].
  now rewrite Nat2Z.id.
Qed.

Lemma get_of_nat a (i : nat) :
  get a (Z.of_nat i)
  = match nth_error a i with Some x => Ok x | None => Err TypeError end.
Proof.
  unfold get. destruct (Z.ltb_spec (Z.of_nat i) 0); [lia|].
  now rewrite Nat2Z.id.
Qed.

Lemma get_inside a (i : nat) :
  (i < length a)%nat -> exists x, nth_error a i = Some x /\ get a (Z.of_nat i) = Ok x.
Proof.
  intros Hi. rewrite get_of_nat.
  destruct (nth_error a i) as [x|] eqn:E.
  - now exists x.
  - apply nth_error_None in E. lia.
Qed.

Lemma get_outside a (i : nat) :
  (length a <= i)%nat -> get a (Z.of_nat i) = Err TypeError.
Proof.
  intros Hi. rewrite get_of_nat.
  apply nth_error_None in Hi. now rewrite Hi.
Qed.

Lemma nth_update a i k v d :
  (i < length a)%nat ->
  nth k (update a i v) d = if (k =? i)%nat then v else nth k a d.
Proof.
  intros Hi. destruct (Nat.eqb_spec k i) as [->|Hne].
  - apply nth_error_nth. now apply nth_error_update_eq.
  - destruct (nth_error a k) as [x|] eqn:E.
    + rewrite (nth_error_nth a k d E).
      apply nth_error_nth. rewrite nth_error_update_neq by congruence.
      assumption.
    + apply nth_error_None in E.
      rewrite !nth_overflow; [reflexivity|lia|rewrite length_update; lia].
Qed.

Lemma get_nth a (i : nat) d :
  (i < length a)%nat -> get a (Z.of_nat i) = Ok (nth i a d).
Proof.
  intros Hi. destruct (get_inside a i Hi) as (x & Hx & ->).
  now rewrite (nth_error_nth a i d Hx).
Qed.

End Arrays.

(** ** 32-bit operators on small non-negative operands *)

Lemma to_int32_small z : - 2 ^ 31 <= z < 2 ^ 31 -> to_int32 z = z.
Proof.
  intros Hz. unfold to_int32.
  rewrite Z.mod_small; lia.
Qed.

Lemma pow2_le_mono a b : 0 <= a <= b -> 2 ^ a <= 2 ^ b.
Proof. intros H. apply Z.pow_le_mono_r; lia. Qed.

Lemma shl_one q : 0 <= q <= 30 -> shl 1 q = 2 ^ q.
Proof.
  intros Hq. unfold shl.
  rewrite (to_int32_small 1) by lia.
  rewrite Z.mod_small by lia.
  rewrite Z.shiftl_1_l.
  apply to_int32_small.
  assert (2 ^ q <= 2 ^ 30) by (apply pow2_le_mono; lia).
  assert (0 < 2 ^ q) by (apply Z.pow_pos_nonneg; lia).
  lia.
Qed.

Lemma lor_bound a b k :
  0 <= k -> 0 <= a < 2 ^ k -> 0 <= b < 2 ^ k -> 0 <= Z.lor a b < 2 ^ k.
Proof.
  intros Hk Ha Hb. split.
  - apply Z.lor_nonneg. lia.
  - destruct (Z.eq_dec (Z.lor a b) 0) as [E|E]; [rewrite E; lia|].
    assert (0 < k).
    { destruct (Z.eq_dec k 0) as [->|]; [|lia].
      exfalso. apply E. replace a with 0 by lia. replace b with 0 by lia.
      reflexivity. }
    apply Z.log2_lt_pow2; [assert (0 <= Z.lor a b) by (apply Z.lor_nonneg; lia); lia|].
    rewrite Z.log2_lor by lia.
    apply Z.max_lub_lt.
    + destruct (Z.eq_dec a 0) as [->|]; [simpl; lia|apply Z.log2_lt_pow2; lia].
    + destruct (Z.eq_dec b 0) as [->|]; [simpl; lia|apply Z.log2_lt_pow2; lia].
Qed.

Lemma lxor_bound a b k :
  0 <= k -> 0 <= a < 2 ^ k -> 0 <= b < 2 ^ k -> 0 <= Z.lxor a b < 2 ^ k.
Proof.
  intros Hk Ha Hb.
  assert (Hnn : 0 <= Z.lxor a b) by (apply Z.lxor_nonneg; lia).
  split; [assumption|].
  destruct (Z.eq_dec (Z.lxor a b) 0) as [E|E]; [rewrite E; lia|].
  assert (0 < k).
  { destruct (Z.eq_dec k 0) as [->|]; [|lia].
    exfalso. apply E. replace a with 0 by lia. replace b with 0 by lia.
    reflexivity. }
  apply Z.log2_lt_pow2; [lia|].
  eapply Z.le_lt_trans; [apply Z.log2_lxor; lia|].
  apply Z.max_lub_lt.
  - destruct (Z.eq_dec a 0) as [->|]; [simpl; lia|apply Z.log2_lt_pow2; lia].
  - destruct (Z.eq_dec b 0) as [->|]; [simpl; lia|apply Z.log2_lt_pow2; lia].
Qed.

(** ** [createInitialState] *)

Lemma basis_iteration_bound (inits : list QubitInit) (i : nat) (idx : Z) :
  (i < 31)%nat -> (i < length inits)%nat ->
  0 <= idx < 2 ^ Z.of_nat i ->
  exists idx', basis_iteration inits i idx = Ok idx'
               /\ 0 <= idx' < 2 ^ Z.of_nat (S i).
Proof.
  intros Hi Hlen Hidx. unfold basis_iteration.
  destruct (get_inside inits i) as (q & _ & Hq); [lia|].
  rewrite Hq. cbn [JS.bind]. eexists. split; [reflexivity|].
  assert (Hpow : 2 ^ Z.of_nat i <= 2 ^ 30) by (apply pow2_le_mono; lia).
  assert (Hsucc : 2 ^ Z.of_nat (S i) = 2 * 2 ^ Z.of_nat i).
  { rewrite Nat2Z.inj_succ. rewrite Z.pow_succ_r; lia. }
  destruct (String.eqb (value q) "1"); [|lia].
  unfold JS.or. rewrite shl_one by lia.
  rewrite !to_int32_small by lia.
  apply lor_bound; lia.
Qed.

(** The basis index built by the loop of [createInitialState] is inside the
    state vector. *)
Lemma createInitialState_index_bound (n : nat) (inits : list QubitInit) :
  (n <= 31)%nat -> (n <= length inits)%nat ->
  exists idx,
    for_loop n (basis_iteration inits) 0 = Ok idx
    /\ 0 <= idx < 2 ^ Z.of_nat n.
Proof.
  intros Hn Hlen.
  apply (for_loop_inv (fun i idx => 0 <= idx < 2 ^ Z.of_nat i)).
  - simpl. lia.
  - intros i idx Hi Hidx. apply basis_iteration_bound; [lia|lia|assumption].
Qed.

Lemma new_array_ok {A : Type} (n : nat) (v : A) :
  (n <= 31)%nat ->
  new_array (2 ^ Z.of_nat n) v = Ok (repeat v (Z.to_nat (2 ^ Z.of_nat n))).
Proof.
  intros Hn. unfold new_array.
  assert (2 ^ Z.of_nat n <= 2 ^ 31) by (apply pow2_le_mono; lia).
  assert (0 < 2 ^ Z.of_nat n) by (apply Z.pow_pos_nonneg; lia).
  destruct (Z.leb_spec 0 (2 ^ Z.of_nat n)); [|lia].
  destruct (Z.leb_spec (2 ^ Z.of_nat n) (2 ^ 32 - 1)); [reflexivity|lia].
Qed.

(** With enough entries the call returns the basis state of some index. *)
Lemma createInitialState_ok (n : nat) (inits : list QubitInit) :
  (n <= 31)%nat -> (n <= length inits)%nat ->
  exists idx : nat,
    (idx < Z.to_nat (2 ^ Z.of_nat n))%nat /\
    createInitialState n inits
    = Ok (update (repeat czero (Z.to_nat (2 ^ Z.of_nat n))) idx cone).
Proof.
  intros Hn Hlen. unfold createInitialState.
  rewrite new_array_ok by assumption. cbn [JS.bind].
  destruct (createInitialState_index_bound n inits Hn Hlen) as (idx & -> & Hidx).
  cbn [JS.bind]. exists (Z.to_nat idx). split; [lia|].
  rewrite <- (Z2Nat.id idx) at 1 by lia.
  now rewrite set_of_nat.
Qed.

(** The first [n] entries decide the result. *)
Lemma createInitialState_firstn (n : nat) (inits : list QubitInit) :
  createInitialState n (firstn n inits) = createInitialState n inits.
Proof.
  unfold createInitialState.
  destruct (new_array (2 ^ Z.of_nat n) czero) as [st|e]; cbn [JS.bind];
    [|reflexivity].
  unfold for_loop.
  rewrite (for_from_ext _ (basis_iteration inits)); [reflexivity|].
  intros i a Hi. unfold basis_iteration. rewrite !get_of_nat.
  rewrite nth_error_firstn.
  destruct (Nat.ltb_spec i n) as [_|]; [reflexivity|lia].
Qed.

(** C3, as the code has it: [createInitialState] has no length check.  Too
    few entries make it throw a TypeError (the read of [.value] on a missing
    entry); too many are ignored, and the state vector of the first
    [numQubits] entries is returned. *)
Theorem createInitialState_length_mismatch (n : nat) (inits : list QubitInit) :
  (n <= 31)%nat -> length inits <> n ->
  ((length inits < n)%nat /\ createInitialState n inits = Err TypeError)
  \/ ((n < length inits)%nat /\
      exists st, createInitialState n inits = Ok st
                 /\ Z.of_nat (length st) = 2 ^ Z.of_nat n
                 /\ createInitialState n (firstn n inits) = Ok st).
Proof.
  intros Hn Hneq.
  destruct (Nat.lt_ge_cases (length inits) n) as [Hshort|Hlong]; [left|right].
  - split; [assumption|]. unfold createInitialState.
    rewrite new_array_ok by assumption. cbn [JS.bind].
    rewrite (for_loop_throws
               (fun i idx => 0 <= idx < 2 ^ Z.of_nat i) _ n (length inits)
               TypeError); [reflexivity|assumption|simpl; lia| |].
    + intros i idx Hi Hidx. apply basis_iteration_bound; [lia|lia|assumption].
    + intros idx _. unfold basis_iteration. now rewrite get_outside.
  - split; [lia|].
    destruct (createInitialState_ok n inits) as (idx & Hidx & Hst); [lia|lia|].
    eexists. split; [exact Hst|]. split.
    + rewrite length_update, repeat_length. rewrite Z2Nat.id; [reflexivity|].
      apply Z.pow_nonneg. lia.
    + now rewrite createInitialState_firstn.
Qed.

Lemma createInitialState_length_mismatch_witness :
  createInitialState 2 [mkQubitInit "1" 0] = Err TypeError
  /\ exists st,
       createInitialState 1 [mkQubitInit "1" 0; mkQubitInit "1" 0] = Ok st
       /\ Z.of_nat (length st) = 2 ^ Z.of_nat 1.
Proof.
  split.
  - destruct (createInitialState_length_mismatch 2 [mkQubitInit "1" 0])
      as [[_ H]|[H _]]; [lia|simpl; lia|exact H|simpl in H; lia].
  - destruct (createInitialState_length_mismatch
                1 [mkQubitInit "1" 0; mkQubitInit "1" 0])
      as [[H _]|[_ (st & H1 & H2 & _)]]; [lia|simpl; lia|simpl in H; lia|].
    exists st. split; assumption.
Defined.

(** C3, as the spec states it, fails: with two entries for one qubit the
    call returns a state vector. *)
Lemma createInitialState_no_ConfigurationError :
  length [mkQubitInit "0" 0; mkQubitInit "0" 0] <> 1%nat
  /\ createInitialState 1 [mkQubitInit "0" 0; mkQubitInit "0" 0]
     = Ok [cone; czero].
Proof.
  split; [simpl; lia|reflexivity].
Qed.

(** ** Bits of a basis index *)

Lemma dim_nat (n : nat) : Z.to_nat (2 ^ Z.of_nat n) = (2 ^ n)%nat.
Proof.
  rewrite <- (Nat2Z.id (2 ^ n)). f_equal.
  now rewrite Nat2Z.inj_pow.
Qed.

Lemma index_bound (n i : nat) :
  (n <= 31)%nat -> (i < 2 ^ n)%nat -> 0 <= Z.of_nat i < 2 ^ Z.of_nat n
                                      /\ 2 ^ Z.of_nat n <= 2 ^ 31.
Proof.
  intros Hn Hi. split.
  - split; [lia|]. change 2 with (Z.of_nat 2). rewrite <- Nat2Z.inj_pow. lia.
  - apply pow2_le_mono. lia.
Qed.

Lemma land_one (x : Z) : Z.land x 1 = Z.b2z (Z.testbit x 0).
Proof.
  change 1 with (Z.ones 1). rewrite Z.land_ones by lia.
  now rewrite Z.bit0_mod.
Qed.

(** [(i >> q) & 1] is bit [q] of [i]. *)
Lemma qubitValue_bit (n i q : nat) :
  (n <= 31)%nat -> (i < 2 ^ n)%nat -> (q < n)%nat ->
  JS.and (sar (Z.of_nat i) (Z.of_nat q)) 1 = Z.b2z (bit i q).
Proof.
  intros Hn Hi Hq. destruct (index_bound n i Hn Hi) as [Hi' Hpow].
  unfold JS.and, sar, bit.
  rewrite (to_int32_small (Z.of_nat i)) by lia.
  rewrite Z.mod_small by lia.
  assert (Hs : 0 <= Z.shiftr (Z.of_nat i) (Z.of_nat q) <= Z.of_nat i).
  { rewrite Z.shiftr_div_pow2 by lia. split.
    - apply Z.div_pos; [lia|]. apply Z.pow_pos_nonneg; lia.
    - apply Z.div_le_upper_bound; [apply Z.pow_pos_nonneg; lia|].
      assert (0 < 2 ^ Z.of_nat q) by (apply Z.pow_pos_nonneg; lia). nia. }
  rewrite !to_int32_small by lia.
  rewrite land_one. rewrite Z.shiftr_spec by lia. reflexivity.
Qed.

(** [i ^ (1 << q)] is [i] with bit [q] flipped. *)
Lemma flippedIndex_flip (n i q : nat) :
  (n <= 31)%nat -> (i < 2 ^ n)%nat -> (q < n)%nat ->
  JS.xor (Z.of_nat i) (shl 1 (Z.of_nat q)) = Z.of_nat (flip i q)
  /\ (flip i q < 2 ^ n)%nat.
Proof.
  intros Hn Hi Hq. destruct (index_bound n i Hn Hi) as [Hi' Hpow].
  assert (Hq' : 0 < 2 ^ Z.of_nat q < 2 ^ Z.of_nat n).
  { split; [apply Z.pow_pos_nonneg; lia|apply Z.pow_lt_mono_r; lia]. }
  assert (Hx : 0 <= Z.lxor (Z.of_nat i) (2 ^ Z.of_nat q) < 2 ^ Z.of_nat n).
  { apply lxor_bound; lia. }
  unfold JS.xor, flip. rewrite shl_one by lia.
  rewrite !to_int32_small by lia.
  split; [now rewrite Z2Nat.id by lia|].
  rewrite <- dim_nat. lia.
Qed.

Lemma bit_flip (i q r : nat) :
  bit (flip i q) r = xorb (bit i r) (Nat.eqb q r).
Proof.
  unfold bit, flip.
  rewrite Z2Nat.id by (apply Z.lxor_nonneg; split; intros _;
                       [apply Z.pow_nonneg|]; lia).
  rewrite Z.lxor_spec. rewrite Z.pow2_bits_eqb by lia.
  f_equal. destruct (Nat.eqb_spec q r) as [->|Hne].
  - apply Z.eqb_refl.
  - apply Z.eqb_neq. lia.
Qed.

Lemma flip_flip (i q : nat) : flip (flip i q) q = i.
Proof.
  unfold flip.
  rewrite Z2Nat.id by (apply Z.lxor_nonneg; split; intros _;
                       [apply Z.pow_nonneg|]; lia).
  rewrite Z.lxor_assoc, Z.lxor_nilpotent, Z.lxor_0_r.
  apply Nat2Z.id.
Qed.

Lemma flip_neq (i q : nat) : flip i q <> i.
Proof.
  intros E. pose proof (bit_flip i q q) as H.
  rewrite E, Nat.eqb_refl in H. destruct (bit i q); discriminate.
Qed.


(** ** [applySingleQubitGate] *)

Lemma complex_eq (a b : Complex) : re a = re b -> im a = im b -> a = b.
Proof. destruct a, b; simpl; intros -> ->; reflexivity. Qed.

Ltac complex_ring :=
  apply complex_eq; unfold complexAdd, complexMultiply, czero, cone;
  cbn [re im]; ring.

Lemma amp_update (l : StateVector) (i k : nat) (v : Complex) :
  (i < length l)%nat ->
  amp (update l i v) k = if (k =? i)%nat then v else amp l k.
Proof. apply nth_update. Qed.

Lemma get_amp (l : StateVector) (i : nat) :
  (i < length l)%nat -> get l (Z.of_nat i) = Ok (amp l i).
Proof. apply get_nth. Qed.

(** One iteration adds the two contributions of [old[i]]. *)
Lemma gate_iteration_ok (M : Matrix2) (old ns : StateVector) (n q i : nat) :
  (n <= 31)%nat -> (q < n)%nat -> (i < 2 ^ n)%nat ->
  length old = (2 ^ n)%nat -> length ns = (2 ^ n)%nat ->
  exists ns',
    gate_iteration old M q i ns = Ok ns'
    /\ length ns' = (2 ^ n)%nat
    /\ forall k,
        amp ns' k
        = complexAdd (amp ns k)
            (complexAdd
               (if (k =? i)%nat
                then complexMultiply (self_coeff M (bit i q)) (amp old i)
                else czero)
               (if (k =? flip i q)%nat
                then complexMultiply (cross_coeff M (bit i q)) (amp old i)
                else czero)).
Proof.
  intros Hn Hq Hi Hold Hns. unfold gate_iteration. cbv zeta.
  rewrite (qubitValue_bit n i q Hn Hi Hq).
  destruct (flippedIndex_flip n i q Hn Hi Hq) as [-> Hf].
  pose proof (flip_neq i q) as Hne.
  destruct (bit i q); cbn [Z.b2z Z.eqb self_coeff cross_coeff].
  - rewrite (get_amp ns (flip i q)) by lia. cbn [JS.bind].
    rewrite (get_amp old i) by lia. cbn [JS.bind].
    rewrite !set_of_nat.
    rewrite (get_amp _ i) by (rewrite length_update; lia). cbn [JS.bind].
    rewrite ?set_of_nat.
    eexists. split; [reflexivity|]. split.
    + rewrite !length_update. assumption.
    + intros k. rewrite !amp_update by (rewrite ?length_update; lia).
      destruct (Nat.eqb_spec i (flip i q)); [congruence|].
      destruct (Nat.eqb_spec k i); destruct (Nat.eqb_spec k (flip i q));
        subst; try congruence; complex_ring.
  - rewrite (get_amp ns i) by lia. cbn [JS.bind].
    rewrite (get_amp old i) by lia. cbn [JS.bind].
    rewrite !set_of_nat.
    rewrite (get_amp _ (flip i q)) by (rewrite length_update; lia).
    cbn [JS.bind].
    rewrite ?set_of_nat.
    eexists. split; [reflexivity|]. split.
    + rewrite !length_update. assumption.
    + intros k. rewrite !amp_update by (rewrite ?length_update; lia).
      destruct (Nat.eqb_spec (flip i q) i); [congruence|].
      destruct (Nat.eqb_spec k i); destruct (Nat.eqb_spec k (flip i q));
        subst; try congruence; complex_ring.
Qed.

Lemma ltb_succ (a m : nat) : (a <? S m)%nat = ((a <? m)%nat || (a =? m)%nat).
Proof.
  destruct (Nat.ltb_spec a (S m)), (Nat.ltb_spec a m), (Nat.eqb_spec a m);
    simpl; try reflexivity; lia.
Qed.

Lemma flip_eqb (k m q : nat) : (flip k q =? m)%nat = (k =? flip m q)%nat.
Proof.
  destruct (Nat.eqb_spec (flip k q) m) as [H1|H1],
           (Nat.eqb_spec k (flip m q)) as [H2|H2]; try reflexivity; exfalso.
  - apply H2. rewrite <- H1. now rewrite flip_flip.
  - apply H1. rewrite H2. apply flip_flip.
Qed.

Lemma amp_repeat_czero (n k : nat) : amp (repeat czero n) k = czero.
Proof.
  unfold amp. destruct (Nat.lt_ge_cases k n).
  - now apply nth_repeat_lt.
  - apply nth_overflow. now rewrite repeat_length.
Qed.

(** The main loop: [newState] holds, at every index, the two contributions
    it receives. *)
Lemma gate_loop (M : Matrix2) (old : StateVector) (n q : nat) :
  (n <= 31)%nat -> (q < n)%nat -> length old = (2 ^ n)%nat ->
  exists ns,
    for_loop (2 ^ n) (gate_iteration old M q) (repeat czero (2 ^ n)) = Ok ns
    /\ length ns = (2 ^ n)%nat
    /\ forall k, amp ns k = partial_out M old q (2 ^ n) k.
Proof.
  intros Hn Hq Hold.
  destruct (for_loop_inv
              (fun m ns => length ns = (2 ^ n)%nat
                           /\ forall k, amp ns k = partial_out M old q m k)
              (gate_iteration old M q) (2 ^ n)
              (repeat czero (2 ^ n))) as (ns & Hl & Hlen & Hamp).
  - split; [apply repeat_length|].
    intros k. rewrite amp_repeat_czero. unfold partial_out.
    cbn [Nat.ltb Nat.leb]. complex_ring.
  - intros m ns Hm [Hlen Hinv].
    destruct (gate_iteration_ok M old ns n q m Hn Hq Hm Hold Hlen)
      as (ns' & Hit & Hlen' & Hamp).
    exists ns'. split; [assumption|]. split; [assumption|].
    intros k. rewrite Hamp, Hinv. unfold partial_out.
    rewrite !ltb_succ, flip_eqb.
    pose proof (flip_neq m q) as Hne.
    destruct (Nat.eqb_spec k m) as [E1|E1];
      destruct (Nat.eqb_spec k (flip m q)) as [E2|E2]; subst;
      rewrite ?flip_flip, ?Nat.ltb_irrefl; try congruence;
      repeat match goal with
             | |- context [(?a <? ?b)%nat] => destruct (a <? b)%nat
             end;
      cbn [orb]; complex_ring.
  - exists ns. auto.
Qed.

(** At the end of the loop both contributions are in. *)
Lemma partial_out_full (M : Matrix2) (old : StateVector) (n q k : nat) :
  (n <= 31)%nat -> (q < n)%nat -> (k < 2 ^ n)%nat ->
  partial_out M old q (2 ^ n) k = gate_out M old q k.
Proof.
  intros Hn Hq Hk. unfold partial_out, gate_out.
  destruct (flippedIndex_flip n k q Hn Hk Hq) as [_ Hf].
  destruct (Nat.ltb_spec k (2 ^ n)); [|lia].
  destruct (Nat.ltb_spec (flip k q) (2 ^ n)); [|lia].
  rewrite bit_flip, Nat.eqb_refl.
  destruct (bit k q); cbn [xorb negb self_coeff cross_coeff]; complex_ring.
Qed.

(** The copy-back loop: [state[i] = newState[i]] for every [i]. *)
Lemma copy_back (st ns : StateVector) (size : nat) :
  length st = size -> length ns = size ->
  for_loop size
           (fun i st => v <- get ns (Z.of_nat i) ;; Ok (set st (Z.of_nat i) v))
           st = Ok ns.
Proof.
  intros Hst Hns.
  destruct (for_loop_inv
              (fun m st' =>
                 length st' = size
                 /\ forall k, nth_error st' k
                              = if (k <? m)%nat then nth_error ns k
                                else nth_error st k)
              (fun i st => v <- get ns (Z.of_nat i) ;;
                           Ok (set st (Z.of_nat i) v))
              size st) as (st' & Hl & Hlen & Hnth).
  - split; [assumption|]. intros k. reflexivity.
  - intros m a Hm [Hlen Hinv].
    destruct (get_inside ns m) as (v & Hv & Hg); [lia|].
    rewrite Hg. cbn [JS.bind]. eexists. split; [reflexivity|].
    rewrite set_of_nat. split; [now rewrite length_update|].
    intros k. rewrite nth_error_update, ltb_succ, Hinv, Hlen.
    destruct (Nat.ltb_spec m size); [|lia].
    rewrite Nat.eqb_sym, andb_true_r.
    destruct (Nat.eqb_spec k m) as [->|]; [|now rewrite orb_false_r].
    now rewrite orb_true_r.
  - rewrite Hl. assert (E : st' = ns); [|now rewrite E].
    apply nth_error_ext. intros k. rewrite Hnth.
    destruct (Nat.ltb_spec k size) as [|Hge]; [reflexivity|].
    assert (H1 : nth_error ns k = None) by (apply nth_error_None; lia).
    assert (H2 : nth_error st k = None) by (apply nth_error_None; lia).
    congruence.
Qed.

(** What [applySingleQubitGate] computes: it does not throw, keeps the
    length, and leaves [gate_out] at every index. *)
Lemma applySingleQubitGate_spec (M : Matrix2) (old : StateVector) (n q : nat) :
  (n <= 31)%nat -> (q < n)%nat -> length old = (2 ^ n)%nat ->
  exists new,
    applySingleQubitGate old M q n = Ok new
    /\ length new = (2 ^ n)%nat
    /\ forall k, (k < 2 ^ n)%nat -> amp new k = gate_out M old q k.
Proof.
  intros Hn Hq Hold. unfold applySingleQubitGate. cbv zeta.
  rewrite new_array_ok by assumption. cbn [JS.bind].
  rewrite dim_nat.
  destruct (gate_loop M old n q Hn Hq Hold) as (ns & -> & Hlen & Hamp).
  cbn [JS.bind]. rewrite (copy_back old ns (2 ^ n)) by assumption.
  exists ns. split; [reflexivity|]. split; [assumption|].
  intros k Hk. rewrite Hamp. now apply partial_out_full.
Qed.

(** For a symmetric matrix the code and the specification agree. *)
Lemma gate_out_symmetric (M : Matrix2) (old : StateVector) (q k : nat) :
  m01 M = m10 M -> gate_out M old q k = spec_out M old q k.
Proof.
  intros Hsym. unfold gate_out, spec_out. rewrite Hsym.
  destruct (bit k q); reflexivity.
Qed.

Lemma supported_symmetric_or_y (M : Matrix2) :
  supported M -> m01 M = m10 M \/ M = yMatrix.
Proof.
  intros [->|[->|[->|[->|[->| ->]]]]]; auto.
Qed.

(** C1: the Y gate on |0> (one qubit).  The specified rule puts
    [M[1][0] * old[0] + M[1][1] * old[1] = i] at index 1;
    [applySingleQubitGate] leaves [M[0][1] * old[0] + M[1][1] * old[1] = -i]
    there: the loop adds [gateMatrix[0][1] * state[i]] to the flipped index
    of an index with bit 0, the transposed entry. *)
Theorem applySingleQubitGate_y_on_zero :
  exists new,
    applySingleQubitGate [cone; czero] yMatrix 0 1 = Ok new
    /\ amp new 1 = mkComplex 0 (-1)
    /\ spec_out yMatrix [cone; czero] 0 1 = mkComplex 0 1
    /\ amp new 1 <> spec_out yMatrix [cone; czero] 0 1.
Proof.
  destruct (applySingleQubitGate_spec yMatrix [cone; czero] 1 0)
    as (new & Hrun & _ & Hamp); [lia|lia|reflexivity|].
  exists new. split; [assumption|].
  assert (Hcode : amp new 1 = mkComplex 0 (-1));
    [|assert (Hspec : spec_out yMatrix [cone; czero] 0 1 = mkComplex 0 1);
      [|split; [assumption|split; [assumption|]];
        rewrite Hcode, Hspec; intros E; injection E; lra]].
  - rewrite Hamp by (simpl; lia). unfold gate_out.
    change (bit 1 0) with true. change (flip 1 0) with 0%nat.
    cbn [amp nth yMatrix m01 m11]. complex_ring.
  - unfold spec_out.
    change (bit 1 0) with true. change (flip 1 0) with 0%nat.
    cbn [amp nth yMatrix m10 m11]. complex_ring.
Qed.

(** ** Sums over the basis indices *)

Local Open Scope R_scope.

Lemma Rsum_app (l l' : list R) : Rsum (l ++ l') = Rsum l + Rsum l'.
Proof.
  induction l as [|x l IH]; simpl; [ring|rewrite IH; ring].
Qed.


Lemma Rsum_map_plus {A : Type} (f g : A -> R) (l : list A) :
  Rsum (map (fun x => f x + g x) l) = Rsum (map f l) + Rsum (map g l).
Proof.
  induction l as [|x l IH]; simpl; [ring|rewrite IH; ring].
Qed.

Lemma Rsum_map_ext {A : Type} (f g : A -> R) (l : list A) :
  (forall x, In x l -> f x = g x) -> Rsum (map f l) = Rsum (map g l).
Proof.
  intros H. f_equal. now apply map_ext_in.
Qed.

Lemma Rsum_map_zero {A : Type} (f : A -> R) (l : list A) :
  (forall x, In x l -> f x = 0) -> Rsum (map f l) = 0.
Proof.
  induction l as [|x l IH]; intros H; simpl; [reflexivity|].
  rewrite IH by (intros y Hy; apply H; now right).
  rewrite H by now left. ring.
Qed.


(** A list is the list of its elements by index. *)
Lemma map_by_index {A B : Type} (f : A -> B) (d : A) (l : list A) :
  map f l = map (fun k => f (nth k l d)) (seq 0 (length l)).
Proof.
  induction l as [|x l IH]; [reflexivity|].
  cbn [length seq map nth]. f_equal.
  rewrite <- seq_shift, map_map. exact IH.
Qed.

Lemma norm2_by_index (psi : StateVector) :
  norm2 psi = Rsum (map (fun k => abs2 (amp psi k)) (seq 0 (length psi))).
Proof.
  unfold norm2, amp. now rewrite (map_by_index abs2 czero).
Qed.



(** ** Unitarity of the six gates *)











Lemma norm2_repeat_czero (N : nat) : norm2 (repeat czero N) = 0.
Proof.
  unfold norm2. induction N as [|N IH]; simpl; [reflexivity|].
  rewrite IH. unfold abs2, czero. cbn [re im]. ring.
Qed.

(** A basis state has norm 1. *)
Lemma norm2_basis (N idx : nat) :
  (idx < N)%nat -> norm2 (update (repeat czero N) idx cone) = 1.
Proof.
  revert idx. induction N as [|N IH]; intros [|idx] Hidx; try lia.
  - change (norm2 (cone :: repeat czero N) = 1).
    unfold norm2. cbn [map Rsum]. fold (norm2 (repeat czero N)).
    rewrite norm2_repeat_czero. unfold abs2, cone. cbn [re im]. ring.
  - change (norm2 (czero :: update (repeat czero N) idx cone) = 1).
    unfold norm2. cbn [map Rsum].
    fold (norm2 (update (repeat czero N) idx cone)).
    rewrite IH by lia. unfold abs2, czero. cbn [re im]. ring.
Qed.

Lemma createInitialState_normalized (n : nat) (inits : list QubitInit) :
  (n <= 31)%nat -> (n <= length inits)%nat ->
  exists st, createInitialState n inits = Ok st
             /\ length st = (2 ^ n)%nat /\ norm2 st = 1.
Proof.
  intros Hn Hlen.
  destruct (createInitialState_ok n inits Hn Hlen) as (idx & Hidx & Hst).
  rewrite dim_nat in *.
  eexists. split; [exact Hst|]. split.
  - now rewrite length_update, repeat_length.
  - now apply norm2_basis.
Qed.




Local Close Scope R_scope.

(** ** The circuit evaluator *)

Lemma cell_at_ok (n d : nat) (circuit : Circuit) (row col : nat) :
  well_formed n d circuit -> (row < n)%nat -> (col < d)%nat ->
  exists c, cell_at circuit row col = Ok c /\ gate c = gate_at circuit row col.
Proof.
  intros [Hrows Hcols] Hrow Hcol. unfold cell_at, gate_at.
  destruct (get_inside circuit row) as (r & Hr & ->); [lia|].
  cbn [JS.bind].
  assert (Hlen : length r = d).
  { rewrite Forall_forall in Hcols. apply Hcols.
    eapply nth_error_In. eassumption. }
  destruct (get_inside r col) as (c & Hc & ->); [lia|].
  exists c. split; [reflexivity|].
  rewrite (nth_error_nth circuit row [] Hr).
  now rewrite (nth_error_nth r col (mkCell None) Hc).
Qed.

Lemma scan_rows_ok (n d : nat) (circuit : Circuit) (col : nat) :
  well_formed n d circuit -> (col < d)%nat ->
  forall k row, (row + k <= n)%nat ->
  scan_rows circuit col row k = Ok (existsb (has_gate circuit col) (seq row k)).
Proof.
  intros Hwf Hcol. induction k as [|k IH]; intros row Hrow; [reflexivity|].
  cbn [scan_rows seq existsb].
  destruct (cell_at_ok n d circuit row col Hwf) as (c & -> & Hg); [lia|lia|].
  cbn [JS.bind]. unfold has_gate at 1. rewrite Hg.
  destruct (gate_at circuit row col); [reflexivity|].
  apply IH. lia.
Qed.

Lemma scan_cols_ok (n d : nat) (circuit : Circuit) :
  well_formed n d circuit ->
  forall k col, (col + k <= d)%nat ->
  scan_cols circuit n col k
  = Ok (existsb (column_has_gate circuit n) (seq col k)).
Proof.
  intros Hwf. induction k as [|k IH]; intros col Hcol; [reflexivity|].
  cbn [scan_cols seq existsb].
  rewrite (scan_rows_ok n d) by (assumption || lia).
  cbn [JS.bind]. fold (column_has_gate circuit n col).
  destruct (column_has_gate circuit n col); [reflexivity|].
  apply IH. lia.
Qed.

(** The collection loop gathers every cell of the column that holds a gate,
    by ascending row. *)
Lemma collect_column_ok (n d : nat) (circuit : Circuit) (col : nat) :
  well_formed n d circuit -> (col < d)%nat ->
  collect_column circuit n col
  = Ok (column_has_gate circuit n col, column_placements circuit n col).
Proof.
  intros Hwf Hcol. unfold collect_column.
  destruct (for_loop_inv
              (fun row acc =>
                 acc = (existsb (has_gate circuit col) (seq 0 row),
                        flat_map (fun row =>
                                    match gate_at circuit row col with
                                    | Some g => [mkPlacement row g]
                                    | None => []
                                    end) (seq 0 row)))
              (fun row acc =>
                 c <- cell_at circuit row col ;;
                 match gate c with
                 | Some g => Ok (true, snd acc ++ [mkPlacement row g])
                 | None => Ok acc
                 end)
              n (false, [])) as (acc & Hrun & Hacc).
  - reflexivity.
  - intros row acc Hrow ->.
    destruct (cell_at_ok n d circuit row col Hwf Hrow Hcol) as (c & -> & Hg).
    cbn [JS.bind]. rewrite Hg.
    rewrite seq_S, existsb_app, flat_map_app. cbn [Nat.add existsb flat_map].
    unfold has_gate.
    destruct (gate_at circuit row col) as [g|]; eexists; split;
      try reflexivity; cbn [snd app];
      now rewrite ?orb_false_r, ?orb_true_r, ?app_nil_r.
  - rewrite Hrun, Hacc. reflexivity.
Qed.

Lemma column_placements_in (circuit : Circuit) (n col : nat) (p : Placement) :
  In p (column_placements circuit n col)
  <-> (p_qubit p < n)%nat /\ gate_at circuit (p_qubit p) col = Some (p_gate p).
Proof.
  unfold column_placements. rewrite in_flat_map. split.
  - intros (row & Hrow & Hp). apply in_seq in Hrow.
    destruct (gate_at circuit row col) as [g|] eqn:E; [|contradiction].
    destruct Hp as [<-|[]]. cbn [p_qubit p_gate]. split; [lia|assumption].
  - intros [Hrow Hg]. exists (p_qubit p). split; [apply in_seq; lia|].
    rewrite Hg. left. now destruct p.
Qed.

(** The dispatch on one placement does not throw and keeps the length of
    the state. *)
Lemma apply_placement_ok (n : nat) (st : StateVector) (p : Placement) :
  (n <= 31)%nat -> (p_qubit p < n)%nat -> length st = (2 ^ n)%nat ->
  exists r, apply_placement n st p = Ok r /\ length (fst r) = (2 ^ n)%nat.
Proof.
  intros Hn Hq Hst. unfold apply_placement. cbv zeta.
  repeat match goal with
         | |- context [if String.eqb ?a ?b then _ else _] =>
             destruct (String.eqb a b)
         end;
    try (eexists; split; [reflexivity|assumption]);
    match goal with
    | |- context [applySingleQubitGate st ?M _ _] =>
        destruct (applySingleQubitGate_spec M st n (p_qubit p) Hn Hq Hst)
          as (new & -> & Hlen & _)
    end;
    cbn [JS.bind]; eexists; (split; [reflexivity|assumption]).
Qed.

Lemma apply_placements_ok (n : nat) (ps : list Placement) :
  (n <= 31)%nat -> Forall (fun p => (p_qubit p < n)%nat) ps ->
  forall acc : StateVector * list string,
    length (fst acc) = (2 ^ n)%nat ->
    exists r, apply_placements n ps acc = Ok r
              /\ length (fst r) = (2 ^ n)%nat.
Proof.
  intros Hn Hps. induction Hps as [|p ps Hp _ IH]; intros acc Hacc;
    cbn [apply_placements].
  - exists acc. auto.
  - destruct (apply_placement_ok n (fst acc) p Hn Hp Hacc) as (r1 & Hr1 & Hl1).
    destruct (IH (fst r1, snd acc ++ [snd r1]) Hl1) as (r & Hr & Hl).
    exists r. split; [|assumption]. rewrite Hr1. exact Hr.
Qed.

Lemma nonempty_columns_S (circuit : Circuit) (n m : nat) :
  nonempty_columns circuit n (S m)
  = nonempty_columns circuit n m
    ++ (if column_has_gate circuit n m then [m] else []).
Proof.
  unfold nonempty_columns. rewrite seq_S, filter_app. reflexivity.
Qed.

Lemma column_step_ok (n d : nat) (circuit : Circuit) (first : SimulationStep)
      (m : nat) (steps : list SimulationStep) :
  (n <= 31)%nat -> well_formed n d circuit -> (m < d)%nat ->
  history_upto n circuit first m steps ->
  exists steps', column_step n circuit m steps = Ok steps'
                 /\ history_upto n circuit first (S m) steps'.
Proof.
  intros Hn Hwf Hm (Hlen & Hfirst & Hstates & Hsteps).
  unfold column_step. rewrite (collect_column_ok n d) by assumption.
  cbn [JS.bind fst snd]. unfold history_upto.
  rewrite nonempty_columns_S.
  set (cols := nonempty_columns circuit n m) in *.
  destruct (column_has_gate circuit n m).
  - replace (Z.of_nat (length steps) - 1) with (Z.of_nat (length cols)) by lia.
    destruct (get_inside steps (length cols)) as (prev & Hprev & ->); [lia|].
    cbn [JS.bind].
    assert (Hprev_len : length (state prev) = (2 ^ n)%nat).
    { rewrite Forall_forall in Hstates. apply Hstates.
      eapply nth_error_In. eassumption. }
    destruct (apply_placements_ok n (column_placements circuit n m) Hn)
      with (acc := (state prev, @nil string)) as (r & Hr & Hrlen);
      [apply Forall_forall; intros p Hp;
       now apply column_placements_in in Hp|assumption|].
    rewrite Hr. cbn [JS.bind]. eexists. split; [reflexivity|].
    rewrite !length_app. cbn [length]. repeat split.
    + lia.
    + rewrite nth_error_app1 by lia. assumption.
    + apply Forall_app. split; [assumption|]. now repeat constructor.
    + intros k Hk.
      destruct (Nat.eq_dec k (length cols)) as [->|Hne].
      * exists prev. eexists. split; [|split].
        -- rewrite nth_error_app1 by lia. assumption.
        -- rewrite nth_error_app2 by lia.
           replace (S (length cols) - length steps)%nat with 0%nat by lia.
           reflexivity.
        -- rewrite app_nth2 by lia. rewrite Nat.sub_diag. cbn [nth].
           exists r. split; [assumption|]. now rewrite Hlen.
      * destruct (Hsteps k) as (p & x & Hp & Hx & Hstep); [lia|].
        exists p, x. split; [|split].
        -- rewrite nth_error_app1 by lia. assumption.
        -- rewrite nth_error_app1 by lia. assumption.
        -- rewrite app_nth1 by lia. assumption.
  - rewrite app_nil_r. exists steps. split; [reflexivity|].
    repeat split; assumption.
Qed.

Lemma filter_existsb_false {A : Type} (f : A -> bool) (l : list A) :
  existsb f l = false -> filter f l = [].
Proof.
  induction l as [|x l IH]; cbn [existsb filter]; [reflexivity|].
  destruct (f x); cbn [orb]; [discriminate|exact IH].
Qed.

Lemma history_upto_initial (n : nat) (circuit : Circuit) (st0 : StateVector)
      (m : nat) :
  length st0 = (2 ^ n)%nat -> nonempty_columns circuit n m = [] ->
  history_upto n circuit (mkStep 0 st0 "Initial state") m
               [mkStep 0 st0 "Initial state"].
Proof.
  intros Hst0 Hcols. unfold history_upto. rewrite Hcols. cbn [length].
  repeat split.
  - now repeat constructor.
  - intros k Hk. lia.
Qed.

(** C4: the history of a circuit of [n] rows and [d] columns.  The call
    returns; step 0 is the initial state; there is one more step per column
    that holds a gate, and step [k + 1] is made of the [k]-th such column,
    left to right, on top of step [k]; a circuit without any gate gives the
    one-step history. *)
Theorem simulateCircuit_history
        (n d : nat) (circuit : Circuit) (inits : list QubitInit) :
  (n <= 31)%nat -> well_formed n d circuit -> length inits = n ->
  exists st0 steps,
    createInitialState n inits = Ok st0
    /\ simulateCircuit n d circuit inits = Ok steps
    /\ length steps = S (length (nonempty_columns circuit n d))
    /\ nth_error steps 0 = Some (mkStep 0 st0 "Initial state")
    /\ (forall k, (k < length (nonempty_columns circuit n d))%nat ->
          exists prev next,
            nth_error steps k = Some prev
            /\ nth_error steps (S k) = Some next
            /\ step_of_column n circuit
                              (nth k (nonempty_columns circuit n d) 0%nat)
                              k prev next)
    /\ ((forall row col, (row < n)%nat -> (col < d)%nat ->
                         gate_at circuit row col = None) ->
        steps = [mkStep 0 st0 "Initial state"]).
Proof.
  intros Hn Hwf Hinits.
  destruct (createInitialState_normalized n inits) as (st0 & H0 & Hl0 & _);
    [lia|lia|].
  assert (Hrun : exists steps,
             simulateCircuit n d circuit inits = Ok steps
             /\ history_upto n circuit (mkStep 0 st0 "Initial state") d steps).
  { unfold simulateCircuit. rewrite H0. cbn [JS.bind].
    rewrite (scan_cols_ok n d) by (assumption || lia). cbn [JS.bind].
    destruct (existsb (column_has_gate circuit n) (seq 0 d)) eqn:Hany.
    - apply (for_loop_inv
               (history_upto n circuit (mkStep 0 st0 "Initial state"))).
      + now apply history_upto_initial.
      + intros m steps Hm Hinv. now apply (column_step_ok n d).
    - eexists. split; [reflexivity|].
      apply history_upto_initial; [assumption|].
      now apply filter_existsb_false. }
  destruct Hrun as (steps & Hrun & Hlen & Hfirst & _ & Hsteps).
  exists st0, steps. repeat split; try assumption.
  intros Hempty.
  assert (Hcols : nonempty_columns circuit n d = []).
  { apply filter_existsb_false. apply not_true_is_false. intros Hex.
    apply existsb_exists in Hex. destruct Hex as (col & Hcol & Hhas).
    apply existsb_exists in Hhas. destruct Hhas as (row & Hrow & Hg).
    apply in_seq in Hcol. apply in_seq in Hrow.
    unfold has_gate in Hg. rewrite Hempty in Hg by lia. discriminate. }
  rewrite Hcols in Hlen. cbn [length] in Hlen.
  destruct steps as [|s [|s' steps]]; try discriminate.
  cbn [nth_error] in Hfirst. congruence.
Qed.

Lemma simulateCircuit_history_witness :
  exists st0 steps,
    createInitialState 1 [mkQubitInit "0" 0] = Ok st0
    /\ simulateCircuit
         1 3 [[mkCell None;
               mkCell (Some (mkGate "x" "X" "Pauli-X" false false));
               mkCell None]]
         [mkQubitInit "0" 0] = Ok steps
    /\ length steps = 2%nat
    /\ nth_error steps 0 = Some (mkStep 0 st0 "Initial state").
Proof.
  destruct (simulateCircuit_history
              1 3 [[mkCell None;
                    mkCell (Some (mkGate "x" "X" "Pauli-X" false false));
                    mkCell None]]
              [mkQubitInit "0" 0])
    as (st0 & steps & H0 & Hrun & Hlen & Hfirst & _).
  - lia.
  - split; [reflexivity|]. repeat constructor.
  - reflexivity.
  - exists st0, steps. repeat split; assumption.
Defined.

(** C5: a placement whose id is none of h, x, y, z, s, t is dispatched
    without a call of [applySingleQubitGate]: the state is returned as it
    was, and the description of the gate is pushed on [gateDescriptions]. *)
Theorem unsupported_gate_leaves_state
        (n : nat) (st : StateVector) (p : Placement) :
  ~ In (gate_id (p_gate p)) ["h"; "x"; "y"; "z"; "s"; "t"]%string ->
  apply_placement n st p = Ok (st, inert_description p)
  /\ forall ps descs,
       apply_placements n (p :: ps) (st, descs)
       = apply_placements n ps (st, descs ++ [inert_description p]).
Proof.
  intros Hid.
  assert (H : apply_placement n st p = Ok (st, inert_description p)).
  { unfold apply_placement, inert_description. cbv zeta.
    repeat match goal with
           | |- context [String.eqb ?a ?b] =>
               let E := fresh "E" in
               destruct (String.eqb_spec a b) as [E|E];
               [try (exfalso; apply Hid; rewrite E; cbn [In]; tauto)|]
           end; reflexivity. }
  split; [assumption|].
  intros ps descs. cbn [apply_placements fst snd]. rewrite H. reflexivity.
Qed.

Lemma unsupported_gate_leaves_state_witness :
  apply_placement
    2 [czero; cone; czero; czero]
    (mkPlacement 1 (mkGate "cx" "CX" "CNOT" true true))
  = Ok ([czero; cone; czero; czero], "CX gate to qubit 1"%string).
Proof.
  apply (unsupported_gate_leaves_state
           2 [czero; cone; czero; czero]
           (mkPlacement 1 (mkGate "cx" "CX" "CNOT" true true))).
  cbn [In gate_id p_gate]. intros H.
  repeat (destruct H as [H|H]; [discriminate H|]). exact H.
Defined.

(** C9, as the code has it: the collection loop of a column takes every
    cell whose gate is not null, by ascending row; the [control] and
    [target] flags of the gate are not looked at. *)
Theorem collect_column_takes_every_gate
        (n d : nat) (circuit : Circuit) (col : nat) :
  well_formed n d circuit -> (col < d)%nat ->
  collect_column circuit n col
  = Ok (column_has_gate circuit n col, column_placements circuit n col)
  /\ forall row g,
       In (mkPlacement row g) (column_placements circuit n col)
       <-> (row < n)%nat /\ gate_at circuit row col = Some g.
Proof.
  intros Hwf Hcol. split.
  - now apply (collect_column_ok n d).
  - intros row g. apply (column_placements_in circuit n col (mkPlacement row g)).
Qed.

Lemma collect_column_takes_every_gate_witness :
  collect_column
    [[mkCell (Some (mkGate "cx" "CX" "CNOT" true false))];
     [mkCell None];
     [mkCell (Some (mkGate "cx" "CX" "CNOT" false true))]] 3 0
  = Ok (true,
        [mkPlacement 0 (mkGate "cx" "CX" "CNOT" true false);
         mkPlacement 2 (mkGate "cx" "CX" "CNOT" false true)]).
Proof.
  apply (collect_column_takes_every_gate
           3 1
           [[mkCell (Some (mkGate "cx" "CX" "CNOT" true false))];
            [mkCell None];
            [mkCell (Some (mkGate "cx" "CX" "CNOT" false true))]] 0).
  - split; [reflexivity|]. repeat constructor.
  - lia.
Defined.

(** C9, as the spec states it, fails: in a column with a CX pair, control
    on row 0 and target on row 1, the target cell is collected and
    described as a gate of its own. *)
Lemma target_cell_is_processed :
  gate_target (mkGate "cx" "CX" "CNOT" false true) = true
  /\ collect_column
       [[mkCell (Some (mkGate "cx" "CX" "CNOT" true false))];
        [mkCell (Some (mkGate "cx" "CX" "CNOT" false true))]] 2 0
     = Ok (true,
           [mkPlacement 0 (mkGate "cx" "CX" "CNOT" true false);
            mkPlacement 1 (mkGate "cx" "CX" "CNOT" false true)])
  /\ simulateCircuit
       2 1
       [[mkCell (Some (mkGate "cx" "CX" "CNOT" true false))];
        [mkCell (Some (mkGate "cx" "CX" "CNOT" false true))]]
       [mkQubitInit "0" 0; mkQubitInit "0" 0]
     = Ok [mkStep 0 [cone; czero; czero; czero] "Initial state";
           mkStep 1 [cone; czero; czero; czero]
                  "Applied CX gate to qubit 0, CX gate to qubit 1"].
Proof.
  repeat split; reflexivity.
Qed.

(** ** Expectation values *)








(** ** Matrices *)

Lemma square_row (d : nat) (rho : Matrix) (i : nat) :
  square d rho -> (i < d)%nat -> length (nth i rho []) = d.
Proof.
  intros [Hlen Hrows] Hi. rewrite Forall_forall in Hrows.
  apply Hrows. apply nth_In. lia.
Qed.

Lemma square_update (d : nat) (rho : Matrix) (i j : nat) (v : Complex) :
  square d rho -> (i < d)%nat ->
  square d (update rho i (update (nth i rho []) j v)).
Proof.
  intros Hsq Hi. pose proof (square_row d rho i Hsq Hi) as Hrow.
  destruct Hsq as [Hlen Hrows]. split; [now rewrite length_update|].
  apply Forall_forall. intros row Hin.
  apply In_nth_error in Hin. destruct Hin as (k & Hk).
  rewrite nth_error_update in Hk.
  destruct (Nat.eqb i k && Nat.ltb i (length rho))%bool.
  - injection Hk as <-. now rewrite length_update.
  - rewrite Forall_forall in Hrows. apply Hrows.
    eapply nth_error_In. eassumption.
Qed.

Lemma entry_update (d : nat) (rho : Matrix) (i j i' j' : nat) (v : Complex) :
  square d rho -> (i < d)%nat -> (j < d)%nat ->
  entry (update rho i (update (nth i rho []) j v)) i' j'
  = if ((i' =? i)%nat && (j' =? j)%nat)%bool then v else entry rho i' j'.
Proof.
  intros Hsq Hi Hj. pose proof (square_row d rho i Hsq Hi) as Hrow.
  destruct Hsq as [Hlen _]. unfold entry.
  rewrite nth_update by lia.
  destruct (Nat.eqb_spec i' i) as [->|]; cbn [andb]; [|reflexivity].
  now rewrite nth_update by lia.
Qed.

Lemma square_zeros (d : nat) : square d (repeat (repeat czero d) d).
Proof.
  split; [apply repeat_length|].
  apply Forall_forall. intros row Hin. apply repeat_spec in Hin.
  subst row. apply repeat_length.
Qed.

Lemma entry_zeros (d i j : nat) : entry (repeat (repeat czero d) d) i j = czero.
Proof.
  unfold entry. destruct (Nat.lt_ge_cases i d) as [Hi|Hi].
  - rewrite nth_repeat_lt by assumption. apply amp_repeat_czero.
  - rewrite (nth_overflow (repeat (repeat czero d) d) [])
      by (rewrite repeat_length; lia).
    now destruct j.
Qed.

(** A store [matrix[i][j] = v] through the row read before it. *)
Lemma store_entry (d : nat) (rho : Matrix) (i j : nat) (v : Complex) :
  square d rho -> (i < d)%nat -> (j < d)%nat ->
  set rho (Z.of_nat i) (set (nth i rho []) (Z.of_nat j) v)
  = update rho i (update (nth i rho []) j v).
Proof.
  intros _ _ _. now rewrite !set_of_nat.
Qed.

(** ** [calculateDensityMatrix] *)

Lemma written_step (i j i' j' : nat) :
  written i (S j) i' j'
  = (((i' =? i)%nat && (j' =? j)%nat) || written i j i' j')%bool.
Proof.
  unfold written.
  destruct (Nat.ltb_spec i' i), (Nat.eqb_spec i' i), (Nat.ltb_spec j' (S j)),
    (Nat.eqb_spec j' j), (Nat.ltb_spec j' j); cbn [andb orb];
    try reflexivity; lia.
Qed.

Lemma written_row (d i i' j' : nat) :
  (j' < d)%nat -> written i d i' j' = written (S i) 0 i' j'.
Proof.
  intros Hj. unfold written.
  destruct (Nat.ltb_spec i' i), (Nat.eqb_spec i' i), (Nat.ltb_spec j' d),
    (Nat.ltb_spec i' (S i)), (Nat.eqb_spec i' (S i)); cbn [andb orb];
    try reflexivity; lia.
Qed.

Lemma written_all (d i' j' : nat) :
  (i' < d)%nat -> written d 0 i' j' = true.
Proof.
  intros Hi. unfold written.
  destruct (Nat.ltb_spec i' d); [reflexivity|lia].
Qed.

Lemma calculateDensityMatrix_ok (psi : StateVector) :
  exists rho,
    calculateDensityMatrix psi = Ok rho
    /\ square (length psi) rho
    /\ forall i j, (i < length psi)%nat -> (j < length psi)%nat ->
         entry rho i j
         = mkComplex (re (amp psi i) * re (amp psi j)
                      + im (amp psi i) * im (amp psi j))%R
                     (im (amp psi i) * re (amp psi j)
                      - re (amp psi i) * im (amp psi j))%R.
Proof.
  unfold calculateDensityMatrix. cbv zeta.
  set (d := length psi).
  set (f := fun i j =>
              mkComplex (re (amp psi i) * re (amp psi j)
                         + im (amp psi i) * im (amp psi j))%R
                        (im (amp psi i) * re (amp psi j)
                         - re (amp psi i) * im (amp psi j))%R).
  destruct (for_loop2_inv
              (fun i j rho =>
                 square d rho
                 /\ forall i' j', (i' < d)%nat -> (j' < d)%nat ->
                      entry rho i' j'
                      = if written i j i' j' then f i' j' else czero)
              (density_iteration psi) d d (repeat (repeat czero d) d))
    as (rho & Hrun & Hsq & Hent).
  - split; [apply square_zeros|]. intros i' j' _ _.
    rewrite entry_zeros. unfold written.
    destruct (Nat.ltb_spec i' 0), (Nat.ltb_spec j' 0); try lia.
    now rewrite andb_false_r.
  - intros i j rho Hi Hj [Hsq Hent]. unfold density_iteration.
    rewrite (get_amp psi i) by assumption. cbn [JS.bind].
    rewrite (get_amp psi j) by assumption. cbn [JS.bind].
    rewrite (get_nth rho i []) by (destruct Hsq; lia). cbn [JS.bind].
    rewrite (store_entry d) by assumption.
    eexists. split; [reflexivity|]. split.
    + now apply square_update.
    + intros i' j' Hi' Hj'. rewrite (entry_update d) by assumption.
      rewrite written_step, Hent by assumption.
      destruct (Nat.eqb_spec i' i) as [->|]; [|reflexivity].
      destruct (Nat.eqb_spec j' j) as [->|]; reflexivity.
  - intros i rho Hi [Hsq Hent]. split; [assumption|].
    intros i' j' Hi' Hj'. rewrite <- (written_row d) by assumption.
    now apply Hent.
  - exists rho. split; [assumption|]. split; [assumption|].
    intros i j Hi Hj. rewrite Hent by assumption.
    now rewrite written_all.
Qed.

(** C6: the density matrix of a state vector.  The call returns a square
    matrix with [rho[i][j] = psi[i] * conjugate(psi[j])]; the matrix is
    Hermitian; its trace is 1 when the state is normalized. *)
Theorem calculateDensityMatrix_spec (psi : StateVector) :
  exists rho,
    calculateDensityMatrix psi = Ok rho
    /\ square (length psi) rho
    /\ (forall i j, (i < length psi)%nat -> (j < length psi)%nat ->
          entry rho i j
          = complexMultiply (amp psi i) (conjugate (amp psi j)))
    /\ (forall i j, (i < length psi)%nat -> (j < length psi)%nat ->
          entry rho j i = conjugate (entry rho i j))
    /\ (norm2 psi = 1%R -> trace rho = cone).
Proof.
  destruct (calculateDensityMatrix_ok psi) as (rho & Hrun & Hsq & Hent).
  exists rho. split; [assumption|]. split; [assumption|].
  split; [|split].
  - intros i j Hi Hj. rewrite Hent by assumption.
    unfold complexMultiply, conjugate. cbn [re im].
    apply complex_eq; cbn [re im]; ring.
  - intros i j Hi Hj. rewrite !Hent by assumption.
    unfold conjugate. apply complex_eq; cbn [re im]; ring.
  - intros Hnorm. unfold trace. destruct Hsq as [Hlen _]. rewrite Hlen.
    unfold cone. f_equal.
    + rewrite <- Hnorm, norm2_by_index. apply Rsum_map_ext.
      intros i Hi. apply in_seq in Hi.
      rewrite Hent by lia. reflexivity.
    + apply Rsum_map_zero. intros i Hi. apply in_seq in Hi.
      rewrite Hent by lia. cbn [im]. ring.
Qed.

Lemma calculateDensityMatrix_spec_witness :
  exists rho,
    calculateDensityMatrix [czero; cone] = Ok rho
    /\ entry rho 1 1 = complexMultiply cone (conjugate cone)
    /\ trace rho = cone.
Proof.
  destruct (calculateDensityMatrix_spec [czero; cone])
    as (rho & Hrun & _ & Hent & _ & Htrace).
  exists rho. split; [assumption|]. split.
  - apply (Hent 1%nat 1%nat); simpl; lia.
  - apply Htrace. unfold norm2, abs2, czero, cone. cbn [map Rsum re im]. ring.
Defined.

(** ** [mapToReducedIndex] *)

Lemma testbit_high (a : Z) (k q : Z) :
  0 <= a < 2 ^ k -> 0 <= k <= q -> Z.testbit a q = false.
Proof.
  intros Ha Hk. rewrite <- (Z.mod_small a (2 ^ k)) by assumption.
  apply Z.mod_pow2_bits_high. assumption.
Qed.

Lemma land_pow2 (i q : Z) :
  0 <= q -> Z.land i (2 ^ q) = if Z.testbit i q then 2 ^ q else 0.
Proof.
  intros Hq. apply Z.bits_inj'. intros p Hp.
  rewrite Z.land_spec, Z.pow2_bits_eqb by assumption.
  destruct (Z.eqb_spec q p) as [->|Hne].
  - destruct (Z.testbit i p) eqn:E; cbn [andb].
    + now rewrite Z.pow2_bits_true.
    + now rewrite Z.bits_0.
  - rewrite andb_false_r. destruct (Z.testbit i q).
    + rewrite Z.pow2_bits_eqb by assumption. symmetry. now apply Z.eqb_neq.
    + now rewrite Z.bits_0.
Qed.

Lemma lor_pow2 (r k : Z) :
  0 <= k -> 0 <= r < 2 ^ k -> Z.lor r (2 ^ k) = r + 2 ^ k.
Proof.
  intros Hk Hr.
  assert (Hland : Z.land r (2 ^ k) = 0).
  { rewrite land_pow2 by assumption.
    rewrite (testbit_high r k k) by lia. reflexivity. }
  rewrite <- Z.lxor_lor by assumption.
  symmetry. now apply Z.add_nocarry_lxor.
Qed.

Lemma kept_below_S (S : list nat) (m : nat) :
  kept_below S (Datatypes.S m)
  = if traced S m then kept_below S m else Datatypes.S (kept_below S m).
Proof.
  unfold kept_below. rewrite seq_S, filter_app, length_app.
  cbn [Nat.add filter]. destruct (traced S m); cbn [negb length]; lia.
Qed.

Lemma kept_below_le (S : list nat) (m : nat) : (kept_below S m <= m)%nat.
Proof.
  induction m as [|m IH]; [reflexivity|].
  rewrite kept_below_S. destruct (traced S m); lia.
Qed.

Lemma compress_bound (S : list nat) (i : Z) (m : nat) :
  0 <= compress S i m < 2 ^ Z.of_nat (kept_below S m).
Proof.
  induction m as [|m IH]; cbn [compress]; [cbn; lia|].
  rewrite kept_below_S. destruct (traced S m); [assumption|].
  rewrite Nat2Z.inj_succ, Z.pow_succ_r by lia.
  destruct (Z.testbit i (Z.of_nat m)); lia.
Qed.

(** One iteration of the loop of [mapToReducedIndex], in arithmetic. *)
Lemma reduce_bit_step (S : list nat) (i r : Z) (k q : nat) :
  0 <= i < 2 ^ 31 -> (q <= 30)%nat -> (k <= q)%nat ->
  0 <= r < 2 ^ Z.of_nat k ->
  reduce_bit S i (r, Z.of_nat k) q
  = if traced S q then (r, Z.of_nat k)
    else (r + (if Z.testbit i (Z.of_nat q) then 2 ^ Z.of_nat k else 0),
          Z.of_nat (Datatypes.S k)).
Proof.
  intros Hi Hq Hk Hr. unfold reduce_bit. fold (traced S q).
  destruct (traced S q); [reflexivity|].
  assert (Hpow : 2 ^ Z.of_nat k <= 2 ^ 30) by (apply pow2_le_mono; lia).
  unfold JS.and, JS.or. rewrite !shl_one by lia.
  assert (Hq2 : 0 < 2 ^ Z.of_nat q <= 2 ^ 30).
  { split; [apply Z.pow_pos_nonneg; lia|apply pow2_le_mono; lia]. }
  rewrite !to_int32_small by lia.
  rewrite land_pow2 by lia. rewrite Nat2Z.inj_succ.
  destruct (Z.testbit i (Z.of_nat q)).
  - destruct (Z.eqb_spec (2 ^ Z.of_nat q) 0) as [E|_]; [lia|]. cbn [negb].
    rewrite lor_pow2 by lia. f_equal; lia.
  - cbn [Z.eqb negb]. f_equal; lia.
Qed.

Lemma mapToReducedIndex_compress (n : nat) (S : list nat) (i : Z) :
  (n <= 31)%nat -> 0 <= i < 2 ^ 31 ->
  mapToReducedIndex n S i = compress S i n.
Proof.
  intros Hn Hi. unfold mapToReducedIndex.
  assert (H : forall m, (m <= n)%nat ->
              fold_left (reduce_bit S i) (seq 0 m) (0, 0)
              = (compress S i m, Z.of_nat (kept_below S m))).
  { induction m as [|m IH]; intros Hm; [reflexivity|].
    rewrite seq_S, fold_left_app, IH by lia. cbn [Nat.add fold_left].
    rewrite reduce_bit_step;
      [|assumption|lia|apply kept_below_le|apply compress_bound].
    cbn [compress]. rewrite kept_below_S.
    destruct (traced S m); reflexivity. }
  now rewrite H.
Qed.

(** With distinct traced qubits, [n - |S|] qubits are retained. *)
Lemma kept_below_count (n : nat) (S : list nat) :
  qubit_subset n S -> kept_below S n = (n - length S)%nat.
Proof.
  intros [Hnd Hin]. unfold kept_below.
  pose proof (filter_length (traced S) (seq 0 n)) as Hsplit.
  rewrite length_seq in Hsplit.
  assert (Hperm : Permutation (filter (traced S) (seq 0 n)) S).
  { apply NoDup_Permutation; [apply NoDup_filter, seq_NoDup|assumption|].
    intros q. rewrite filter_In, in_seq. unfold traced.
    rewrite existsb_exists. split.
    - intros (_ & x & Hx & E). apply Nat.eqb_eq in E. now subst.
    - intros Hq. split; [specialize (Hin q Hq); lia|].
      exists q. split; [assumption|apply Nat.eqb_refl]. }
  apply Permutation_length in Hperm. lia.
Qed.

(** Two indices with the same traced bits and the same reduced index have
    the same bits. *)
Lemma compress_inj (S : list nat) (i j : Z) (m : nat) :
  (forall q, (q < m)%nat -> traced S q = true ->
             Z.testbit i (Z.of_nat q) = Z.testbit j (Z.of_nat q)) ->
  compress S i m = compress S j m ->
  forall q, (q < m)%nat -> Z.testbit i (Z.of_nat q) = Z.testbit j (Z.of_nat q).
Proof.
  induction m as [|m IH]; intros Htr Heq q Hq; [lia|].
  cbn [compress] in Heq.
  pose proof (compress_bound S i m) as Bi.
  pose proof (compress_bound S j m) as Bj.
  destruct (traced S m) eqn:Hm.
  - destruct (Nat.eq_dec q m) as [->|Hne]; [now apply Htr|].
    apply IH; [intros; apply Htr; [lia|assumption]|assumption|lia].
  - assert (Hboth : compress S i m = compress S j m
                    /\ Z.testbit i (Z.of_nat m) = Z.testbit j (Z.of_nat m)).
    { destruct (Z.testbit i (Z.of_nat m)), (Z.testbit j (Z.of_nat m));
        split; try reflexivity; lia. }
    destruct Hboth as [Hc Hb].
    destruct (Nat.eq_dec q m) as [->|Hne]; [assumption|].
    apply IH; [intros; apply Htr; [lia|assumption]|assumption|lia].
Qed.

Lemma reduced_spec (n : nat) (S : list nat) (i : nat) :
  (n <= 31)%nat -> qubit_subset n S -> (i < 2 ^ n)%nat ->
  mapToReducedIndex n S (Z.of_nat i) = Z.of_nat (reduced n S i)
  /\ (reduced n S i < 2 ^ (n - length S))%nat.
Proof.
  intros Hn HS Hi. destruct (index_bound n i Hn Hi) as [Hi' Hpow].
  unfold reduced. rewrite mapToReducedIndex_compress by lia.
  pose proof (compress_bound S (Z.of_nat i) n) as Hb.
  rewrite (kept_below_count n S HS) in Hb.
  split; [now rewrite Z2Nat.id|].
  rewrite <- dim_nat. lia.
Qed.

Lemma shouldInclude_spec (n : nat) (S : list nat) (i j : nat) :
  (n <= 31)%nat -> qubit_subset n S -> (i < 2 ^ n)%nat -> (j < 2 ^ n)%nat ->
  shouldInclude S (Z.of_nat i) (Z.of_nat j) = true
  <-> forall q, In q S -> bit i q = bit j q.
Proof.
  intros Hn [_ HS] Hi Hj. unfold shouldInclude. rewrite forallb_forall.
  split; intros H q Hq; specialize (H q Hq); specialize (HS q Hq).
  - rewrite (qubitValue_bit n i q), (qubitValue_bit n j q) in H
      by assumption.
    apply Z.eqb_eq in H. now apply Z.b2z_inj.
  - rewrite (qubitValue_bit n i q), (qubitValue_bit n j q) by assumption.
    rewrite H. apply Z.eqb_refl.
Qed.

Lemma shouldInclude_refl (S : list nat) (i : Z) : shouldInclude S i i = true.
Proof.
  unfold shouldInclude. apply forallb_forall. intros q _. apply Z.eqb_refl.
Qed.

(** The pair of the traced bits and the reduced index determines the full
    index. *)
Lemma reduced_inj (n : nat) (S : list nat) (i j : nat) :
  (n <= 31)%nat -> qubit_subset n S -> (i < 2 ^ n)%nat -> (j < 2 ^ n)%nat ->
  shouldInclude S (Z.of_nat i) (Z.of_nat j) = true ->
  reduced n S i = reduced n S j -> i = j.
Proof.
  intros Hn HS Hi Hj Hinc Hred.
  destruct (index_bound n i Hn Hi) as [Hi' Hpow].
  destruct (index_bound n j Hn Hj) as [Hj' _].
  pose proof (proj1 (shouldInclude_spec n S i j Hn HS Hi Hj) Hinc) as Hbits.
  assert (Hc : compress S (Z.of_nat i) n = compress S (Z.of_nat j) n).
  { unfold reduced in Hred.
    rewrite !mapToReducedIndex_compress in Hred by lia.
    pose proof (compress_bound S (Z.of_nat i) n).
    pose proof (compress_bound S (Z.of_nat j) n). lia. }
  apply Nat2Z.inj. apply Z.bits_inj'. intros p Hp.
  destruct (Z.lt_ge_cases p (Z.of_nat n)) as [Hlt|Hge].
  - rewrite <- (Z2Nat.id p) by assumption.
    apply (compress_inj S (Z.of_nat i) (Z.of_nat j) n); [|assumption|lia].
    intros q Hq Htr. apply Hbits. unfold traced in Htr.
    apply existsb_exists in Htr. destruct Htr as (x & Hx & E).
    apply Nat.eqb_eq in E. now subst.
  - rewrite (testbit_high (Z.of_nat i) (Z.of_nat n)) by lia.
    now rewrite (testbit_high (Z.of_nat j) (Z.of_nat n)) by lia.
Qed.

Lemma compress_nil (i : Z) (m : nat) :
  compress [] i m = i mod 2 ^ Z.of_nat m.
Proof.
  assert (Hk : forall k, kept_below [] k = k).
  { induction k as [|k IH]; [reflexivity|]. rewrite kept_below_S. cbn. lia. }
  induction m as [|m IH]; cbn [compress traced existsb].
  - cbn. now rewrite Z.mod_1_r.
  - rewrite IH, Hk, Nat2Z.inj_succ, Z.pow_succ_r by lia.
    rewrite (Z.mul_comm 2).
    rewrite Z.rem_mul_r by (try apply Z.pow_nonzero; lia).
    rewrite <- Z.testbit_spec' by lia.
    destruct (Z.testbit i (Z.of_nat m)); cbn [Z.b2z]; lia.
Qed.

(** With nothing traced out the reduced index is the full index. *)
Lemma reduced_nil (n i : nat) :
  (n <= 31)%nat -> (i < 2 ^ n)%nat -> reduced n [] i = i.
Proof.
  intros Hn Hi. destruct (index_bound n i Hn Hi) as [Hi' Hpow].
  unfold reduced. rewrite mapToReducedIndex_compress by lia.
  rewrite compress_nil, Z.mod_small by lia. apply Nat2Z.id.
Qed.

(** ** [calculatePartialTrace] *)

Lemma Csum_snoc (l : list Complex) (x : Complex) :
  Csum (l ++ [x]) = complexAdd (Csum l) x.
Proof.
  unfold Csum, complexAdd. cbn [re im].
  rewrite !map_app, !Rsum_app. cbn [map Rsum].
  apply complex_eq; cbn [re im]; ring.
Qed.

Lemma Csum_snoc_zero (l : list Complex) : Csum (l ++ [czero]) = Csum l.
Proof.
  rewrite Csum_snoc. apply complex_eq; cbn [re im complexAdd czero]; ring.
Qed.

Lemma pairs_before_step (d i j : nat) :
  pairs_before d i (S j) = pairs_before d i j ++ [(i, j)].
Proof.
  unfold pairs_before. rewrite seq_S, map_app, app_assoc. reflexivity.
Qed.

Lemma pairs_before_row (d i : nat) :
  pairs_before d (S i) 0 = pairs_before d i d.
Proof.
  unfold pairs_before. rewrite seq_S, flat_map_app. cbn [Nat.add flat_map map seq].
  now rewrite !app_nil_r.
Qed.

Lemma new_array_pow2 {A : Type} (k : nat) (v : A) :
  (k <= 31)%nat ->
  new_array (2 ^ Z.of_nat k) v = Ok (repeat v (2 ^ k)).
Proof.
  intros Hk. rewrite new_array_ok by assumption. now rewrite dim_nat.
Qed.

(** The loop nest accumulates, in every entry of the reduced matrix, the
    contributions of the pairs of full indices. *)
Lemma calculatePartialTrace_ok (rho : Matrix) (n : nat) (S : list nat) :
  (n <= 31)%nat -> qubit_subset n S -> square (2 ^ n) rho ->
  exists red,
    calculatePartialTrace rho n S = Ok red
    /\ square (2 ^ (n - length S)) red
    /\ forall a b, (a < 2 ^ (n - length S))%nat ->
                   (b < 2 ^ (n - length S))%nat ->
         entry red a b
         = Csum (map (contribution rho n S a b)
                     (pairs_before (2 ^ n) (2 ^ n) 0)).
Proof.
  intros Hn HS Hrho.
  assert (Hlen : (length S <= n)%nat).
  { pose proof (kept_below_count n S HS) as Hk.
    pose proof (filter_length (traced S) (seq 0 n)) as Hsplit.
    rewrite length_seq in Hsplit.
    destruct HS as [Hnd Hin].
    assert (Hincl : incl S (seq 0 n))
      by (intros q Hq; apply in_seq; specialize (Hin q Hq); lia).
    pose proof (NoDup_incl_length Hnd Hincl) as Hle.
    now rewrite length_seq in Hle. }
  unfold calculatePartialTrace. cbv zeta.
  destruct (Z.ltb_spec (Z.of_nat n - Z.of_nat (length S)) 0) as [|_]; [lia|].
  replace (Z.of_nat n - Z.of_nat (length S)) with (Z.of_nat (n - length S))
    by lia.
  set (k := (n - length S)%nat).
  rewrite new_array_pow2 by lia. cbn [JS.bind].
  rewrite new_array_pow2 by lia. cbn [JS.bind].
  destruct Hrho as [Hd Hrows]. rewrite Hd.
  set (d := (2 ^ n)%nat) in *. set (D := (2 ^ k)%nat).
  destruct (for_loop2_inv
              (fun i j red =>
                 square D red
                 /\ forall a b, (a < D)%nat -> (b < D)%nat ->
                      entry red a b
                      = Csum (map (contribution rho n S a b)
                                  (pairs_before d i j)))
              (trace_iteration rho n S) d d
              (repeat (repeat czero D) D))
    as (red & Hrun & Hsq & Hent).
  - split; [apply square_zeros|]. intros a b _ _. now rewrite entry_zeros.
  - intros i j red Hi Hj [Hsq Hent]. unfold trace_iteration. cbv zeta.
    assert (Hstep : forall a b,
               map (contribution rho n S a b) (pairs_before d i (Datatypes.S j))
               = map (contribution rho n S a b) (pairs_before d i j)
                 ++ [contribution rho n S a b (i, j)])
      by (intros; now rewrite pairs_before_step, map_app).
    destruct (shouldInclude S (Z.of_nat i) (Z.of_nat j)) eqn:Hinc.
    + destruct (reduced_spec n S i Hn HS Hi) as [-> Hri].
      destruct (reduced_spec n S j Hn HS Hj) as [-> Hrj].
      fold k in Hri, Hrj. fold D in Hri, Hrj.
      rewrite (get_nth red (reduced n S i) []) by (destruct Hsq; lia).
      cbn [JS.bind].
      rewrite (get_nth _ (reduced n S j) czero)
        by (rewrite (square_row D red); assumption).
      cbn [JS.bind].
      rewrite (get_nth rho i []) by lia. cbn [JS.bind].
      rewrite (get_nth _ j czero)
        by (rewrite (square_row d rho); [assumption|now split|assumption]).
      cbn [JS.bind]. rewrite (store_entry D) by assumption.
      eexists. split; [reflexivity|]. split; [now apply square_update|].
      intros a b Ha Hb. rewrite (entry_update D) by assumption.
      rewrite Hstep. unfold contribution at 2. cbn [fst snd].
      rewrite Hinc. cbn [andb].
      rewrite (Nat.eqb_sym (reduced n S i)), (Nat.eqb_sym (reduced n S j)).
      destruct (Nat.eqb_spec a (reduced n S i)) as [->|];
        [destruct (Nat.eqb_spec b (reduced n S j)) as [->|]|];
        cbn [andb].
      * rewrite Csum_snoc, <- Hent by assumption. reflexivity.
      * rewrite Csum_snoc_zero. now apply Hent.
      * rewrite Csum_snoc_zero. now apply Hent.
    + exists red. split; [reflexivity|]. split; [assumption|].
      intros a b Ha Hb. rewrite Hstep. unfold contribution at 2.
      cbn [fst snd]. rewrite Hinc. cbn [andb].
      rewrite Csum_snoc_zero. now apply Hent.
  - intros i red Hi [Hsq Hent]. split; [assumption|].
    intros a b Ha Hb. rewrite pairs_before_row. now apply Hent.
  - exists red. split; [assumption|]. split; assumption.
Qed.

Local Open Scope R_scope.

Lemma Rsum_flat_map {A B : Type} (f : B -> R) (g : A -> list B) (l : list A) :
  Rsum (map f (flat_map g l)) = Rsum (map (fun x => Rsum (map f (g x))) l).
Proof.
  induction l as [|x l IH]; cbn [flat_map map Rsum]; [reflexivity|].
  now rewrite map_app, Rsum_app, IH.
Qed.

Lemma Rsum_swap {A B : Type} (F : A -> B -> R) (la : list A) (lb : list B) :
  Rsum (map (fun a => Rsum (map (F a) lb)) la)
  = Rsum (map (fun b => Rsum (map (fun a => F a b) la)) lb).
Proof.
  induction la as [|a la IH]; cbn [map Rsum].
  - symmetry. apply Rsum_map_zero. reflexivity.
  - rewrite IH. symmetry. apply Rsum_map_plus.
Qed.

(** A sum with one term that can be non-zero. *)
Lemma Rsum_single (f : nat -> R) (x start len : nat) :
  Rsum (map (fun a => if (a =? x)%nat then f a else 0) (seq start len))
  = if ((start <=? x)%nat && (x <? start + len)%nat)%bool then f x else 0.
Proof.
  revert start. induction len as [|len IH]; intros start; cbn [seq map Rsum].
  - destruct (Nat.leb_spec start x), (Nat.ltb_spec x (start + 0));
      cbn [andb]; try reflexivity; lia.
  - rewrite IH.
    destruct (Nat.eqb_spec start x), (Nat.leb_spec start x),
      (Nat.leb_spec (S start) x), (Nat.ltb_spec x (S start + len)),
      (Nat.ltb_spec x (start + S len)); cbn [andb]; subst;
      try lia; ring.
Qed.

Lemma Rsum_single_inside (f : nat -> R) (x d : nat) :
  (x < d)%nat ->
  Rsum (map (fun a => if (a =? x)%nat then f a else 0) (seq 0 d)) = f x.
Proof.
  intros Hx. rewrite Rsum_single.
  destruct (Nat.leb_spec 0 x), (Nat.ltb_spec x (0 + d)); cbn [andb];
    try reflexivity; lia.
Qed.

(** A sum over all the pairs of the loop nest, row by row. *)
Lemma Rsum_pairs (G : nat * nat -> R) (d : nat) :
  Rsum (map G (pairs_before d d 0))
  = Rsum (map (fun i => Rsum (map (fun j => G (i, j)) (seq 0 d))) (seq 0 d)).
Proof.
  unfold pairs_before. cbn [seq map]. rewrite app_nil_r, Rsum_flat_map.
  apply Rsum_map_ext. intros i _. now rewrite map_map.
Qed.

(** What a pair of full indices adds to the diagonal of the reduced matrix:
    the diagonal entries of [rho], once each, and nothing else. *)
Lemma diagonal_contribution (c : Complex -> R) (rho : Matrix) (n : nat)
      (S : list nat) (i j : nat) :
  c czero = 0 ->
  (n <= 31)%nat -> qubit_subset n S ->
  (i < 2 ^ n)%nat -> (j < 2 ^ n)%nat ->
  Rsum (map (fun a => c (contribution rho n S a a (i, j)))
            (seq 0 (2 ^ (n - length S))))
  = if (i =? j)%nat then c (entry rho i i) else 0.
Proof.
  intros Hc Hn HS Hi Hj. unfold contribution. cbn [fst snd].
  destruct (reduced_spec n S i Hn HS Hi) as [_ Hri].
  destruct (shouldInclude S (Z.of_nat i) (Z.of_nat j)) eqn:Hinc; cbn [andb].
  - destruct (Nat.eq_dec (reduced n S i) (reduced n S j)) as [Hr|Hr].
    + assert (i = j) by (now apply (reduced_inj n S)). subst j.
      rewrite Nat.eqb_refl.
      rewrite (Rsum_map_ext _ (fun a => if (a =? reduced n S i)%nat
                                        then c (entry rho i i) else 0)).
      * now apply (Rsum_single_inside (fun _ => c (entry rho i i))).
      * intros a _. rewrite (Nat.eqb_sym a).
        destruct (reduced n S i =? a)%nat; cbn [andb]; auto.
    + destruct (Nat.eqb_spec i j) as [->|_]; [congruence|].
      apply Rsum_map_zero. intros a _.
      destruct (Nat.eqb_spec (reduced n S i) a),
        (Nat.eqb_spec (reduced n S j) a); cbn [andb]; auto; congruence.
  - destruct (Nat.eqb_spec i j) as [->|_].
    + now rewrite shouldInclude_refl in Hinc.
    + apply Rsum_map_zero. auto.
Qed.

(** The partial trace keeps each component of the trace. *)
Lemma partial_trace_component (c : Complex -> R) (rho red : Matrix) (n : nat)
      (S : list nat) :
  c czero = 0 -> (forall l, c (Csum l) = Rsum (map c l)) ->
  (n <= 31)%nat -> qubit_subset n S ->
  (forall a, (a < 2 ^ (n - length S))%nat ->
     entry red a a
     = Csum (map (contribution rho n S a a) (pairs_before (2 ^ n) (2 ^ n) 0))) ->
  Rsum (map (fun a => c (entry red a a)) (seq 0 (2 ^ (n - length S))))
  = Rsum (map (fun i => c (entry rho i i)) (seq 0 (2 ^ n))).
Proof.
  intros Hc0 Hcs Hn HS Hent.
  rewrite (Rsum_map_ext _
             (fun a => Rsum (map (fun p => c (contribution rho n S a a p))
                                 (pairs_before (2 ^ n) (2 ^ n) 0)))).
  2:{ intros a Ha. apply in_seq in Ha. rewrite Hent by lia.
      now rewrite Hcs, map_map. }
  rewrite Rsum_swap, Rsum_pairs.
  apply Rsum_map_ext. intros i Hi. apply in_seq in Hi.
  rewrite (Rsum_map_ext _ (fun j => if (j =? i)%nat
                                    then c (entry rho i i) else 0)).
  - apply (Rsum_single_inside (fun _ => c (entry rho i i))). lia.
  - intros j Hj. apply in_seq in Hj.
    rewrite diagonal_contribution by (assumption || lia).
    now rewrite Nat.eqb_sym.
Qed.



Lemma matrix_ext (d : nat) (A B : Matrix) :
  square d A -> square d B ->
  (forall i j, (i < d)%nat -> (j < d)%nat -> entry A i j = entry B i j) ->
  A = B.
Proof.
  intros HA HB Hent.
  apply (nth_ext A B [] []); [destruct HA, HB; congruence|].
  intros i Hi. assert (Hid : (i < d)%nat) by (destruct HA; lia).
  apply (nth_ext _ _ czero czero).
  - now rewrite (square_row d A), (square_row d B).
  - intros j Hj. rewrite (square_row d A) in Hj by assumption.
    now apply Hent.
Qed.

(** C10: with the empty array of traced qubits the call returns a matrix
    of the dimension of [rho] with the entries of [rho]. *)
Theorem calculatePartialTrace_nothing (rho : Matrix) (n : nat) :
  (n <= 31)%nat -> square (2 ^ n) rho ->
  exists red,
    calculatePartialTrace rho n [] = Ok red
    /\ square (2 ^ n) red
    /\ (forall i j, (i < 2 ^ n)%nat -> (j < 2 ^ n)%nat ->
          entry red i j = entry rho i j)
    /\ red = rho.
Proof.
  intros Hn Hrho.
  assert (HS : qubit_subset n []) by (split; [constructor|intros q []]).
  destruct (calculatePartialTrace_ok rho n [] Hn HS Hrho)
    as (red & Hrun & Hsq & Hent).
  cbn [length] in Hsq, Hent. rewrite Nat.sub_0_r in Hsq, Hent.
  assert (Hsame : forall a b, (a < 2 ^ n)%nat -> (b < 2 ^ n)%nat ->
                    entry red a b = entry rho a b).
  { intros a b Ha Hb. rewrite Hent by assumption.
    assert (Hcomp : forall c : Complex -> R,
               c czero = 0 ->
               Rsum (map c (map (contribution rho n [] a b)
                                (pairs_before (2 ^ n) (2 ^ n) 0)))
               = c (entry rho a b)).
    { intros c Hc. rewrite map_map, Rsum_pairs.
      rewrite (Rsum_map_ext _ (fun i => if (i =? a)%nat
                                        then c (entry rho i b) else 0)).
      - now apply (Rsum_single_inside (fun i => c (entry rho i b))).
      - intros i Hi. apply in_seq in Hi.
        rewrite (Rsum_map_ext _ (fun j => if (j =? b)%nat
                                          then (if (i =? a)%nat
                                                then c (entry rho i j) else 0)
                                          else 0)).
        + now apply (Rsum_single_inside
                       (fun j => if (i =? a)%nat
                                 then c (entry rho i j) else 0)).
        + intros j Hj. apply in_seq in Hj.
          unfold contribution. cbn [fst snd shouldInclude forallb andb].
          rewrite !reduced_nil by (assumption || lia).
          destruct (i =? a)%nat, (j =? b)%nat; cbn [andb]; auto. }
    apply complex_eq.
    - apply (Hcomp re). reflexivity.
    - apply (Hcomp im). reflexivity. }
  exists red. split; [assumption|]. split; [assumption|].
  split; [assumption|]. now apply (matrix_ext (2 ^ n)).
Qed.

Lemma calculatePartialTrace_nothing_witness :
  calculatePartialTrace [[czero; cone]; [cone; czero]] 1 []
  = Ok [[czero; cone]; [cone; czero]].
Proof.
  destruct (calculatePartialTrace_nothing [[czero; cone]; [cone; czero]] 1)
    as (red & Hrun & _ & _ & ->).
  - lia.
  - split; [reflexivity|]. repeat constructor.
  - exact Hrun.
Defined.

Local Close Scope R_scope.

(** * Further properties of the engine *)

(** ** The initial state *)

Lemma basis_iteration_bits (inits : list QubitInit) (i : nat) (idx : Z) :
  (i < 31)%nat -> (i < length inits)%nat ->
  (0 <= idx < 2 ^ Z.of_nat i
   /\ forall k q, (k < i)%nat -> nth_error inits k = Some q ->
                  Z.testbit idx (Z.of_nat k) = String.eqb (value q) "1") ->
  exists idx',
    basis_iteration inits i idx = Ok idx'
    /\ 0 <= idx' < 2 ^ Z.of_nat (S i)
    /\ forall k q, (k < S i)%nat -> nth_error inits k = Some q ->
                   Z.testbit idx' (Z.of_nat k) = String.eqb (value q) "1".
Proof.
  intros Hi Hlen [Hidx Hbits].
  destruct (basis_iteration_bound inits i idx Hi Hlen Hidx) as (idx' & Hrun & Hb).
  exists idx'. split; [assumption|]. split; [assumption|].
  unfold basis_iteration in Hrun.
  destruct (get_inside inits i Hlen) as (qi & Hqi & Hget).
  rewrite Hget in Hrun. cbn [JS.bind] in Hrun. injection Hrun as <-.
  assert (Hpow : 2 ^ Z.of_nat i <= 2 ^ 30) by (apply pow2_le_mono; lia).
  intros k q Hk Hq.
  assert (Hhigh : Z.testbit idx (Z.of_nat i) = false)
    by (apply (testbit_high idx (Z.of_nat i)); lia).
  destruct (String.eqb (value qi) "1") eqn:E.
  - unfold JS.or. rewrite shl_one by lia. rewrite !to_int32_small by lia.
    rewrite Z.lor_spec, Z.pow2_bits_eqb by lia.
    destruct (Nat.eq_dec k i) as [->|Hne].
    + rewrite Z.eqb_refl, orb_true_r. congruence.
    + rewrite (Hbits k q) by (assumption || lia).
      destruct (Z.eqb_spec (Z.of_nat i) (Z.of_nat k)); [lia|].
      apply orb_false_r.
  - destruct (Nat.eq_dec k i) as [->|Hne].
    + rewrite Hhigh. congruence.
    + apply Hbits; [lia|assumption].
Qed.

(** X1: with an entry for every qubit, [createInitialState] returns the
    basis state of the index whose bit [i] is 1 exactly when
    [initialStates[i].value] is ['1']: amplitude 1 there, 0 elsewhere. *)
Theorem createInitialState_basis_state (n : nat) (inits : list QubitInit) :
  (n <= 31)%nat -> (n <= length inits)%nat ->
  exists st idx,
    createInitialState n inits = Ok st
    /\ length st = (2 ^ n)%nat
    /\ (idx < 2 ^ n)%nat
    /\ (forall i q, (i < n)%nat -> nth_error inits i = Some q ->
                    bit idx i = String.eqb (value q) "1")
    /\ forall k, (k < 2 ^ n)%nat ->
                 amp st k = if (k =? idx)%nat then cone else czero.
Proof.
  intros Hn Hlen. unfold createInitialState.
  rewrite new_array_ok by assumption. cbn [JS.bind]. rewrite dim_nat.
  destruct (for_loop_inv
              (fun m idx =>
                 0 <= idx < 2 ^ Z.of_nat m
                 /\ forall k q, (k < m)%nat -> nth_error inits k = Some q ->
                      Z.testbit idx (Z.of_nat k) = String.eqb (value q) "1")
              (basis_iteration inits) n 0)
    as (idx & Hrun & Hidx & Hbits).
  - split; [simpl; lia|]. intros k q Hk. lia.
  - intros i a Hi Ha. apply basis_iteration_bits; [lia|lia|assumption].
  - rewrite Hrun. cbn [JS.bind].
    assert (Hnat : (Z.to_nat idx < 2 ^ n)%nat) by (rewrite <- dim_nat; lia).
    exists (update (repeat czero (2 ^ n)) (Z.to_nat idx) cone), (Z.to_nat idx).
    split; [|split; [|split; [|split]]].
    + rewrite <- (Z2Nat.id idx) at 1 by lia. now rewrite set_of_nat.
    + now rewrite length_update, repeat_length.
    + assumption.
    + intros i q Hi Hq. unfold bit. rewrite Z2Nat.id by lia.
      now apply Hbits.
    + intros k Hk. rewrite amp_update by (rewrite repeat_length; lia).
      destruct (k =? Z.to_nat idx)%nat; [reflexivity|].
      apply amp_repeat_czero.
Qed.

Lemma createInitialState_basis_state_witness :
  exists st idx,
    createInitialState 2 [mkQubitInit "0" 0; mkQubitInit "1" 0] = Ok st
    /\ bit idx 0 = false /\ bit idx 1 = true
    /\ amp st idx = cone.
Proof.
  destruct (createInitialState_basis_state
              2 [mkQubitInit "0" 0; mkQubitInit "1" 0])
    as (st & idx & Hrun & _ & Hidx & Hbits & Hamp); [lia|simpl; lia|].
  exists st, idx. split; [assumption|]. split; [|split].
  - apply (Hbits 0%nat (mkQubitInit "0" 0)); [lia|reflexivity].
  - apply (Hbits 1%nat (mkQubitInit "1" 0)); [lia|reflexivity].
  - rewrite Hamp by assumption. now rewrite Nat.eqb_refl.
Defined.

(** ** A freshly initialised editor *)

Lemma existsb_all_false {A : Type} (f : A -> bool) (l : list A) :
  (forall x, In x l -> f x = false) -> existsb f l = false.
Proof.
  induction l as [|x l IH]; intros H; cbn [existsb]; [reflexivity|].
  rewrite H by now left. apply IH. intros y Hy. apply H. now right.
Qed.

Lemma map_const_repeat {A B : Type} (b : B) (a : A) (n : nat) :
  map (fun _ => b) (repeat a n) = repeat b n.
Proof.
  induction n as [|n IH]; cbn [repeat map]; [reflexivity|now rewrite IH].
Qed.

Lemma gate_at_empty (n d row col : nat) :
  gate_at (repeat (repeat (mkCell None) d) n) row col = None.
Proof.
  unfold gate_at.
  destruct (Nat.lt_ge_cases row n) as [Hr|Hr].
  - rewrite nth_repeat_lt by assumption.
    destruct (Nat.lt_ge_cases col d) as [Hc|Hc].
    + now rewrite nth_repeat_lt.
    + now rewrite nth_overflow by (rewrite repeat_length; lia).
  - rewrite (nth_overflow (repeat _ n)) by (rewrite repeat_length; lia).
    now destruct col.
Qed.

Lemma well_formed_empty (n d : nat) :
  well_formed n d (repeat (repeat (mkCell None) d) n).
Proof.
  split; [apply repeat_length|]. apply Forall_forall.
  intros row Hrow. apply repeat_spec in Hrow. subst row. apply repeat_length.
Qed.

Lemma createInitialState_all_zero (n : nat) :
  (n <= 31)%nat ->
  createInitialState n (repeat (mkQubitInit "0" 0) n)
  = Ok (update (repeat czero (2 ^ n)) 0 cone).
Proof.
  intros Hn. unfold createInitialState.
  rewrite new_array_ok by assumption. cbn [JS.bind]. rewrite dim_nat.
  rewrite (for_loop_eq (fun _ idx => idx = 0) (basis_iteration _) n 0 0).
  - reflexivity.
  - reflexivity.
  - intros i a Hi ->. unfold basis_iteration.
    rewrite get_of_nat, nth_error_repeat by assumption.
    cbn [JS.bind value]. now exists 0.
  - intros a Ha. exact Ha.
Qed.

(** X2: the circuit and the initial states [initializeCircuit] builds are
    a gate-free grid of [numQubits] rows and [maxDepth] columns with every
    qubit at ['0'], and [simulateCircuit] on them returns the one-step
    history of the state |0...0>. *)
Theorem fresh_circuit_history (n d : nat) :
  (n <= 31)%nat -> Z.of_nat d <= 2 ^ 32 - 1 ->
  exists circuit inits,
    initializeCircuit n d = Ok (circuit, inits)
    /\ well_formed n d circuit
    /\ (forall row col, gate_at circuit row col = None)
    /\ inits = repeat (mkQubitInit "0" 0) n
    /\ simulateCircuit n d circuit inits
       = Ok [mkStep 0 (update (repeat czero (2 ^ n)) 0 cone) "Initial state"].
Proof.
  intros Hn Hd.
  exists (repeat (repeat (mkCell None) d) n), (repeat (mkQubitInit "0" 0) n).
  split; [|split; [apply well_formed_empty|split;
                   [intros; apply gate_at_empty|split; [reflexivity|]]]].
  - unfold initializeCircuit, new_array.
    destruct (Z.leb_spec 0 (Z.of_nat n)); [|lia].
    destruct (Z.leb_spec (Z.of_nat n) (2 ^ 32 - 1)); [|lia].
    destruct (Z.leb_spec 0 (Z.of_nat d)); [|lia].
    destruct (Z.leb_spec (Z.of_nat d) (2 ^ 32 - 1)); [|lia].
    cbn [andb JS.bind]. rewrite !Nat2Z.id.
    destruct n as [|n]; [reflexivity|].
    cbn [repeat JS.bind map]. now rewrite map_const_repeat.
  - unfold simulateCircuit.
    rewrite createInitialState_all_zero by assumption. cbn [JS.bind].
    rewrite (scan_cols_ok n d) by (apply well_formed_empty || lia).
    rewrite existsb_all_false; [reflexivity|].
    intros col _. apply existsb_all_false. intros row _.
    unfold has_gate. now rewrite gate_at_empty.
Qed.

Lemma fresh_circuit_history_witness :
  exists circuit inits,
    initializeCircuit 3 10 = Ok (circuit, inits)
    /\ simulateCircuit 3 10 circuit inits
       = Ok [mkStep 0 (update (repeat czero (2 ^ 3)) 0 cone) "Initial state"].
Proof.
  destruct (fresh_circuit_history 3 10) as (c & inits & H1 & _ & _ & _ & H2);
    [lia|lia|].
  exists c, inits. split; assumption.
Defined.

(** ** Every step of a history *)





(** ** Composition of gates *)

Lemma state_ext (N : nat) (s1 s2 : StateVector) :
  length s1 = N -> length s2 = N ->
  (forall k, (k < N)%nat -> amp s1 k = amp s2 k) -> s1 = s2.
Proof.
  intros H1 H2 Hamp. apply (nth_ext s1 s2 czero czero); [congruence|].
  intros k Hk. apply Hamp. lia.
Qed.

Lemma flip_lt (n k q : nat) :
  (n <= 31)%nat -> (k < 2 ^ n)%nat -> (q < n)%nat -> (flip k q < 2 ^ n)%nat.
Proof.
  intros Hn Hk Hq. now destruct (flippedIndex_flip n k q Hn Hk Hq).
Qed.











(** ** What single gates do to the amplitudes *)



(** X7: the X gate exchanges the two amplitudes of every pair: after the
    call the amplitude of index [k] is the old amplitude of [k] with bit
    [q] flipped. *)
Theorem x_gate_swaps_pairs (old : StateVector) (n q : nat) :
  (n <= 31)%nat -> (q < n)%nat -> length old = (2 ^ n)%nat ->
  exists new,
    applySingleQubitGate old xMatrix q n = Ok new
    /\ length new = (2 ^ n)%nat
    /\ forall k, (k < 2 ^ n)%nat -> amp new k = amp old (flip k q).
Proof.
  intros Hn Hq Hold.
  destruct (applySingleQubitGate_spec xMatrix old n q Hn Hq Hold)
    as (new & Hrun & Hlen & Hamp).
  exists new. split; [assumption|]. split; [assumption|].
  intros k Hk. rewrite Hamp by assumption. unfold gate_out, xMatrix.
  cbn [m00 m01 m10 m11].
  destruct (bit k q); complex_ring.
Qed.

Lemma x_gate_swaps_pairs_witness :
  exists new,
    applySingleQubitGate [cone; czero; czero; czero] xMatrix 0 2 = Ok new
    /\ amp new 1 = cone.
Proof.
  destruct (x_gate_swaps_pairs [cone; czero; czero; czero] 2 0)
    as (new & Hrun & _ & Hamp); [lia|lia|reflexivity|].
  exists new. split; [assumption|].
  rewrite Hamp by (simpl; lia). reflexivity.
Defined.

(** X8: a qubit number outside the register makes [applySingleQubitGate]
    throw: the first iteration reads [newState[1 << qubit]], which is not
    there, before anything is copied back to [state]. *)
Theorem qubit_out_of_register_throws
        (M : Matrix2) (old : StateVector) (n q : nat) :
  (n <= q <= 30)%nat -> length old = (2 ^ n)%nat ->
  applySingleQubitGate old M q n = Err TypeError.
Proof.
  intros Hq Hold. unfold applySingleQubitGate. cbv zeta.
  rewrite new_array_ok by lia. cbn [JS.bind]. rewrite dim_nat.
  assert (Hpos : (0 < 2 ^ n)%nat) by (apply Nat.neq_0_lt_0, Nat.pow_nonzero; lia).
  rewrite (for_loop_throws
             (fun _ (ns : StateVector) => length ns = (2 ^ n)%nat)
             (gate_iteration old M q) (2 ^ n) 0 TypeError
             (repeat czero (2 ^ n)));
    [reflexivity|assumption|apply repeat_length|intros i a Hi; lia|].
  intros ns Hns. unfold gate_iteration. cbv zeta.
  assert (Hsar : JS.and (sar (Z.of_nat 0) (Z.of_nat q)) 1 = 0).
  { unfold JS.and, sar. cbn [Z.of_nat]. rewrite (to_int32_small 0) by lia.
    now rewrite Z.shiftr_0_l. }
  rewrite Hsar. cbn [Z.eqb].
  rewrite (get_amp ns 0) by lia. cbn [JS.bind].
  rewrite (get_amp old 0) by lia. cbn [JS.bind].
  unfold JS.xor. rewrite shl_one by lia. cbn [Z.of_nat].
  assert (Hbig : 2 ^ Z.of_nat n <= 2 ^ Z.of_nat q <= 2 ^ 30)
    by (split; apply pow2_le_mono; lia).
  assert (Hn0 : 0 < 2 ^ Z.of_nat n) by (apply Z.pow_pos_nonneg; lia).
  rewrite !to_int32_small by lia. rewrite Z.lxor_0_l.
  rewrite <- (Z2Nat.id (2 ^ Z.of_nat q)) by lia.
  rewrite get_outside; [reflexivity|].
  rewrite length_set, Hns, <- dim_nat. lia.
Qed.

Lemma qubit_out_of_register_throws_witness :
  applySingleQubitGate [cone; czero] xMatrix 1 1 = Err TypeError.
Proof.
  apply (qubit_out_of_register_throws xMatrix [cone; czero] 1 1);
    [lia|reflexivity].
Defined.

(** ** The mock simulator against the engine *)

Lemma update_map {A B : Type} (f : A -> B) (l : list A) :
  forall i v, update (map f l) i (f v) = map f (update l i v).
Proof.
  induction l as [|x l IH]; intros [|i] v; cbn [map update]; try reflexivity.
  now rewrite IH.
Qed.

Lemma mock_read_defined (st : StateVector) (k : nat) :
  (k < length st)%nat ->
  mock_read (map Some st) (Z.of_nat k) = Some (amp st k).
Proof.
  intros Hk. unfold mock_read.
  destruct (Z.ltb_spec (Z.of_nat k) 0); [lia|].
  rewrite Nat2Z.id, nth_error_map.
  destruct (get_inside st k Hk) as (x & Hx & _). rewrite Hx. cbn [option_map].
  unfold amp. now rewrite (nth_error_nth st k czero Hx).
Qed.

Lemma mock_store_defined (st : StateVector) (k : nat) (v : Complex) :
  (k < length st)%nat ->
  mock_store (map Some st) (Z.of_nat k) (Some v) = map Some (update st k v).
Proof.
  intros Hk. unfold mock_store.
  destruct (Z.ltb_spec (Z.of_nat k) 0); [lia|].
  rewrite Nat2Z.id, length_map.
  destruct (Nat.ltb_spec k (length st)); [|lia].
  apply update_map.
Qed.

(** The amplitude [applyMockHadamard] computes for index [k]. *)
Lemma hadamard_out (old : StateVector) (q k : nat) :
  gate_out hadamardMatrix old q k
  = if bit k q
    then mkComplex
           (1 / sqrt 2 * (re (amp old (flip k q)) - re (amp old k)))
           (1 / sqrt 2 * (im (amp old (flip k q)) - im (amp old k)))
    else mkComplex
           (1 / sqrt 2 * (re (amp old k) + re (amp old (flip k q))))
           (1 / sqrt 2 * (im (amp old k) + im (amp old (flip k q)))).
Proof.
  unfold gate_out, hadamardMatrix. cbn [m00 m01 m10 m11].
  destruct (bit k q); apply complex_eq;
    unfold complexAdd, complexMultiply; cbn [re im]; unfold Rdiv; ring.
Qed.

Lemma x_out (old : StateVector) (q k : nat) :
  gate_out xMatrix old q k = amp old (flip k q).
Proof.
  unfold gate_out, xMatrix. cbn [m00 m01 m10 m11].
  destruct (bit k q); complex_ring.
Qed.

(** Whether the pair of index [k] has been rewritten after [m] iterations
    of [applyMockHadamard]. *)
Lemma pair_done_step (q m k : nat) :
  k <> m -> k <> flip m q ->
  (if bit k q then (flip k q <? S m)%nat else (k <? S m)%nat)
  = (if bit k q then (flip k q <? m)%nat else (k <? m)%nat).
Proof.
  intros H1 H2.
  assert (H3 : flip k q <> m)
    by (intros E; apply H2; rewrite <- E; symmetry; apply flip_flip).
  rewrite !ltb_succ.
  destruct (Nat.eqb_spec k m); [contradiction|].
  destruct (Nat.eqb_spec (flip k q) m); [contradiction|].
  now rewrite !orb_false_r.
Qed.

Lemma applyMockHadamard_engine (old : StateVector) (n q : nat) :
  (n <= 31)%nat -> (q < n)%nat -> length old = (2 ^ n)%nat ->
  exists new,
    applySingleQubitGate old hadamardMatrix q n = Ok new
    /\ length new = (2 ^ n)%nat
    /\ applyMockHadamard (map Some old) q n = Ok (map Some new).
Proof.
  intros Hn Hq Hold.
  destruct (applySingleQubitGate_spec hadamardMatrix old n q Hn Hq Hold)
    as (new & Hrun & Hlen & Hamp).
  exists new. split; [assumption|]. split; [assumption|].
  unfold applyMockHadamard. cbv zeta. rewrite dim_nat.
  apply (for_loop_eq
           (fun m (sv : MockVector) =>
              exists cur : StateVector,
                sv = map Some cur /\ length cur = (2 ^ n)%nat
                /\ forall k, (k < 2 ^ n)%nat ->
                     amp cur k
                     = if (if bit k q then (flip k q <? m)%nat
                           else (k <? m)%nat)
                       then gate_out hadamardMatrix old q k
                       else amp old k)).
  - exists old. split; [reflexivity|]. split; [assumption|].
    intros k Hk. destruct (bit k q); reflexivity.
  - intros i sv Hi (cur & -> & Hcur & Hinv).
    unfold mock_hadamard_iteration. cbv zeta.
    rewrite (qubitValue_bit n i q Hn Hi Hq).
    destruct (flippedIndex_flip n i q Hn Hi Hq) as [-> Hf].
    pose proof (flip_neq i q) as Hne.
    pose proof (bit_flip i q q) as Hbf. rewrite Nat.eqb_refl in Hbf.
    destruct (bit i q) eqn:Hb; cbn [Z.b2z Z.eqb].
    + eexists. split; [reflexivity|]. exists cur.
      split; [reflexivity|]. split; [assumption|].
      intros k Hk. rewrite Hinv by assumption.
      destruct (Nat.eq_dec k i) as [->|H1].
      * rewrite Hb. destruct (Nat.eq_dec (flip i q) i); [contradiction|].
        rewrite ltb_succ.
        destruct (Nat.eqb_spec (flip i q) i); [contradiction|].
        now rewrite orb_false_r.
      * destruct (Nat.eq_dec k (flip i q)) as [->|H2].
        -- rewrite Hbf. cbn [xorb]. rewrite ltb_succ.
           destruct (Nat.eqb_spec (flip i q) i); [contradiction|].
           now rewrite orb_false_r.
        -- now rewrite pair_done_step.
    + rewrite !mock_read_defined by lia. cbn [mock_field JS.bind].
      rewrite mock_store_defined by lia.
      rewrite mock_store_defined by (rewrite length_update; lia).
      eexists. split; [reflexivity|]. eexists.
      split; [reflexivity|]. split; [now rewrite !length_update|].
      intros k Hk. rewrite !amp_update by (rewrite ?length_update; lia).
      destruct (Nat.eqb_spec k (flip i q)) as [->|H2].
      * rewrite Hbf, flip_flip. cbn [xorb].
        rewrite (proj2 (Nat.ltb_lt i (S i))) by lia.
        rewrite hadamard_out, Hbf, flip_flip. reflexivity.
      * destruct (Nat.eqb_spec k i) as [->|H1].
        -- rewrite Hb. rewrite (proj2 (Nat.ltb_lt i (S i))) by lia.
           rewrite hadamard_out, Hb. reflexivity.
        -- rewrite pair_done_step by assumption. now apply Hinv.
  - intros sv (cur & -> & Hcur & Hinv). f_equal.
    apply (state_ext (2 ^ n)); [assumption..|].
    intros k Hk. rewrite Hinv, Hamp by assumption.
    pose proof (flip_lt n k q Hn Hk Hq) as Hf.
    destruct (bit k q).
    + destruct (Nat.ltb_spec (flip k q) (2 ^ n)); [reflexivity|lia].
    + destruct (Nat.ltb_spec k (2 ^ n)); [reflexivity|lia].
Qed.

Lemma applyMockX_engine (old : StateVector) (n q : nat) :
  (n <= 31)%nat -> (q < n)%nat -> length old = (2 ^ n)%nat ->
  exists new,
    applySingleQubitGate old xMatrix q n = Ok new
    /\ length new = (2 ^ n)%nat
    /\ applyMockX (map Some old) q n = Ok (map Some new).
Proof.
  intros Hn Hq Hold.
  destruct (applySingleQubitGate_spec xMatrix old n q Hn Hq Hold)
    as (new & Hrun & Hlen & Hamp).
  exists new. split; [assumption|]. split; [assumption|].
  unfold applyMockX. cbv zeta. rewrite dim_nat.
  apply (for_loop_eq
           (fun m (sv : MockVector) =>
              exists cur : StateVector,
                sv = map Some cur /\ length cur = (2 ^ n)%nat
                /\ forall k, (k < 2 ^ n)%nat ->
                     amp cur k = if (k <? m)%nat then amp old (flip k q)
                                 else amp old k)).
  - exists old. split; [reflexivity|]. split; [assumption|].
    intros k Hk. reflexivity.
  - intros i sv Hi (cur & -> & Hcur & Hinv).
    destruct (flippedIndex_flip n i q Hn Hi Hq) as [-> Hf].
    rewrite mock_read_defined by lia.
    rewrite mock_store_defined by lia.
    eexists. split; [reflexivity|]. eexists.
    split; [reflexivity|]. split; [now rewrite length_update|].
    intros k Hk. rewrite amp_update by lia. rewrite ltb_succ.
    destruct (Nat.eqb_spec k i) as [->|]; [now rewrite orb_true_r|].
    rewrite orb_false_r. now apply Hinv.
  - intros sv (cur & -> & Hcur & Hinv). f_equal.
    apply (state_ext (2 ^ n)); [assumption..|].
    intros k Hk. rewrite Hinv, Hamp, x_out by assumption.
    destruct (Nat.ltb_spec k (2 ^ n)); [reflexivity|lia].
Qed.



Lemma mock_gates_engine (n : nat) (gates : list QGate) :
  (n <= 31)%nat ->
  Forall (fun g => (String.eqb (q_name g) "h" || String.eqb (q_name g) "x")%bool
                   = true -> (first_qubit g < n)%nat) gates ->
  forall st : StateVector, length st = (2 ^ n)%nat ->
  exists st',
    apply_gates n (engine_gates gates) st = Ok st'
    /\ length st' = (2 ^ n)%nat
    /\ mock_gates n gates (map Some st) = Ok (map Some st').
Proof.
  intros Hn Hgates. induction Hgates as [|g rest Hg _ IH]; intros st Hst.
  - exists st. repeat split; assumption.
  - cbn [mock_gates engine_gates flat_map]. unfold mock_gate.
    fold (engine_gates rest).
    destruct (String.eqb (q_name g) "h") eqn:Eh.
    + destruct (applyMockHadamard_engine st n (first_qubit g) Hn)
        as (mid & H1 & Hl & H2); [now apply Hg|assumption|].
      destruct (IH mid Hl) as (st' & H3 & Hl' & H4).
      exists st'. cbn [app apply_gates]. rewrite H1, H2. cbn [JS.bind].
      repeat split; assumption.
    + destruct (String.eqb (q_name g) "x") eqn:Ex.
      * destruct (applyMockX_engine st n (first_qubit g) Hn)
          as (mid & H1 & Hl & H2); [now apply Hg|assumption|].
        destruct (IH mid Hl) as (st' & H3 & Hl' & H4).
        exists st'. cbn [app apply_gates]. rewrite H1, H2. cbn [JS.bind].
        repeat split; assumption.
      * cbn [app JS.bind]. now apply IH.
Qed.




(** ** Entropy *)

Local Open Scope R_scope.

Lemma ln_le_minus_one (y : R) : 0 < y -> ln y <= y - 1.
Proof.
  intros Hy. pose proof (exp_ineq1_le (ln y)) as H.
  rewrite exp_ln in H by assumption. lra.
Qed.

Lemma ln2_pos : 0 < ln 2.
Proof. pose proof ln_lt_2. lra. Qed.

(** The binary entropy of a probability strictly between 0 and 1 is between
    0 and 1. *)
Lemma binary_entropy_bounds (l : R) :
  0 < l < 1 ->
  0 <= - l * Rlog2 l - (1 - l) * Rlog2 (1 - l) <= 1.
Proof.
  intros Hl. unfold Rlog2. pose proof ln2_pos as H2.
  assert (Hl0 : ln l < 0)
    by (rewrite <- ln_1; apply ln_increasing; lra).
  assert (Hl1 : ln (1 - l) < 0)
    by (rewrite <- ln_1; apply ln_increasing; lra).
  assert (Ha : l * (- ln 2 - ln l) <= 1 / 2 - l).
  { pose proof (ln_le_minus_one (/ (2 * l))) as H.
    rewrite ln_Rinv, ln_mult in H by lra.
    assert (Hinv : l * / (2 * l) = 1 / 2) by (field; lra).
    assert (Hpos : 0 < / (2 * l)) by (apply Rinv_0_lt_compat; lra).
    specialize (H Hpos). nra. }
  assert (Hb : (1 - l) * (- ln 2 - ln (1 - l)) <= 1 / 2 - (1 - l)).
  { pose proof (ln_le_minus_one (/ (2 * (1 - l)))) as H.
    rewrite ln_Rinv, ln_mult in H by lra.
    assert (Hinv : (1 - l) * / (2 * (1 - l)) = 1 / 2) by (field; lra).
    assert (Hpos : 0 < / (2 * (1 - l))) by (apply Rinv_0_lt_compat; lra).
    specialize (H Hpos). nra. }
  replace (- l * (ln l / ln 2) - (1 - l) * (ln (1 - l) / ln 2))
    with ((- l * ln l - (1 - l) * ln (1 - l)) * / ln 2) by (field; lra).
  assert (Hinv2 : 0 < / ln 2) by (apply Rinv_0_lt_compat; lra).
  split.
  - apply Rmult_le_pos; [nra|lra].
  - apply (Rmult_le_reg_r (ln 2)); [assumption|].
    rewrite Rmult_assoc, Rinv_l by lra. lra.
Qed.

(** The reads of a 2 x 2 matrix do not throw. *)
Lemma read_two_by_two (dm : Matrix) :
  square 2 dm ->
  get dm 0 = Ok (nth 0 dm []) /\ get dm 1 = Ok (nth 1 dm [])
  /\ get (nth 0 dm []) 0 = Ok (entry dm 0 0)
  /\ get (nth 0 dm []) 1 = Ok (entry dm 0 1)
  /\ get (nth 1 dm []) 0 = Ok (entry dm 1 0)
  /\ get (nth 1 dm []) 1 = Ok (entry dm 1 1).
Proof.
  intros Hsq.
  pose proof (square_row 2 dm 0 Hsq) as H0.
  pose proof (square_row 2 dm 1 Hsq) as H1.
  destruct Hsq as [Hlen _].
  change 0%Z with (Z.of_nat 0). change 1%Z with (Z.of_nat 1).
  unfold entry.
  repeat split; apply get_nth; rewrite ?H0, ?H1; lia.
Qed.

Lemma entropy_of_two_by_two (dm : Matrix) :
  square 2 dm ->
  exists v, calculateVonNeumannEntropy dm = Ok (Entropy v)
            /\ (v = NaN \/ exists x, v = Num x /\ 0 <= x <= 1).
Proof.
  intros Hsq. unfold calculateVonNeumannEntropy.
  destruct (read_two_by_two dm Hsq) as (-> & -> & H00 & H01 & H10 & H11).
  destruct Hsq as [-> _]. cbn [Nat.eqb JS.bind].
  rewrite H00. cbn [JS.bind]. rewrite H11. cbn [JS.bind].
  rewrite H01. cbn [JS.bind]. rewrite H10. cbn [JS.bind]. cbv zeta.
  unfold js_sqrt.
  destruct (Rlt_dec _ 0) as [|Hnn]; [eexists; split; [reflexivity|now left]|].
  destruct (Rle_dec _ 0) as [|Hpos];
    [eexists; split; [reflexivity|right; exists 0; split; [reflexivity|lra]]|].
  destruct (Rle_dec 1 _) as [|Hlt];
    [eexists; split; [reflexivity|right; exists 0; split; [reflexivity|lra]]|].
  eexists. split; [reflexivity|]. right. eexists. split; [reflexivity|].
  apply binary_entropy_bounds. lra.
Qed.

Lemma entropy_needs_two_by_two (dm : Matrix) :
  length dm <> 2%nat ->
  calculateVonNeumannEntropy dm
  = Ok (Message "Calculation requires eigenvalue decomposition").
Proof.
  intros Hd. unfold calculateVonNeumannEntropy.
  destruct (Nat.eqb_spec (length dm) 2); [contradiction|reflexivity].
Qed.

(** X11: on a 2 x 2 matrix [calculateVonNeumannEntropy] returns NaN or a
    number between 0 and 1; on a square matrix of any other dimension it
    returns the message and no number. *)
Theorem calculateVonNeumannEntropy_range (dm : Matrix) (d : nat) :
  square d dm ->
  (d = 2%nat ->
   exists v, calculateVonNeumannEntropy dm = Ok (Entropy v)
             /\ (v = NaN \/ exists x, v = Num x /\ 0 <= x <= 1))
  /\ (d <> 2%nat ->
      calculateVonNeumannEntropy dm
      = Ok (Message "Calculation requires eigenvalue decomposition")).
Proof.
  intros Hsq. split.
  - intros ->. now apply entropy_of_two_by_two.
  - intros Hd. apply entropy_needs_two_by_two. destruct Hsq as [-> _].
    assumption.
Qed.

Lemma calculateVonNeumannEntropy_range_witness :
  exists v,
    calculateVonNeumannEntropy [[cone; czero]; [czero; czero]] = Ok (Entropy v)
    /\ (v = NaN \/ exists x, v = Num x /\ 0 <= x <= 1).
Proof.
  destruct (calculateVonNeumannEntropy_range
              [[cone; czero]; [czero; czero]] 2) as [H _].
  - split; [reflexivity|]. repeat constructor.
  - apply H. reflexivity.
Defined.

Lemma log2_half : Rlog2 (1 / 2) = -1.
Proof.
  unfold Rlog2. pose proof ln2_pos.
  replace (1 / 2) with (/ 2) by lra.
  rewrite ln_Rinv by lra. field. lra.
Qed.

(** The two outcomes of the entropy on the density matrix of a qubit. *)
Lemma qubit_entropy_cases (dm : Matrix) :
  square 2 dm ->
  entry dm 1 0 = conjugate (entry dm 0 1) ->
  re (entry dm 0 0) + re (entry dm 1 1) = 1 ->
  0 <= re (entry dm 0 0) -> 0 <= re (entry dm 1 1) ->
  abs2 (entry dm 0 1) <= re (entry dm 0 0) * re (entry dm 1 1) ->
  calculateVonNeumannEntropy dm = Ok (Entropy NaN)
  \/ (calculateVonNeumannEntropy dm = Ok (Entropy (Num 1))
      /\ re (entry dm 0 0) = 1 / 2 /\ re (entry dm 0 1) = 0).
Proof.
  intros Hsq Hherm Htr Ha Hc Hpsd.
  unfold calculateVonNeumannEntropy.
  destruct (read_two_by_two dm Hsq) as (-> & -> & H00 & H01 & H10 & H11).
  destruct Hsq as [-> _]. cbn [Nat.eqb JS.bind].
  rewrite H00. cbn [JS.bind]. rewrite H11. cbn [JS.bind].
  rewrite H01. cbn [JS.bind]. rewrite H10. cbn [JS.bind]. cbv zeta.
  rewrite Hherm. unfold conjugate, abs2 in *. cbn [re im].
  set (a := re (entry dm 0 0)) in *. set (c := re (entry dm 1 1)) in *.
  set (x := re (entry dm 0 1)) in *. set (y := im (entry dm 0 1)) in *.
  replace (y * - y) with (- (y * y)) by ring.
  assert (Hc1 : c = 1 - a) by lra.
  assert (H4 : 4 * (a * c) <= 1).
  { rewrite Hc1. pose proof (Rle_0_sqr (2 * a - 1)) as Hs.
    unfold Rsqr in Hs. lra. }
  assert (Hx : 0 <= x * x) by apply Rle_0_sqr.
  assert (Hy : 0 <= y * y) by apply Rle_0_sqr.
  unfold js_sqrt.
  destruct (Rlt_dec (2 * (a * c - x * x - - (y * y)) - 1) 0) as [|Hnn];
    [now left|right].
  assert (Hzero : 2 * (a * c - x * x - - (y * y)) - 1 = 0) by lra.
  rewrite Hzero, sqrt_0.
  replace (1 / 2 * (1 + 0)) with (1 / 2) by lra.
  destruct (Rle_dec (1 / 2) 0) as [|_]; [lra|].
  destruct (Rle_dec 1 (1 / 2)) as [|_]; [lra|].
  split; [|split].
  - do 3 f_equal. replace (1 - 1 / 2) with (1 / 2) by lra.
    rewrite log2_half. lra.
  - assert (Hsq0 : (2 * a - 1) * (2 * a - 1) = 0) by (rewrite Hc1 in *; lra).
    apply Rmult_integral in Hsq0. lra.
  - assert (Hx0 : x * x = 0) by lra.
    apply Rmult_integral in Hx0. lra.
Qed.

(** X12: on the density matrix of a qubit (2 x 2, Hermitian, trace 1,
    positive semidefinite) the quantity under the square root,
    [2 * purity - 1], is never positive: the call returns NaN, or 1 in the
    one case where it is zero ([rho00 = rho11 = 1/2] and [rho01] purely
    imaginary).  It never returns 0, not even for a pure state. *)
Theorem calculateVonNeumannEntropy_of_qubit (dm : Matrix) :
  square 2 dm ->
  entry dm 1 0 = conjugate (entry dm 0 1) ->
  re (entry dm 0 0) + re (entry dm 1 1) = 1 ->
  0 <= re (entry dm 0 0) -> 0 <= re (entry dm 1 1) ->
  abs2 (entry dm 0 1) <= re (entry dm 0 0) * re (entry dm 1 1) ->
  (calculateVonNeumannEntropy dm = Ok (Entropy NaN)
   \/ (calculateVonNeumannEntropy dm = Ok (Entropy (Num 1))
       /\ re (entry dm 0 0) = 1 / 2 /\ re (entry dm 0 1) = 0))
  /\ calculateVonNeumannEntropy dm <> Ok (Entropy (Num 0)).
Proof.
  intros Hsq Hherm Htr Ha Hc Hpsd.
  pose proof (qubit_entropy_cases dm Hsq Hherm Htr Ha Hc Hpsd) as Hcases.
  split; [exact Hcases|].
  destruct Hcases as [->|[-> _]]; [discriminate|].
  intros E. injection E. lra.
Qed.

Lemma calculateVonNeumannEntropy_of_qubit_witness :
  calculateVonNeumannEntropy [[cone; czero]; [czero; czero]]
  <> Ok (Entropy (Num 0)).
Proof.
  apply (calculateVonNeumannEntropy_of_qubit [[cone; czero]; [czero; czero]]).
  - split; [reflexivity|]. repeat constructor.
  - unfold entry, conjugate, czero. cbn [nth re im]. f_equal. lra.
  - unfold entry, cone, czero. cbn [nth re]. lra.
  - unfold entry, cone. cbn [nth re]. lra.
  - unfold entry, czero. cbn [nth re]. lra.
  - unfold entry, abs2, cone, czero. cbn [nth re im]. lra.
Defined.

Local Close Scope R_scope.

Lemma complement_subset (n : nat) (A : list nat) :
  qubit_subset n (filter (fun i => negb (existsb (Nat.eqb i) A)) (seq 0 n)).
Proof.
  split; [apply NoDup_filter, seq_NoDup|].
  intros q Hq. apply filter_In in Hq. destruct Hq as [Hq _].
  apply in_seq in Hq. lia.
Qed.

Lemma complement_length (n : nat) (A : list nat) :
  (n - length (filter (fun i => negb (existsb (Nat.eqb i) A)) (seq 0 n)))%nat
  = length (filter (fun i => existsb (Nat.eqb i) A) (seq 0 n)).
Proof.
  pose proof (filter_length (fun i => existsb (Nat.eqb i) A) (seq 0 n)) as H.
  rewrite length_seq in H. lia.
Qed.

(** The matrix [calculateEntanglementEntropy] hands to the entropy. *)
Lemma entanglement_reduced (psi : StateVector) (n : nat) (A : list nat) :
  (n <= 31)%nat -> length psi = (2 ^ n)%nat ->
  exists rho red,
    calculateDensityMatrix psi = Ok rho
    /\ calculatePartialTrace
         rho n (filter (fun i => negb (existsb (Nat.eqb i) A)) (seq 0 n))
       = Ok red
    /\ square
         (2 ^ length (filter (fun i => existsb (Nat.eqb i) A) (seq 0 n))) red
    /\ calculateEntanglementEntropy psi n A = calculateVonNeumannEntropy red.
Proof.
  intros Hn Hpsi.
  destruct (calculateDensityMatrix_ok psi) as (rho & Hrho & Hsq & _).
  rewrite Hpsi in Hsq.
  destruct (calculatePartialTrace_ok rho n _ Hn (complement_subset n A) Hsq)
    as (red & Hred & Hsqr & _).
  rewrite complement_length in Hsqr.
  exists rho, red. repeat split; try assumption; try apply Hsqr.
  unfold calculateEntanglementEntropy. rewrite Hrho. cbn [JS.bind]. cbv zeta.
  rewrite Hred. reflexivity.
Qed.

(** X13: [calculateEntanglementEntropy] gives a number (NaN or a value
    between 0 and 1) exactly when [qubitsA] names one qubit of the register;
    when it names none or several, the reduced matrix is not 2 x 2 and the
    result is the message. *)
Theorem calculateEntanglementEntropy_kinds
        (psi : StateVector) (n : nat) (A : list nat) :
  (n <= 31)%nat -> length psi = (2 ^ n)%nat ->
  let k := length (filter (fun i => existsb (Nat.eqb i) A) (seq 0 n)) in
  (k = 1%nat ->
   exists v, calculateEntanglementEntropy psi n A = Ok (Entropy v)
             /\ (v = NaN \/ exists x, v = Num x /\ (0 <= x <= 1)%R))
  /\ (k <> 1%nat ->
      calculateEntanglementEntropy psi n A
      = Ok (Message "Calculation requires eigenvalue decomposition")).
Proof.
  intros Hn Hpsi k.
  destruct (entanglement_reduced psi n A Hn Hpsi)
    as (rho & red & _ & _ & Hsq & ->).
  fold k in Hsq. split.
  - intros Hk. rewrite Hk in Hsq. now apply entropy_of_two_by_two.
  - intros Hk. apply entropy_needs_two_by_two. destruct Hsq as [-> _].
    intros E. apply Hk. apply (Nat.pow_inj_r 2); [lia|exact E].
Qed.

Lemma calculateEntanglementEntropy_kinds_witness :
  calculateEntanglementEntropy [cone; czero; czero; czero] 2 [0%nat; 1%nat]
  = Ok (Message "Calculation requires eigenvalue decomposition").
Proof.
  destruct (calculateEntanglementEntropy_kinds
              [cone; czero; czero; czero] 2 [0%nat; 1%nat]) as [_ H];
    [lia|reflexivity|].
  apply H. cbn. lia.
Defined.

(** ** More on the partial trace *)

Local Open Scope R_scope.

Lemma shouldInclude_sym (S : list nat) (i j : Z) :
  shouldInclude S i j = shouldInclude S j i.
Proof.
  unfold shouldInclude. induction S as [|q S IH]; cbn [forallb]; [reflexivity|].
  now rewrite IH, Z.eqb_sym.
Qed.

Lemma Rsum_map_opp {A : Type} (f : A -> R) (l : list A) :
  Rsum (map (fun x => - f x) l) = - Rsum (map f l).
Proof.
  induction l as [|x l IH]; cbn [map Rsum]; [ring|rewrite IH; ring].
Qed.

(** A sum over all pairs may be taken over the mirrored pairs. *)
Lemma Rsum_pairs_mirror (G G' : nat * nat -> R) (d : nat) :
  (forall i j, (i < d)%nat -> (j < d)%nat -> G (i, j) = G' (j, i)) ->
  Rsum (map G (pairs_before d d 0)) = Rsum (map G' (pairs_before d d 0)).
Proof.
  intros H. rewrite !Rsum_pairs.
  rewrite (Rsum_swap (fun i j => G' (i, j))).
  apply Rsum_map_ext. intros i Hi. apply in_seq in Hi.
  apply Rsum_map_ext. intros j Hj. apply in_seq in Hj.
  apply H; lia.
Qed.

Lemma contribution_mirror (rho : Matrix) (n : nat) (S : list nat)
      (a b i j : nat) :
  entry rho j i = conjugate (entry rho i j) ->
  contribution rho n S b a (j, i)
  = conjugate (contribution rho n S a b (i, j)).
Proof.
  intros Hherm. unfold contribution. cbn [fst snd].
  rewrite (shouldInclude_sym S (Z.of_nat j)).
  destruct (shouldInclude S (Z.of_nat i) (Z.of_nat j)); cbn [andb].
  - destruct (reduced n S i =? a)%nat, (reduced n S j =? b)%nat; cbn [andb];
      try assumption; apply complex_eq; cbn [conjugate czero re im]; ring.
  - apply complex_eq; cbn [conjugate czero re im]; ring.
Qed.

(** X14: the partial trace of a Hermitian matrix is Hermitian. *)
Theorem calculatePartialTrace_hermitian
        (rho : Matrix) (n : nat) (S : list nat) :
  (n <= 31)%nat -> square (2 ^ n) rho -> qubit_subset n S ->
  (forall i j, (i < 2 ^ n)%nat -> (j < 2 ^ n)%nat ->
               entry rho j i = conjugate (entry rho i j)) ->
  exists red,
    calculatePartialTrace rho n S = Ok red
    /\ forall a b, (a < 2 ^ (n - length S))%nat ->
                   (b < 2 ^ (n - length S))%nat ->
         entry red b a = conjugate (entry red a b).
Proof.
  intros Hn Hrho HS Hherm.
  destruct (calculatePartialTrace_ok rho n S Hn HS Hrho)
    as (red & Hrun & _ & Hent).
  exists red. split; [assumption|]. intros a b Ha Hb.
  rewrite !Hent by assumption. unfold Csum, conjugate. cbn [re im].
  rewrite !map_map. f_equal.
  - apply Rsum_pairs_mirror. intros i j Hi Hj.
    rewrite (contribution_mirror rho n S a b j i) by now apply Hherm.
    reflexivity.
  - rewrite <- Rsum_map_opp.
    apply (Rsum_pairs_mirror
             (fun p => im (contribution rho n S b a p))
             (fun p => - im (contribution rho n S a b p))).
    intros i j Hi Hj.
    rewrite (contribution_mirror rho n S a b j i) by now apply Hherm.
    reflexivity.
Qed.

Lemma calculatePartialTrace_hermitian_witness :
  exists red,
    calculatePartialTrace
      [[cone; czero; czero; czero]; [czero; czero; czero; czero];
       [czero; czero; czero; czero]; [czero; czero; czero; czero]] 2 [0%nat]
    = Ok red
    /\ entry red 1 0 = conjugate (entry red 0 1).
Proof.
  destruct (calculatePartialTrace_hermitian
              [[cone; czero; czero; czero]; [czero; czero; czero; czero];
               [czero; czero; czero; czero]; [czero; czero; czero; czero]]
              2 [0%nat]) as (red & Hrun & Hherm).
  - lia.
  - split; [reflexivity|]. repeat constructor.
  - split; [repeat constructor; simpl; tauto|]. intros q [<-|[]]. lia.
  - intros i j Hi Hj.
    assert (Hi' : (i < 4)%nat) by exact Hi.
    assert (Hj' : (j < 4)%nat) by exact Hj.
    destruct i as [|[|[|[|i]]]]; try lia;
      destruct j as [|[|[|[|j]]]]; try lia;
      apply complex_eq; cbn; ring.
  - exists red. split; [assumption|]. apply Hherm; simpl; lia.
Defined.

(** X15: tracing out every qubit leaves the 1 x 1 matrix that holds the
    trace of [rho]. *)
Theorem calculatePartialTrace_all_qubits
        (rho : Matrix) (n : nat) (S : list nat) :
  (n <= 31)%nat -> square (2 ^ n) rho -> qubit_subset n S -> length S = n ->
  calculatePartialTrace rho n S = Ok [[trace rho]].
Proof.
  intros Hn Hrho HS Hall.
  destruct (calculatePartialTrace_ok rho n S Hn HS Hrho)
    as (red & Hrun & Hsq & Hent).
  rewrite Hrun. f_equal.
  rewrite Hall, Nat.sub_diag in Hsq, Hent. cbn [Nat.pow] in Hsq, Hent.
  assert (Hcomp : forall c : Complex -> R,
             c czero = 0 -> (forall l, c (Csum l) = Rsum (map c l)) ->
             c (entry red 0 0)
             = Rsum (map (fun i => c (entry rho i i)) (seq 0 (2 ^ n)))).
  { intros c Hc0 Hcs.
    pose proof (partial_trace_component c rho red n S Hc0 Hcs Hn HS) as H.
    rewrite Hall, Nat.sub_diag in H. cbn [Nat.pow seq map Rsum] in H.
    rewrite <- H.
    - ring.
    - intros a Ha. apply Hent; lia. }
  assert (Hentry : entry red 0 0 = trace rho).
  { unfold trace. destruct Hrho as [-> _]. apply complex_eq; cbn [re im].
    - apply (Hcomp re); auto.
    - apply (Hcomp im); auto. }
  pose proof (square_row 1 red 0 Hsq) as Hrow.
  destruct Hsq as [Hlen _].
  destruct red as [|row [|? ?]]; try discriminate.
  unfold entry in Hentry. cbn [nth] in Hentry, Hrow.
  destruct row as [|x [|y row']]; cbn [length] in Hrow; try lia.
  cbn [nth] in Hentry. now rewrite Hentry.
Qed.

Lemma calculatePartialTrace_all_qubits_witness :
  calculatePartialTrace [[czero; cone]; [cone; cone]] 1 [0%nat]
  = Ok [[trace [[czero; cone]; [cone; cone]]]].
Proof.
  apply (calculatePartialTrace_all_qubits [[czero; cone]; [cone; cone]] 1).
  - lia.
  - split; [reflexivity|]. repeat constructor.
  - split; [repeat constructor; simpl; tauto|]. intros q [<-|[]]. lia.
  - reflexivity.
Defined.

(** ** The per-qubit probabilities *)








Local Close Scope R_scope.

(** ** The mock simulation of a converted circuit *)

Lemma apply_gates_app (n : nat) (l1 l2 : list (Matrix2 * nat)) :
  forall st,
    apply_gates n (l1 ++ l2) st
    = JS.bind (apply_gates n l1 st) (apply_gates n l2).
Proof.
  induction l1 as [|[M q] l1 IH]; intros st; cbn [app apply_gates JS.bind];
    [reflexivity|].
  destruct (applySingleQubitGate st M q n); cbn [JS.bind]; [apply IH|reflexivity].
Qed.

Lemma engine_gates_app (l1 l2 : list QGate) :
  engine_gates (l1 ++ l2) = engine_gates l1 ++ engine_gates l2.
Proof. apply flat_map_app. Qed.

Lemma placement_gates_app (l1 l2 : list Placement) :
  placement_gates (l1 ++ l2) = placement_gates l1 ++ placement_gates l2.
Proof. apply flat_map_app. Qed.

Lemma column_placements_S (circuit : Circuit) (m col : nat) :
  column_placements circuit (S m) col
  = column_placements circuit m col
    ++ match gate_at circuit m col with
       | Some g => [mkPlacement m g]
       | None => []
       end.
Proof.
  unfold column_placements. rewrite seq_S, flat_map_app.
  cbn [Nat.add flat_map]. now rewrite app_nil_r.
Qed.

Lemma column_placements_empty (circuit : Circuit) (n col : nat) :
  column_has_gate circuit n col = false -> column_placements circuit n col = [].
Proof.
  unfold column_has_gate, column_placements.
  induction (seq 0 n) as [|row rows IH]; cbn [existsb flat_map]; [reflexivity|].
  unfold has_gate at 1. destruct (gate_at circuit row col); cbn [orb app].
  - discriminate.
  - exact IH.
Qed.

(** On a gate that is not Y, Z, S or T the evaluator's dispatch is the
    engine call of [placement_gates], if any. *)
Lemma apply_placement_compat (n : nat) (st : StateVector) (p : Placement) :
  (n <= 31)%nat -> (p_qubit p < n)%nat -> length st = (2 ^ n)%nat ->
  ~ In (gate_id (p_gate p)) ["y"; "z"; "s"; "t"]%string ->
  exists r,
    apply_placement n st p = Ok r
    /\ apply_gates n (placement_gates [p]) st = Ok (fst r)
    /\ length (fst r) = (2 ^ n)%nat.
Proof.
  intros Hn Hq Hst Hid. unfold apply_placement, placement_gates. cbv zeta.
  cbn [flat_map]. rewrite app_nil_r.
  destruct (String.eqb (gate_id (p_gate p)) "h").
  { destruct (applySingleQubitGate_spec hadamardMatrix st n _ Hn Hq Hst)
      as (new & Hrun & Hlen & _).
    cbn [apply_gates]. rewrite Hrun. cbn [JS.bind].
    eexists. split; [reflexivity|]. split; [reflexivity|assumption]. }
  destruct (String.eqb (gate_id (p_gate p)) "x").
  { destruct (applySingleQubitGate_spec xMatrix st n _ Hn Hq Hst)
      as (new & Hrun & Hlen & _).
    cbn [apply_gates]. rewrite Hrun. cbn [JS.bind].
    eexists. split; [reflexivity|]. split; [reflexivity|assumption]. }
  repeat match goal with
         | |- context [String.eqb ?a ?b] =>
             let E := fresh "E" in
             destruct (String.eqb_spec a b) as [E|E];
             [try (exfalso; apply Hid; rewrite E; cbn [In]; tauto)|]
         end;
    (eexists; split; [reflexivity|]; split; [reflexivity|assumption]).
Qed.

Lemma apply_placements_compat (n : nat) (ps : list Placement) :
  (n <= 31)%nat ->
  Forall (fun p => (p_qubit p < n)%nat
                   /\ ~ In (gate_id (p_gate p)) ["y"; "z"; "s"; "t"]%string)
         ps ->
  forall acc : StateVector * list string,
    length (fst acc) = (2 ^ n)%nat ->
    exists r,
      apply_placements n ps acc = Ok r
      /\ apply_gates n (placement_gates ps) (fst acc) = Ok (fst r)
      /\ length (fst r) = (2 ^ n)%nat.
Proof.
  intros Hn Hps. induction Hps as [|p ps [Hq Hid] _ IH]; intros acc Hacc.
  - exists acc. repeat split; assumption.
  - destruct (apply_placement_compat n (fst acc) p Hn Hq Hacc Hid)
      as (r1 & Hr1 & Hg1 & Hl1).
    destruct (IH (fst r1, snd acc ++ [snd r1]) Hl1) as (r & Hr & Hg & Hl).
    exists r. cbn [apply_placements]. rewrite Hr1. cbn [JS.bind].
    split; [exact Hr|]. split; [|assumption].
    change (p :: ps) with ([p] ++ ps).
    rewrite placement_gates_app, apply_gates_app, Hg1. exact Hg.
Qed.

(** The state of the last step of the history is the state the engine
    calls of the columns give. *)
Lemma simulateCircuit_last_state
      (n d : nat) (circuit : Circuit) (inits : list QubitInit)
      (st0 : StateVector) :
  (n <= 31)%nat -> well_formed n d circuit -> mock_compatible circuit ->
  createInitialState n inits = Ok st0 -> length st0 = (2 ^ n)%nat ->
  exists steps s,
    simulateCircuit n d circuit inits = Ok steps
    /\ nth_error steps (length steps - 1) = Some s
    /\ apply_gates n (circuit_gates circuit n d) st0 = Ok (state s).
Proof.
  intros Hn Hwf Hcompat H0 Hl0.
  set (good := fun (m : nat) (steps : list SimulationStep) =>
                 exists s,
                   nth_error steps (length steps - 1) = Some s
                   /\ apply_gates n (circuit_gates circuit n m) st0
                      = Ok (state s)
                   /\ length (state s) = (2 ^ n)%nat).
  assert (Hstart : forall m,
             circuit_gates circuit n m = [] ->
             good m [mkStep 0 st0 "Initial state"]).
  { intros m Hm. eexists. split; [reflexivity|]. rewrite Hm. split;
      [reflexivity|assumption]. }
  assert (Hfinal : exists steps,
             simulateCircuit n d circuit inits = Ok steps /\ good d steps).
  { unfold simulateCircuit. rewrite H0. cbn [JS.bind].
    rewrite (scan_cols_ok n d) by (assumption || lia). cbn [JS.bind].
    destruct (existsb (column_has_gate circuit n) (seq 0 d)) eqn:Hany.
    - apply (for_loop_inv good); [now apply Hstart|].
      intros col steps Hcol (prev & Hprev & Hgates & Hplen).
      unfold column_step. rewrite (collect_column_ok n d) by assumption.
      cbn [JS.bind fst snd].
      assert (HG : circuit_gates circuit n (S col)
                   = circuit_gates circuit n col
                     ++ placement_gates (column_placements circuit n col)).
      { unfold circuit_gates. rewrite seq_S, flat_map_app.
        cbn [Nat.add flat_map]. now rewrite app_nil_r. }
      destruct (column_has_gate circuit n col) eqn:Hhas.
      + assert (Hpos : (0 < length steps)%nat).
        { destruct steps; [destruct (length [] - 1)%nat; discriminate|].
          cbn [length]. lia. }
        replace (Z.of_nat (length steps) - 1)
          with (Z.of_nat (length steps - 1)) by lia.
        rewrite get_of_nat, Hprev. cbn [JS.bind].
        destruct (apply_placements_compat
                    n (column_placements circuit n col) Hn)
          with (acc := (state prev, @nil string)) as (r & -> & Hg & Hrl);
          [|assumption|].
        { apply Forall_forall. intros p Hp.
          apply column_placements_in in Hp. destruct Hp as [Hq Hcell].
          split; [assumption|]. now apply (Hcompat _ _ _ Hcell). }
        cbn [JS.bind fst] in *. eexists. split; [reflexivity|].
        eexists. split; [|split].
        * rewrite length_app. cbn [length].
          rewrite nth_error_app2 by lia.
          replace (length steps + 1 - 1 - length steps)%nat with 0%nat by lia.
          reflexivity.
        * cbn [state]. rewrite HG, apply_gates_app, Hgates. exact Hg.
        * assumption.
      + exists steps. split; [reflexivity|]. exists prev.
        split; [assumption|]. split; [|assumption].
        rewrite HG, (column_placements_empty _ _ _ Hhas). cbn [placement_gates flat_map].
        now rewrite app_nil_r.
    - eexists. split; [reflexivity|]. apply Hstart.
      unfold circuit_gates.
      assert (Hall : forall col, In col (seq 0 d) ->
                       column_has_gate circuit n col = false).
      { intros col Hcol.
        destruct (column_has_gate circuit n col) eqn:E; [|reflexivity].
        rewrite <- Hany. symmetry. apply existsb_exists. now exists col. }
      revert Hall. generalize (seq 0 d). intros cols.
      induction cols as [|col cols IH]; intros Hall; [reflexivity|].
      cbn [flat_map]. rewrite column_placements_empty by (apply Hall; now left).
      cbn [placement_gates flat_map app]. apply IH.
      intros c Hc. apply Hall. now right. }
  destruct Hfinal as (steps & Hrun & s & Hs & Hgates & _).
  exists steps, s. repeat split; assumption.
Qed.

Lemma find_target_ok (n d : nat) (circuit : Circuit) (col : nat) (id : string) :
  well_formed n d circuit -> (col < d)%nat ->
  forall k row, (row + k <= n)%nat ->
  exists found, find_target circuit col id row k = Ok found.
Proof.
  intros Hwf Hcol. induction k as [|k IH]; intros row Hrow;
    cbn [find_target]; [now exists None|].
  destruct (cell_at_ok n d circuit row col Hwf) as (c & -> & _); [lia|lia|].
  cbn [JS.bind].
  destruct (gate c) as [g|]; [|apply IH; lia].
  destruct (gate_target g && String.eqb (gate_id g) id)%bool;
    [now eexists|apply IH; lia].
Qed.

Lemma not_h_or_x (g : Gate) :
  (In (gate_id g) ["h"; "x"]%string ->
   gate_control g = false /\ gate_target g = false) ->
  (negb (gate_control g) && negb (gate_target g))%bool = false ->
  String.eqb (gate_id g) "h" = false /\ String.eqb (gate_id g) "x" = false.
Proof.
  intros Hcompat Hflag.
  split; apply not_true_is_false; intros E; apply String.eqb_eq in E;
    destruct Hcompat as [Hc Ht]; try (rewrite E; cbn [In]; tauto);
    rewrite Hc, Ht in Hflag; discriminate.
Qed.

Lemma convert_singles_ok (n d : nat) (circuit : Circuit) (col : nat)
      (calls : list (Matrix2 * nat)) (qc : QiskitCircuit) :
  well_formed n d circuit -> mock_compatible circuit -> (col < d)%nat ->
  converted n calls qc ->
  exists qc',
    for_loop n (convert_single circuit col) qc = Ok qc'
    /\ converted n (calls ++ placement_gates (column_placements circuit n col))
                 qc'.
Proof.
  intros Hwf Hcompat Hcol Hqc.
  apply (for_loop_inv
           (fun m qc' =>
              converted
                n (calls ++ placement_gates (column_placements circuit m col))
                qc')).
  - cbn [column_placements seq flat_map placement_gates].
    now rewrite app_nil_r.
  - intros row qc' Hrow (Hn & Hcalls & Hvalid). unfold convert_single.
    destruct (cell_at_ok n d circuit row col Hwf Hrow Hcol) as (c & -> & Hg).
    cbn [JS.bind]. rewrite Hg, column_placements_S, placement_gates_app.
    destruct (gate_at circuit row col) as [g|] eqn:Hcell.
    + destruct (negb (gate_control g) && negb (gate_target g))%bool eqn:Hflag.
      * eexists. split; [reflexivity|]. unfold converted, addGate.
        cbn [qc_numQubits qc_gates]. split; [assumption|]. split.
        -- rewrite engine_gates_app, Hcalls, <- app_assoc. reflexivity.
        -- apply Forall_app. split; [assumption|].
           constructor; [|constructor]. intros _. exact Hrow.
      * exists qc'. split; [reflexivity|]. split; [assumption|].
        split; [|assumption].
        destruct (not_h_or_x g (proj2 (Hcompat _ _ _ Hcell)) Hflag) as [Eh Ex].
        cbn [placement_gates flat_map p_gate]. rewrite Eh, Ex.
        cbn [app]. now rewrite !app_nil_r.
    + exists qc'. split; [reflexivity|]. split; [assumption|].
      split; [|assumption].
      cbn [placement_gates flat_map]. now rewrite !app_nil_r.
Qed.

Lemma convert_controls_ok (n d : nat) (circuit : Circuit) (col : nat)
      (calls : list (Matrix2 * nat)) (qc : QiskitCircuit) :
  well_formed n d circuit -> mock_compatible circuit -> (col < d)%nat ->
  converted n calls qc ->
  exists qc',
    for_loop n (convert_control circuit n col) qc = Ok qc'
    /\ converted n calls qc'.
Proof.
  intros Hwf Hcompat Hcol Hqc.
  apply (for_loop_inv (fun _ qc' => converted n calls qc')); [assumption|].
  intros row qc' Hrow Hinv. unfold convert_control.
  destruct (cell_at_ok n d circuit row col Hwf Hrow Hcol) as (c & -> & Hg).
  cbn [JS.bind]. rewrite Hg.
  destruct (gate_at circuit row col) as [g|] eqn:Hcell;
    [|exists qc'; split; [reflexivity|assumption]].
  destruct (gate_control g) eqn:Hctl;
    [|exists qc'; split; [reflexivity|assumption]].
  destruct (find_target_ok n d circuit col (gate_id g) Hwf Hcol n 0)
    as (found & ->); [lia|].
  cbn [JS.bind].
  destruct found as [targetRow|];
    [|exists qc'; split; [reflexivity|assumption]].
  eexists. split; [reflexivity|].
  destruct (not_h_or_x g (proj2 (Hcompat _ _ _ Hcell))) as [Eh Ex];
    [now rewrite Hctl|].
  destruct Hinv as (Hn & Hcalls & Hvalid).
  unfold converted, addGate. cbn [qc_numQubits qc_gates].
  split; [assumption|]. split.
  - rewrite engine_gates_app, Hcalls. cbn [engine_gates flat_map q_name].
    rewrite Eh, Ex. cbn [app]. now rewrite app_nil_r.
  - apply Forall_app. split; [assumption|].
    constructor; [|constructor]. cbn [q_name]. rewrite Eh, Ex. discriminate.
Qed.

Lemma convert_measurements_ok (n d : nat) (circuit : Circuit) (col : nat)
      (calls : list (Matrix2 * nat)) (qc : QiskitCircuit) :
  well_formed n d circuit -> (col < d)%nat ->
  converted n calls qc ->
  exists qc',
    for_loop n (convert_measurement circuit col) qc = Ok qc'
    /\ converted n calls qc'.
Proof.
  intros Hwf Hcol Hqc.
  apply (for_loop_inv (fun _ qc' => converted n calls qc')); [assumption|].
  intros row qc' Hrow Hinv. unfold convert_measurement.
  destruct (cell_at_ok n d circuit row col Hwf Hrow Hcol) as (c & -> & _).
  cbn [JS.bind].
  destruct (gate c) as [g|]; [|exists qc'; split; [reflexivity|assumption]].
  destruct (String.eqb (gate_id g) "measure");
    [|exists qc'; split; [reflexivity|assumption]].
  eexists. split; [reflexivity|]. exact Hinv.
Qed.

(** The conversion does not throw, and the gates of its result that the
    mock simulator acts on are the engine calls of the circuit, column by
    column. *)
Lemma convertToQiskitCircuit_ok (n d : nat) (circuit : Circuit) :
  (1 <= n)%nat -> well_formed n d circuit -> mock_compatible circuit ->
  exists qc,
    convertToQiskitCircuit circuit n = Ok qc
    /\ converted n (circuit_gates circuit n d) qc.
Proof.
  intros Hn Hwf Hcompat. unfold convertToQiskitCircuit. cbv zeta.
  assert (Hrow0 : get circuit 0 = Ok (nth 0 circuit [])
                  /\ length (nth 0 circuit []) = d).
  { destruct Hwf as [Hlen Hrows]. split.
    - change 0 with (Z.of_nat 0). apply get_nth. lia.
    - rewrite Forall_forall in Hrows. apply Hrows. apply nth_In. lia. }
  destruct Hrow0 as [-> Hd]. cbn [JS.bind]. rewrite Hd.
  apply (for_loop_inv
           (fun m qc => converted n (circuit_gates circuit n m) qc)).
  - repeat split. constructor.
  - intros col qc Hcol Hqc. unfold convert_column.
    destruct (convert_singles_ok n d circuit col _ qc Hwf Hcompat Hcol Hqc)
      as (qc1 & -> & H1).
    cbn [JS.bind].
    destruct (convert_controls_ok n d circuit col _ qc1 Hwf Hcompat Hcol H1)
      as (qc2 & -> & H2).
    cbn [JS.bind].
    destruct (convert_measurements_ok n d circuit col _ qc2 Hwf Hcol H2)
      as (qc3 & -> & H3).
    exists qc3. split; [reflexivity|].
    unfold circuit_gates. rewrite seq_S, flat_map_app.
    cbn [Nat.add flat_map]. now rewrite app_nil_r.
Qed.

Lemma generateMockStateVector_run (circuit : QiskitCircuit) :
  (qc_numQubits circuit <= 31)%nat ->
  generateMockStateVector circuit
  = mock_gates (qc_numQubits circuit) (qc_gates circuit)
               (map Some (update (repeat czero (2 ^ qc_numQubits circuit))
                                 0 cone)).
Proof.
  intros Hn. unfold generateMockStateVector. cbv zeta.
  rewrite new_array_ok by assumption. cbn [JS.bind]. rewrite dim_nat.
  assert (Hpos : (0 < 2 ^ qc_numQubits circuit)%nat)
    by (apply Nat.neq_0_lt_0, Nat.pow_nonzero; lia).
  replace (repeat (Some czero) (2 ^ qc_numQubits circuit))
    with (map Some (repeat czero (2 ^ qc_numQubits circuit)))
    by apply map_repeat.
  change 0 with (Z.of_nat 0).
  now rewrite mock_store_defined by (rewrite repeat_length; lia).
Qed.

(** X17: for a circuit of H and X gates, measurements and multi-qubit
    gates (no Y, Z, S or T; no tag on an H or X), started from |0...0>:
    [convertToQiskitCircuit] followed by [generateMockStateVector] returns
    the state of the last step of the history of [simulateCircuit]. *)
Theorem mock_simulation_agrees_with_history
        (n d : nat) (circuit : Circuit) :
  (1 <= n <= 31)%nat -> well_formed n d circuit -> mock_compatible circuit ->
  exists qc steps s,
    convertToQiskitCircuit circuit n = Ok qc
    /\ simulateCircuit n d circuit (repeat (mkQubitInit "0" 0) n) = Ok steps
    /\ nth_error steps (length steps - 1) = Some s
    /\ generateMockStateVector qc = Ok (map Some (state s)).
Proof.
  intros Hn Hwf Hcompat.
  destruct (convertToQiskitCircuit_ok n d circuit) as (qc & Hqc & Hq & Hcalls & Hvalid);
    [lia|assumption..|].
  assert (Hl0 : length (update (repeat czero (2 ^ n)) 0 cone) = (2 ^ n)%nat)
    by now rewrite length_update, repeat_length.
  destruct (simulateCircuit_last_state
              n d circuit (repeat (mkQubitInit "0" 0) n)
              (update (repeat czero (2 ^ n)) 0 cone))
    as (steps & s & Hrun & Hlast & Hgates);
    [lia|assumption|assumption|apply createInitialState_all_zero; lia
    |assumption|].
  exists qc, steps, s. split; [assumption|]. split; [assumption|].
  split; [assumption|].
  rewrite generateMockStateVector_run by (rewrite Hq; lia). rewrite Hq.
  destruct (mock_gates_engine n (qc_gates qc)) with
    (st := update (repeat czero (2 ^ n)) 0 cone) as (st' & Heng & _ & Hmock);
    [lia|exact Hvalid|assumption|].
  rewrite Hcalls, Hgates in Heng. injection Heng as <-. exact Hmock.
Qed.

Lemma mock_simulation_agrees_with_history_witness :
  exists qc steps s,
    convertToQiskitCircuit
      [[mkCell (Some (mkGate "h" "H" "Hadamard" false false));
        mkCell (Some (mkGate "measure" "M" "Measure" false false))]] 1
    = Ok qc
    /\ simulateCircuit
         1 2 [[mkCell (Some (mkGate "h" "H" "Hadamard" false false));
               mkCell (Some (mkGate "measure" "M" "Measure" false false))]]
         (repeat (mkQubitInit "0" 0) 1) = Ok steps
    /\ nth_error steps (length steps - 1) = Some s
    /\ generateMockStateVector qc = Ok (map Some (state s)).
Proof.
  apply (mock_simulation_agrees_with_history
           1 2 [[mkCell (Some (mkGate "h" "H" "Hadamard" false false));
                 mkCell (Some (mkGate "measure" "M" "Measure" false false))]]).
  - lia.
  - split; [reflexivity|]. repeat constructor.
  - intros row col g Hg. unfold gate_at in Hg.
    destruct row as [|row]; [|destruct row; destruct col; discriminate Hg].
    destruct col as [|[|col]]; cbn in Hg;
      [injection Hg as <-|injection Hg as <-|destruct col; discriminate Hg];
      cbn [gate_id gate_control gate_target In];
      (split; [intros H; repeat (destruct H as [H|H]; [discriminate H|]);
               exact H|auto]).
Defined.

(** ** The search for a target and the measurements of the conversion *)

Lemma find_target_spec (n d : nat) (circuit : Circuit) (col : nat)
      (id : string) :
  well_formed n d circuit -> (col < d)%nat ->
  forall k row, (row + k <= n)%nat ->
  exists found,
    find_target circuit col id row k = Ok found
    /\ match found with
       | Some t =>
           (row <= t < row + k)%nat /\ is_target circuit id col t
           /\ forall r, (row <= r < t)%nat -> ~ is_target circuit id col r
       | None =>
           forall r, (row <= r < row + k)%nat -> ~ is_target circuit id col r
       end.
Proof.
  intros Hwf Hcol. induction k as [|k IH]; intros row Hrow;
    cbn [find_target].
  - exists None. split; [reflexivity|]. intros r Hr. lia.
  - destruct (cell_at_ok n d circuit row col Hwf) as (c & -> & Hg);
      [lia|lia|].
    cbn [JS.bind]. rewrite Hg.
    assert (Hnext :
              ~ is_target circuit id col row ->
              exists found,
                find_target circuit col id (S row) k = Ok found
                /\ match found with
                   | Some t =>
                       (row <= t < row + S k)%nat /\ is_target circuit id col t
                       /\ forall r, (row <= r < t)%nat ->
                                    ~ is_target circuit id col r
                   | None =>
                       forall r, (row <= r < row + S k)%nat ->
                                 ~ is_target circuit id col r
                   end).
    { intros Hno. destruct (IH (S row)) as (found & Hrun & Hfound); [lia|].
      exists found. split; [assumption|].
      destruct found as [t|].
      - destruct Hfound as (Ht & Hit & Hfirst).
        split; [lia|]. split; [assumption|].
        intros r Hr. destruct (Nat.eq_dec r row) as [->|Hne];
          [assumption|apply Hfirst; lia].
      - intros r Hr. destruct (Nat.eq_dec r row) as [->|Hne];
          [assumption|apply Hfound; lia]. }
    destruct (gate_at circuit row col) as [g|] eqn:Hcell.
    + destruct (gate_target g && String.eqb (gate_id g) id)%bool eqn:Htest.
      * apply andb_true_iff in Htest. destruct Htest as [Ht Hid].
        apply String.eqb_eq in Hid.
        exists (Some row). split; [reflexivity|]. split; [lia|]. split.
        -- exists g. now rewrite Hcell.
        -- intros r Hr. lia.
      * apply Hnext. intros (g' & Hg' & Ht & Hid).
        rewrite Hcell in Hg'. injection Hg' as <-.
        rewrite Ht in Htest. cbn [andb] in Htest.
        apply String.eqb_neq in Htest. contradiction.
    + apply Hnext. intros (g' & Hg' & _). rewrite Hcell in Hg'. discriminate.
Qed.

(** X18: the search for the target of a control cell returns the first row
    of the column whose gate is tagged target with the id looked for, and
    nothing when the column has no such row. *)
Theorem control_search_finds_first_target
        (n d : nat) (circuit : Circuit) (col : nat) (id : string) :
  well_formed n d circuit -> (col < d)%nat ->
  exists found,
    find_target circuit col id 0 n = Ok found
    /\ match found with
       | Some t =>
           (t < n)%nat /\ is_target circuit id col t
           /\ forall r, (r < t)%nat -> ~ is_target circuit id col r
       | None => forall r, (r < n)%nat -> ~ is_target circuit id col r
       end.
Proof.
  intros Hwf Hcol.
  destruct (find_target_spec n d circuit col id Hwf Hcol n 0)
    as (found & Hrun & Hfound); [lia|].
  exists found. split; [assumption|].
  destruct found as [t|].
  - destruct Hfound as (Ht & Hit & Hfirst). split; [lia|].
    split; [assumption|]. intros r Hr. apply Hfirst. lia.
  - intros r Hr. apply Hfound. lia.
Qed.

Lemma control_search_finds_first_target_witness :
  exists found,
    find_target
      [[mkCell None];
       [mkCell (Some (mkGate "cx" "CX" "CNOT" true true))]] 0 "cx" 0 2
    = Ok found
    /\ match found with
       | Some t =>
           (t < 2)%nat
           /\ is_target
                [[mkCell None];
                 [mkCell (Some (mkGate "cx" "CX" "CNOT" true true))]]
                "cx" 0 t
           /\ forall r, (r < t)%nat ->
                        ~ is_target
                            [[mkCell None];
                             [mkCell (Some (mkGate "cx" "CX" "CNOT"
                                                   true true))]]
                            "cx" 0 r
       | None =>
           forall r, (r < 2)%nat ->
                     ~ is_target
                         [[mkCell None];
                          [mkCell (Some (mkGate "cx" "CX" "CNOT"
                                                true true))]]
                         "cx" 0 r
       end.
Proof.
  apply (control_search_finds_first_target
           2 1 [[mkCell None];
                [mkCell (Some (mkGate "cx" "CX" "CNOT" true true))]]
           0 "cx").
  - split; [reflexivity|]. repeat constructor.
  - lia.
Defined.

(** X19: a cell whose gate is tagged both control and target (as every
    multi-qubit gate of the palette) always finds a target, at its own row
    or above: the gate the conversion adds for it has the cell's row as
    control and a row [t <= row] as target, so the topmost such cell of a
    column is paired with itself. *)
Theorem control_and_target_pairs_upwards
        (n d : nat) (circuit : Circuit) (col row : nat) (g : Gate)
        (qc : QiskitCircuit) :
  well_formed n d circuit -> (row < n)%nat -> (col < d)%nat ->
  gate_at circuit row col = Some g ->
  gate_control g = true -> gate_target g = true ->
  exists t,
    (t <= row)%nat
    /\ convert_control circuit n col row qc
       = Ok (mkQiskitCircuit (qc_numQubits qc)
                             (qc_gates qc ++ [mkQGate (gate_id g) [row; t]])
                             (qc_measurements qc))
    /\ ((forall r, (r < row)%nat -> ~ is_target circuit (gate_id g) col r) ->
        t = row).
Proof.
  intros Hwf Hrow Hcol Hcell Hctl Htgt. unfold convert_control.
  destruct (cell_at_ok n d circuit row col Hwf Hrow Hcol) as (c & -> & Hg).
  cbn [JS.bind]. rewrite Hg, Hcell, Hctl.
  assert (Hself : is_target circuit (gate_id g) col row)
    by (exists g; auto).
  destruct (find_target_spec n d circuit col (gate_id g) Hwf Hcol n 0)
    as (found & -> & Hfound); [lia|].
  cbn [JS.bind].
  destruct found as [t|]; [|exfalso; apply (Hfound row); [lia|assumption]].
  destruct Hfound as (Ht & Hit & Hfirst).
  assert (Hle : (t <= row)%nat).
  { destruct (le_lt_dec t row) as [Hle|Hlt]; [assumption|].
    exfalso. apply (Hfirst row); [lia|assumption]. }
  exists t. split; [assumption|]. split; [reflexivity|].
  intros Hnone. destruct (Nat.eq_dec t row) as [E|Hne]; [assumption|].
  exfalso. apply (Hnone t); [lia|assumption].
Qed.

Lemma control_and_target_pairs_upwards_witness :
  exists t,
    (t <= 1)%nat
    /\ convert_control
         [[mkCell (Some (mkGate "cx" "CX" "CNOT" true true))];
          [mkCell (Some (mkGate "cx" "CX" "CNOT" true true))]]
         2 0 1 (createQiskitCircuit 2)
       = Ok (mkQiskitCircuit
               (qc_numQubits (createQiskitCircuit 2))
               (qc_gates (createQiskitCircuit 2)
                ++ [mkQGate
                      (gate_id (mkGate "cx" "CX" "CNOT" true true)) [1; t]%nat])
               (qc_measurements (createQiskitCircuit 2)))
    /\ ((forall r, (r < 1)%nat ->
                   ~ is_target
                       [[mkCell (Some (mkGate "cx" "CX" "CNOT" true true))];
                        [mkCell (Some (mkGate "cx" "CX" "CNOT" true true))]]
                       (gate_id (mkGate "cx" "CX" "CNOT" true true)) 0 r) ->
        t = 1%nat).
Proof.
  apply (control_and_target_pairs_upwards
           2 1 [[mkCell (Some (mkGate "cx" "CX" "CNOT" true true))];
                [mkCell (Some (mkGate "cx" "CX" "CNOT" true true))]]
           0 1 (mkGate "cx" "CX" "CNOT" true true) (createQiskitCircuit 2)).
  - split; [reflexivity|]. repeat constructor.
  - lia.
  - lia.
  - reflexivity.
  - reflexivity.
  - reflexivity.
Defined.

Lemma convert_singles_measurements (n d : nat) (circuit : Circuit) (col : nat)
      (qc : QiskitCircuit) :
  well_formed n d circuit -> (col < d)%nat ->
  exists qc',
    for_loop n (convert_single circuit col) qc = Ok qc'
    /\ qc_numQubits qc' = qc_numQubits qc
    /\ qc_measurements qc' = qc_measurements qc.
Proof.
  intros Hwf Hcol.
  apply (for_loop_inv
           (fun _ qc' => qc_numQubits qc' = qc_numQubits qc
                         /\ qc_measurements qc' = qc_measurements qc));
    [split; reflexivity|].
  intros row qc' Hrow Hinv. unfold convert_single.
  destruct (cell_at_ok n d circuit row col Hwf Hrow Hcol) as (c & -> & _).
  cbn [JS.bind].
  destruct (gate c) as [g|]; [|exists qc'; split; [reflexivity|assumption]].
  destruct (negb (gate_control g) && negb (gate_target g))%bool;
    [|exists qc'; split; [reflexivity|assumption]].
  eexists. split; [reflexivity|]. exact Hinv.
Qed.

Lemma convert_controls_measurements (n d : nat) (circuit : Circuit)
      (col : nat) (qc : QiskitCircuit) :
  well_formed n d circuit -> (col < d)%nat ->
  exists qc',
    for_loop n (convert_control circuit n col) qc = Ok qc'
    /\ qc_numQubits qc' = qc_numQubits qc
    /\ qc_measurements qc' = qc_measurements qc.
Proof.
  intros Hwf Hcol.
  apply (for_loop_inv
           (fun _ qc' => qc_numQubits qc' = qc_numQubits qc
                         /\ qc_measurements qc' = qc_measurements qc));
    [split; reflexivity|].
  intros row qc' Hrow Hinv. unfold convert_control.
  destruct (cell_at_ok n d circuit row col Hwf Hrow Hcol) as (c & -> & _).
  cbn [JS.bind].
  destruct (gate c) as [g|]; [|exists qc'; split; [reflexivity|assumption]].
  destruct (gate_control g); [|exists qc'; split; [reflexivity|assumption]].
  destruct (find_target_ok n d circuit col (gate_id g) Hwf Hcol n 0)
    as (found & ->); [lia|].
  cbn [JS.bind].
  destruct found as [t|]; [|exists qc'; split; [reflexivity|assumption]].
  eexists. split; [reflexivity|]. exact Hinv.
Qed.

Lemma convert_measurements_spec (n d : nat) (circuit : Circuit) (col : nat)
      (qc : QiskitCircuit) :
  well_formed n d circuit -> (col < d)%nat ->
  exists qc',
    for_loop n (convert_measurement circuit col) qc = Ok qc'
    /\ qc_numQubits qc' = qc_numQubits qc
    /\ qc_measurements qc'
       = qc_measurements qc ++ column_measurements circuit n col.
Proof.
  intros Hwf Hcol.
  apply (for_loop_inv
           (fun m qc' =>
              qc_numQubits qc' = qc_numQubits qc
              /\ qc_measurements qc'
                 = qc_measurements qc ++ column_measurements circuit m col)).
  - split; [reflexivity|].
    unfold column_measurements. cbn [seq flat_map]. now rewrite app_nil_r.
  - intros row qc' Hrow [Hn Hm]. unfold convert_measurement.
    destruct (cell_at_ok n d circuit row col Hwf Hrow Hcol) as (c & -> & Hg).
    cbn [JS.bind]. rewrite Hg.
    unfold column_measurements. rewrite seq_S, flat_map_app.
    cbn [Nat.add flat_map]. fold (column_measurements circuit row col).
    destruct (gate_at circuit row col) as [g|].
    + destruct (String.eqb (gate_id g) "measure").
      * eexists. split; [reflexivity|]. unfold addMeasurement.
        cbn [qc_numQubits qc_measurements]. split; [assumption|].
        rewrite Hm, <- app_assoc. reflexivity.
      * exists qc'. split; [reflexivity|]. split; [assumption|].
        cbn [app]. now rewrite app_nil_r.
    + exists qc'. split; [reflexivity|]. split; [assumption|].
      cbn [app]. now rewrite app_nil_r.
Qed.

(** X20: on a circuit without rows [convertToQiskitCircuit] throws a
    TypeError; on a well-formed circuit of at least one row it returns,
    whatever the gates, a circuit of [n] qubits whose measurements are the
    cells holding the gate [measure], column by column and top row first,
    each stored in the classical bit of its own qubit. *)
Theorem convertToQiskitCircuit_measurements
        (n d : nat) (circuit : Circuit) :
  well_formed n d circuit ->
  (n = 0%nat -> convertToQiskitCircuit circuit n = Err TypeError)
  /\ ((1 <= n)%nat ->
      exists qc,
        convertToQiskitCircuit circuit n = Ok qc
        /\ qc_numQubits qc = n
        /\ qc_measurements qc
           = flat_map (column_measurements circuit n) (seq 0 d)).
Proof.
  intros Hwf. split.
  - intros ->. destruct Hwf as [Hlen _].
    destruct circuit; [reflexivity|discriminate Hlen].
  - intros Hn. unfold convertToQiskitCircuit. cbv zeta.
    assert (Hrow0 : get circuit 0 = Ok (nth 0 circuit [])
                    /\ length (nth 0 circuit []) = d).
    { destruct Hwf as [Hlen Hrows]. split.
      - change 0 with (Z.of_nat 0). apply get_nth. lia.
      - rewrite Forall_forall in Hrows. apply Hrows. apply nth_In. lia. }
    destruct Hrow0 as [-> Hd]. cbn [JS.bind]. rewrite Hd.
    apply (for_loop_inv
             (fun m qc =>
                qc_numQubits qc = n
                /\ qc_measurements qc
                   = flat_map (column_measurements circuit n) (seq 0 m))).
    + split; reflexivity.
    + intros col qc Hcol [Hq Hm]. unfold convert_column.
      destruct (convert_singles_measurements n d circuit col qc Hwf Hcol)
        as (qc1 & -> & Hq1 & Hm1).
      cbn [JS.bind].
      destruct (convert_controls_measurements n d circuit col qc1 Hwf Hcol)
        as (qc2 & -> & Hq2 & Hm2).
      cbn [JS.bind].
      destruct (convert_measurements_spec n d circuit col qc2 Hwf Hcol)
        as (qc3 & -> & Hq3 & Hm3).
      exists qc3. split; [reflexivity|]. split; [congruence|].
      rewrite Hm3, Hm2, Hm1, Hm, seq_S, flat_map_app.
      cbn [Nat.add flat_map]. now rewrite app_nil_r.
Qed.

Lemma convertToQiskitCircuit_measurements_witness :
  ((1 = 0)%nat ->
   convertToQiskitCircuit
     [[mkCell (Some (mkGate "h" "H" "Hadamard" false false));
       mkCell (Some (mkGate "measure" "M" "Measure" false false))]] 1
   = Err TypeError)
  /\ ((1 <= 1)%nat ->
      exists qc,
        convertToQiskitCircuit
          [[mkCell (Some (mkGate "h" "H" "Hadamard" false false));
            mkCell (Some (mkGate "measure" "M" "Measure" false false))]] 1
        = Ok qc
        /\ qc_numQubits qc = 1%nat
        /\ qc_measurements qc
           = flat_map
               (column_measurements
                  [[mkCell (Some (mkGate "h" "H" "Hadamard" false false));
                    mkCell (Some (mkGate "measure" "M" "Measure"
                                         false false))]] 1)
               (seq 0 2)).
Proof.
  apply (convertToQiskitCircuit_measurements
           1 2 [[mkCell (Some (mkGate "h" "H" "Hadamard" false false));
                 mkCell (Some (mkGate "measure" "M" "Measure" false false))]]).
  split; [reflexivity|]. repeat constructor.
Defined.

(** ** The entanglement entropy of one qubit *)


Section OneQubit.

Variables (n q : nat).
Hypothesis Hn : (n <= 31)%nat.
Hypothesis Hq : (q < n)%nat.










End OneQubit.

Local Open Scope R_scope.







Local Close Scope R_scope.
